(** * Local-first job tracker: operation queue, sync engine and reconciliation

    A shallow embedding of the TypeScript sources

    - [lib/db/indexed-db.ts]        (module [Db]),
    - [app/api/sync/route.ts], [app/api/sync/pull/route.ts] and
      [app/api/applications/[id]/route.ts]   (module [Server]),
    - [lib/sync/sync-engine.ts]     (module [Engine]),
    - [lib/stores/application-store.ts], [lib/stores/sync-store.ts] and the
      hooks [useApplications], [useOfflineSync]   (module [Store]),

    followed by the properties of the specification, each proved, or refuted
    and amended, on these definitions.

    Conventions.  JavaScript [Date]s and [Date.now()] are milliseconds in [Z];
    a [Promise] is its outcome ([Fulfilled] or [Rejected msg]); the clock,
    [crypto.randomUUID], the network and the order in which concurrent
    promises settle are explicit arguments. *)

From stdpp Require Import gmap strings list sorting.
From Equations Require Import Equations.
From Stdlib Require Import ZArith Lia.

(* ===================================================================== *)
(** * lib/db/indexed-db.ts *)
(* ===================================================================== *)

Module Db.

Inductive ApplicationStatus :=
  | WISHLIST | APPLIED | SCREENING | INTERVIEW | OFFER | REJECTED.

Record Application := mkApplication {
  app_id : string;
  app_userId : string;
  app_company : string;
  app_position : string;
  app_location : option string;
  app_salaryMin : option Z;
  app_salaryMax : option Z;
  app_status : ApplicationStatus;
  app_applicationDate : option Z;
  app_deadline : option Z;
  app_followUpDate : option Z;
  app_url : option string;
  app_notes : option string;
  app_createdAt : Z;
  app_updatedAt : Z;
  app_lastSyncedAt : Z;
  app_version : Z }.

Record Contact := mkContact {
  contact_id : string;
  contact_applicationId : string;
  contact_name : string;
  contact_email : option string;
  contact_phone : option string;
  contact_role : option string;
  contact_notes : option string;
  contact_createdAt : Z;
  contact_updatedAt : Z }.

Record Document := mkDocument {
  doc_id : string;
  doc_applicationId : string;
  doc_name : string;
  doc_type : string;
  doc_url : string;
  doc_createdAt : Z;
  doc_updatedAt : Z }.

(** [Partial<Application>]: every field may be missing. *)
Record ApplicationPatch := mkPatch {
  p_id : option string;
  p_userId : option string;
  p_company : option string;
  p_position : option string;
  p_location : option string;
  p_salaryMin : option Z;
  p_salaryMax : option Z;
  p_status : option ApplicationStatus;
  p_applicationDate : option Z;
  p_deadline : option Z;
  p_followUpDate : option Z;
  p_url : option string;
  p_notes : option string;
  p_createdAt : option Z;
  p_updatedAt : option Z;
  p_lastSyncedAt : option Z;
  p_version : option Z }.

Definition empty_patch : ApplicationPatch :=
  mkPatch None None None None None None None None None
          None None None None None None None None.

(** A whole record seen as a patch (every required field present). *)
Definition to_patch (a : Application) : ApplicationPatch :=
  {| p_id := Some (app_id a); p_userId := Some (app_userId a);
     p_company := Some (app_company a); p_position := Some (app_position a);
     p_location := app_location a; p_salaryMin := app_salaryMin a;
     p_salaryMax := app_salaryMax a; p_status := Some (app_status a);
     p_applicationDate := app_applicationDate a; p_deadline := app_deadline a;
     p_followUpDate := app_followUpDate a; p_url := app_url a;
     p_notes := app_notes a; p_createdAt := Some (app_createdAt a);
     p_updatedAt := Some (app_updatedAt a);
     p_lastSyncedAt := Some (app_lastSyncedAt a);
     p_version := Some (app_version a) |}.

(** [o ?? d]: the field of the later object when it has one. *)
Definition over {A} (newer : option A) (older : A) : A :=
  match newer with Some x => x | None => older end.

Definition over_opt {A} (newer older : option A) : option A :=
  match newer with Some x => Some x | None => older end.

(** [{ ...a, ...p }] for a stored record [a]. *)
Definition assign (a : Application) (p : ApplicationPatch) : Application :=
  {| app_id := over (p_id p) (app_id a);
     app_userId := over (p_userId p) (app_userId a);
     app_company := over (p_company p) (app_company a);
     app_position := over (p_position p) (app_position a);
     app_location := over_opt (p_location p) (app_location a);
     app_salaryMin := over_opt (p_salaryMin p) (app_salaryMin a);
     app_salaryMax := over_opt (p_salaryMax p) (app_salaryMax a);
     app_status := over (p_status p) (app_status a);
     app_applicationDate := over_opt (p_applicationDate p) (app_applicationDate a);
     app_deadline := over_opt (p_deadline p) (app_deadline a);
     app_followUpDate := over_opt (p_followUpDate p) (app_followUpDate a);
     app_url := over_opt (p_url p) (app_url a);
     app_notes := over_opt (p_notes p) (app_notes a);
     app_createdAt := over (p_createdAt p) (app_createdAt a);
     app_updatedAt := over (p_updatedAt p) (app_updatedAt a);
     app_lastSyncedAt := over (p_lastSyncedAt p) (app_lastSyncedAt a);
     app_version := over (p_version p) (app_version a) |}.

(** [{ ...p, ...q }] for two partial objects. *)
Definition spread (p q : ApplicationPatch) : ApplicationPatch :=
  {| p_id := over_opt (p_id q) (p_id p);
     p_userId := over_opt (p_userId q) (p_userId p);
     p_company := over_opt (p_company q) (p_company p);
     p_position := over_opt (p_position q) (p_position p);
     p_location := over_opt (p_location q) (p_location p);
     p_salaryMin := over_opt (p_salaryMin q) (p_salaryMin p);
     p_salaryMax := over_opt (p_salaryMax q) (p_salaryMax p);
     p_status := over_opt (p_status q) (p_status p);
     p_applicationDate := over_opt (p_applicationDate q) (p_applicationDate p);
     p_deadline := over_opt (p_deadline q) (p_deadline p);
     p_followUpDate := over_opt (p_followUpDate q) (p_followUpDate p);
     p_url := over_opt (p_url q) (p_url p);
     p_notes := over_opt (p_notes q) (p_notes p);
     p_createdAt := over_opt (p_createdAt q) (p_createdAt p);
     p_updatedAt := over_opt (p_updatedAt q) (p_updatedAt p);
     p_lastSyncedAt := over_opt (p_lastSyncedAt q) (p_lastSyncedAt p);
     p_version := over_opt (p_version q) (p_version p) |}.

Inductive SyncOperationType := CREATE | UPDATE | DELETE.
Inductive SyncEntityType := application | contact | document.

Record SyncOperation := mkOp {
  op_id : string;
  op_type : SyncOperationType;
  op_entity : SyncEntityType;
  op_entityId : string;
  op_data : ApplicationPatch;      (* [data: any]: the record snapshot, or [{ id }] *)
  op_timestamp : Z;
  op_synced : bool;
  op_retryCount : nat;
  op_error : option string }.

(** The four Dexie tables.  Rows of [applications], [contacts] and
    [documents] are reached by primary key only.  [syncQueue] is kept as
    the list of its rows: rows are reached by their key ([queue_get],
    [queue_update]), and the place of a row in the list stands for nothing
    in the store, whose keys are random UUIDs.  [quota] is the number of new
    rows the browser storage still accepts: a write that needs a new row
    when it is [0] fails with [QuotaExceededError]. *)
Record JobTrackerDB := mkDB {
  applications : gmap string Application;
  contacts : gmap string Contact;
  documents : gmap string Document;
  syncQueue : list SyncOperation;
  quota : nat }.

(** Outcome of an awaited call: a value, or the message of the thrown error. *)
Inductive Result (A : Type) :=
  | Ok (a : A)
  | Err (msg : string).
Arguments Ok {A} a.
Arguments Err {A} msg.

Definition bind {A B} (r : Result A) (k : A -> Result B) : Result B :=
  match r with Ok a => k a | Err m => Err m end.

Notation "'await!' x ':=' r 'in' k" := (bind r (fun x => k))
  (at level 10, x name, r at level 100, k at level 200).

(** ** Table primitives (Dexie [Table.add], [put], [update], [delete], [get]) *)

(** [table.add(row)]: a new row; an existing key is a [ConstraintError]. *)
Definition table_add {V} (k : string) (v : V) (q : nat) (t : gmap string V)
  : Result (gmap string V * nat) :=
  match t !! k with
  | Some _ => Err "ConstraintError"
  | None => match q with
            | O => Err "QuotaExceededError"
            | S q' => Ok (<[k:=v]> t, q')
            end
  end.

(** [table.put(row)]: insert or replace. *)
Definition table_put {V} (k : string) (v : V) (q : nat) (t : gmap string V)
  : Result (gmap string V * nat) :=
  match t !! k with
  | Some _ => Ok (<[k:=v]> t, q)
  | None => match q with
            | O => Err "QuotaExceededError"
            | S q' => Ok (<[k:=v]> t, q')
            end
  end.

(** [syncQueue.get(id)] *)
Definition queue_get (id : string) (q : list SyncOperation) : option SyncOperation :=
  List.find (fun op => String.eqb (op_id op) id) q.

(** [syncQueue.update(id, changes)]: rewrites the row with that key, if any. *)
Definition queue_update (id : string) (f : SyncOperation -> SyncOperation)
  (q : list SyncOperation) : list SyncOperation :=
  List.map (fun op => if String.eqb (op_id op) id then f op else op) q.

Definition set_synced (op : SyncOperation) : SyncOperation :=
  {| op_id := op_id op; op_type := op_type op; op_entity := op_entity op;
     op_entityId := op_entityId op; op_data := op_data op;
     op_timestamp := op_timestamp op; op_synced := true;
     op_retryCount := op_retryCount op; op_error := op_error op |}.

Definition set_retry (n : nat) (e : string) (op : SyncOperation) : SyncOperation :=
  {| op_id := op_id op; op_type := op_type op; op_entity := op_entity op;
     op_entityId := op_entityId op; op_data := op_data op;
     op_timestamp := op_timestamp op; op_synced := op_synced op;
     op_retryCount := n; op_error := Some e |}.

Definition with_queue (db : JobTrackerDB) (q : list SyncOperation) (n : nat) : JobTrackerDB :=
  {| applications := applications db; contacts := contacts db;
     documents := documents db; syncQueue := q; quota := n |}.

Definition with_applications (db : JobTrackerDB) (t : gmap string Application) (n : nat)
  : JobTrackerDB :=
  {| applications := t; contacts := contacts db;
     documents := documents db; syncQueue := syncQueue db; quota := n |}.

Definition with_contacts (db : JobTrackerDB) (t : gmap string Contact) (n : nat)
  : JobTrackerDB :=
  {| applications := applications db; contacts := t;
     documents := documents db; syncQueue := syncQueue db; quota := n |}.

Definition with_documents (db : JobTrackerDB) (t : gmap string Document) (n : nat)
  : JobTrackerDB :=
  {| applications := applications db; contacts := contacts db;
     documents := t; syncQueue := syncQueue db; quota := n |}.

(** [db.applications.put(a)] and its siblings. *)
Definition put_application (a : Application) (db : JobTrackerDB) : Result JobTrackerDB :=
  await! r := table_put (app_id a) a (quota db) (applications db) in
  Ok (with_applications db (fst r) (snd r)).

Definition put_contact (c : Contact) (db : JobTrackerDB) : Result JobTrackerDB :=
  await! r := table_put (contact_id c) c (quota db) (contacts db) in
  Ok (with_contacts db (fst r) (snd r)).

Definition put_document (d : Document) (db : JobTrackerDB) : Result JobTrackerDB :=
  await! r := table_put (doc_id d) d (quota db) (documents db) in
  Ok (with_documents db (fst r) (snd r)).

(** [db.applications.add(a)] *)
Definition add_application (a : Application) (db : JobTrackerDB) : Result JobTrackerDB :=
  await! r := table_add (app_id a) a (quota db) (applications db) in
  Ok (with_applications db (fst r) (snd r)).

(** [db.applications.update(id, changes)]: no row with that key changes
    nothing and is not an error.  The changed row is kept under [id]; the
    callers in this repository pass no other id in [changes]. *)
Definition update_application (id : string) (changes : ApplicationPatch)
  (db : JobTrackerDB) : JobTrackerDB :=
  match applications db !! id with
  | Some a => with_applications db (<[id := assign a changes]> (applications db)) (quota db)
  | None => db
  end.

(** [db.applications.delete(id)] gives the row's space back. *)
Definition delete_application (id : string) (db : JobTrackerDB) : JobTrackerDB :=
  match applications db !! id with
  | Some _ => with_applications db (delete id (applications db)) (S (quota db))
  | None => db
  end.

(** ** dbHelpers *)

(** What an indexed property of a stored row holds. *)
Inductive IndexedValue :=
  | VBoolean (b : bool)
  | VNumber (n : Z)
  | VString (s : string).

(** The key under which an index enters a row whose property holds [v].
    Numbers and strings are keys of IndexedDB (so are dates, binary data
    and arrays of keys, which this program does not index); a boolean is
    not, and a row whose property is not a key has no entry in the index. *)
Definition index_key (v : IndexedValue) : option IndexedValue :=
  match v with
  | VBoolean _ => None
  | VNumber _ | VString _ => Some v
  end.

(** [where(index).equals(key)] on one row. *)
Definition index_equals (key v : IndexedValue) : bool :=
  match index_key v, key with
  | Some (VNumber n), VNumber k => (n =? k)%Z
  | Some (VString s), VString k => String.eqb s k
  | _, _ => false
  end.

(** [getUnsyncedOperations]: [where("synced").equals(0)].  [synced] is
    written as the boolean [false] ([addToSyncQueue]) or [true]
    ([markOperationSynced]). *)
Definition getUnsyncedOperations (db : JobTrackerDB) : list SyncOperation :=
  List.filter (fun op => index_equals (VNumber 0) (VBoolean (op_synced op)))
              (syncQueue db).

(** [markOperationSynced] *)
Definition markOperationSynced (operationId : string) (db : JobTrackerDB) : JobTrackerDB :=
  with_queue db (queue_update operationId set_synced (syncQueue db)) (quota db).

(** [addToSyncQueue]: [id] is the fresh [crypto.randomUUID()], [now] is
    [Date.now()].  The new row is written at the end of the list, a place
    that stands for nothing in the store. *)
Definition addToSyncQueue (id : string) (now : Z)
  (type : SyncOperationType) (entity : SyncEntityType) (entityId : string)
  (data : ApplicationPatch) (db : JobTrackerDB) : Result JobTrackerDB :=
  match queue_get id (syncQueue db) with
  | Some _ => Err "ConstraintError"
  | None =>
      match quota db with
      | O => Err "QuotaExceededError"
      | S n =>
          Ok (with_queue db
                (syncQueue db ++
                 [ {| op_id := id; op_type := type; op_entity := entity;
                      op_entityId := entityId; op_data := data;
                      op_timestamp := now; op_synced := false;
                      op_retryCount := 0; op_error := None |} ])
                n)
      end
  end.

(** [incrementRetryCount]: reads the stored row and adds one to its count. *)
Definition incrementRetryCount (operationId : string) (error : string)
  (db : JobTrackerDB) : JobTrackerDB :=
  match queue_get operationId (syncQueue db) with
  | Some operation =>
      with_queue db
        (queue_update operationId
           (set_retry (op_retryCount operation + 1) error) (syncQueue db))
        (quota db)
  | None => db
  end.

End Db.

(* ===================================================================== *)
(** * lib/sync/sync-engine.ts *)
(* ===================================================================== *)

Module Engine.
Import Db.

Definition MAX_BATCH_SIZE : nat := 50.
Definition MAX_RETRY_COUNT : nat := 5.
Definition RETRY_DELAYS : list Z := [1000; 2000; 4000; 8000; 16000]%Z.

(** [items.slice(i, j)] for [0 <= i <= j]. *)
Definition slice {T} (i j : nat) (items : list T) : list T :=
  firstn (j - i) (skipn i items).

(** [createBatches]: the loop [for (i = 0; i < items.length; i += batchSize)],
    from index [i] on, with a step of [S b].  With a [batchSize] of [0] the
    source loop does not end; the engine's only call passes
    [MAX_BATCH_SIZE], and no statement below is about that case. *)
Equations? batches_from {T} (items : list T) (b : nat) (i : nat) : list (list T)
  by wf (length items - i) lt :=
  batches_from items b i with lt_dec i (length items) => {
    | left _ => slice i (i + S b) items :: batches_from items b (i + S b)
    | right _ => []
  }.
Proof. lia. Qed.

Definition createBatches {T} (items : list T) (batchSize : nat) : list (list T) :=
  match batchSize with
  | O => []
  | S b => batches_from items b 0
  end.

Inductive SyncStatus := idle | syncing | error | success.

Record SyncState := mkState {
  status : SyncStatus;
  progress : nat;
  total : nat;
  state_error : option string }.

(** A settled [Promise<void>]. *)
Inductive Outcome :=
  | Fulfilled
  | Rejected (msg : string).

(** The row type behind [serverData: any], by the entity of the operation
    that was sent. *)
Definition RowOf (e : SyncEntityType) : Type :=
  match e with
  | application => Application
  | contact => Contact
  | document => Document
  end.

Definition row_updatedAt {e : SyncEntityType} : RowOf e -> Z :=
  match e with
  | application => app_updatedAt
  | contact => contact_updatedAt
  | document => doc_updatedAt
  end.

(** What [await fetch("/api/sync", ...)] followed by [response.json()]
    gives the client. *)
Inductive FetchResult (e : SyncEntityType) :=
  | NetworkError (msg : string)            (* [fetch] rejects *)
  | HttpError (statusText : string)        (* [!response.ok] *)
  | HttpOk (conflict : bool) (serverData : option (RowOf e)).
Arguments NetworkError {e} msg.
Arguments HttpError {e} statusText.
Arguments HttpOk {e} conflict serverData.

(** Query string of [fetch(`/api/sync/pull?userId=${userId}`)]. *)
Record PullRequest := mkPullRequest {
  pr_userId : string;
  pr_lastSyncedAt : option Z }.

(** Body of the pull response as the client reads it ([timestamp] is sent
    by the server and never read). *)
Record PullData := mkPullData {
  pd_applications : option (list Application);
  pd_contacts : option (list Contact);
  pd_documents : option (list Document);
  pd_timestamp : Z }.

Inductive PullResponse :=
  | PullNetworkError (msg : string)
  | PullHttpError (statusText : string)
  | PullOk (data : PullData).

(** Everything the engine does not decide itself. *)
Record Env := mkEnv {
  read_error : option string;              (* the error of the queue read of [sync], if it throws *)
  fetch : forall op : SyncOperation, FetchResult (op_entity op);
  clock : SyncOperation -> Z;              (* [new Date()] while resolving that operation *)
  latency : SyncOperation -> nat;          (* how long the response to that operation takes *)
  pull_fetch : PullRequest -> PullResponse;
  pull_clock : Z }.

(** Requests that left together are answered in the order of their
    latencies. *)
Definition answered_before (env : Env) (a b : SyncOperation) : Prop :=
  latency env a <= latency env b.

Global Instance answered_before_dec env : RelDecision (answered_before env).
Proof. intros a b. unfold answered_before. apply _. Defined.

Definition settle_order (env : Env) (operations : list SyncOperation)
  : list SyncOperation :=
  merge_sort (answered_before env) operations.

(** What the outside can see of a run, in order. *)
Inductive Event :=
  | EvFetch (op : SyncOperation)                 (* the request for [op] leaves *)
  | EvSettled (op : SyncOperation) (o : Outcome) (* [processOperation(op)] settles *)
  | EvNotify (s : SyncState)
  | EvTimer (delay : Z).                         (* [setTimeout(..., delay)] *)

Record World := mkWorld {
  db : JobTrackerDB;
  isOnline : bool;
  isSyncing : bool;
  log : list Event }.

Definition with_db (w : World) (d : JobTrackerDB) : World :=
  {| db := d; isOnline := isOnline w; isSyncing := isSyncing w; log := log w |}.

Definition set_isSyncing (b : bool) (w : World) : World :=
  {| db := db w; isOnline := isOnline w; isSyncing := b; log := log w |}.

Definition set_isOnline (b : bool) (w : World) : World :=
  {| db := db w; isOnline := b; isSyncing := isSyncing w; log := log w |}.

Definition emit (e : Event) (w : World) : World :=
  {| db := db w; isOnline := isOnline w; isSyncing := isSyncing w;
     log := log w ++ [e] |}.

Definition notifyListeners (s : SyncState) (w : World) : World :=
  emit (EvNotify s) w.

(** [{ ...serverData, lastSyncedAt: new Date() }] *)
Definition stamp (now : Z) (a : Application) : Application :=
  assign a {| p_id := None; p_userId := None; p_company := None;
              p_position := None; p_location := None; p_salaryMin := None;
              p_salaryMax := None; p_status := None; p_applicationDate := None;
              p_deadline := None; p_followUpDate := None; p_url := None;
              p_notes := None; p_createdAt := None; p_updatedAt := None;
              p_lastSyncedAt := Some now; p_version := None |}.

(** The [switch (localOperation.entity)] of [resolveConflict]. *)
Definition put_serverData (now : Z) (e : SyncEntityType)
  : RowOf e -> JobTrackerDB -> Result JobTrackerDB :=
  match e with
  | application => fun serverData => put_application (stamp now serverData)
  | contact => fun serverData => put_contact serverData
  | document => fun serverData => put_document serverData
  end.

(** [resolveConflict]: last write wins on timestamps. *)
Definition resolveConflict (now : Z) (localOperation : SyncOperation)
  (serverData : RowOf (op_entity localOperation)) (d : JobTrackerDB)
  : Result JobTrackerDB :=
  let serverTimestamp := row_updatedAt serverData in
  let localTimestamp := op_timestamp localOperation in
  if (localTimestamp <? serverTimestamp)%Z
  then put_serverData now (op_entity localOperation) serverData d
  else Ok d.

(** [RETRY_DELAYS[Math.min(operation.retryCount, RETRY_DELAYS.length - 1)]] *)
Definition retry_delay (retryCount : nat) : Z :=
  nth (Nat.min retryCount (length RETRY_DELAYS - 1)) RETRY_DELAYS 0%Z.

(** The [catch] block of [processOperation]. *)
Definition on_failure (operation : SyncOperation) (errorMessage : string)
  (w : World) : World * Outcome :=
  let delay := retry_delay (op_retryCount operation) in
  let w1 := with_db w (incrementRetryCount (op_id operation) errorMessage (db w)) in
  let w2 := if op_retryCount operation + 1 <? MAX_RETRY_COUNT
            then emit (EvTimer delay) w1 else w1 in
  (w2, Rejected errorMessage).

(** [processOperation] from the point where [await fetch] returns. *)
Definition settle (env : Env) (operation : SyncOperation) (w : World)
  : World * Outcome :=
  match fetch env operation with
  | NetworkError msg => on_failure operation msg w
  | HttpError statusText =>
      on_failure operation ("Sync failed: " +:+ statusText) w
  | HttpOk conflict serverData =>
      if conflict then
        match serverData with
        | None =>
            (* [serverData.updatedAt] on [undefined] *)
            on_failure operation "TypeError" w
        | Some sd =>
            match resolveConflict (clock env operation) operation sd (db w) with
            | Err msg => on_failure operation msg w
            | Ok d =>
                (with_db w (markOperationSynced (op_id operation) d), Fulfilled)
            end
        end
      else (with_db w (markOperationSynced (op_id operation) (db w)), Fulfilled)
  end.

Definition settled (env : Env) (w : World) (operation : SyncOperation) : World :=
  let r := settle env operation w in
  emit (EvSettled operation (snd r)) (fst r).

(** [processOperation(operation)] run on its own. *)
Definition processOperation (env : Env) (operation : SyncOperation) (w : World)
  : World * Outcome :=
  let r := settle env operation (emit (EvFetch operation) w) in
  (emit (EvSettled operation (snd r)) (fst r), snd r).

(** [processBatch]: [operations.map(...)] starts every [processOperation],
    each running up to its [await fetch], before any of them continues;
    [Promise.allSettled] then waits for all of them, in whatever order the
    responses arrive. *)
Definition processBatch (env : Env) (operations : list SyncOperation) (w : World)
  : World :=
  let started := fold_left (fun w op => emit (EvFetch op) w) operations w in
  fold_left (settled env) (settle_order env operations) started.

(** The body of the [for (const batch of batches)] loop. *)
Definition batch_step (env : Env) (n : nat) (acc : World * nat)
  (batch : list SyncOperation) : World * nat :=
  let w := processBatch env batch (fst acc) in
  let completed := snd acc + length batch in
  (notifyListeners (mkState syncing completed n None) w, completed).

(** The [try] block of [sync] from the point where the queue read has
    returned [operations], together with the [finally]. *)
Definition pass (env : Env) (operations : list SyncOperation) (w : World) : World :=
  let validOperations :=
    List.filter (fun op => op_retryCount op <? MAX_RETRY_COUNT) operations in
  if length validOperations =? 0 then
    set_isSyncing false (notifyListeners (mkState success 0 0 None) w)
  else
    let batches := createBatches validOperations MAX_BATCH_SIZE in
    let n := length validOperations in
    let r := fold_left (batch_step env n) batches (w, 0) in
    set_isSyncing false (notifyListeners (mkState success n n None) (fst r)).

(** [sync].  [Promise.allSettled] swallows what [processOperation] throws,
    so the [catch] block is entered only when the queue read throws. *)
Definition sync (env : Env) (w : World) : World * Outcome :=
  if negb (isOnline w) || isSyncing w then (w, Fulfilled)
  else
    let w := notifyListeners (mkState syncing 0 0 None) (set_isSyncing true w) in
    match read_error env with
    | Some errorMessage =>
        (set_isSyncing false
           (notifyListeners (mkState error 0 0 (Some errorMessage)) w),
         Rejected errorMessage)
    | None => (pass env (getUnsyncedOperations (db w)) w, Fulfilled)
    end.

(** The body of [db.transaction("rw", [applications, contacts, documents], ...)]
    in [pullFromServer]. *)
Definition put_all {A} (put : A -> JobTrackerDB -> Result JobTrackerDB)
  (rows : option (list A)) (d : JobTrackerDB) : Result JobTrackerDB :=
  match rows with
  | None => Ok d
  | Some l => fold_left (fun r x => bind r (put x)) l (Ok d)
  end.

Definition pull_body (now : Z) (data : PullData) (d : JobTrackerDB)
  : Result JobTrackerDB :=
  await! d1 := put_all (fun app => put_application (stamp now app))
                       (pd_applications data) d in
  await! d2 := put_all put_contact (pd_contacts data) d1 in
  put_all put_document (pd_documents data) d2.

(** [db.transaction]: the body's writes are kept only if it returns. *)
Definition transaction (body : JobTrackerDB -> Result JobTrackerDB) (w : World)
  : World * Outcome :=
  match body (db w) with
  | Ok d => (with_db w d, Fulfilled)
  | Err msg => (w, Rejected msg)
  end.

(** [pullFromServer] *)
Definition pullFromServer (env : Env) (userId : string) (w : World)
  : World * Outcome :=
  if negb (isOnline w) then (w, Rejected "Cannot pull from server while offline")
  else
    match pull_fetch env (mkPullRequest userId None) with
    | PullNetworkError msg => (w, Rejected msg)
    | PullHttpError statusText => (w, Rejected ("Pull failed: " +:+ statusText))
    | PullOk data => transaction (pull_body (pull_clock env) data) w
    end.

End Engine.

(* ===================================================================== *)
(** * The API routes: app/api/sync, app/api/sync/pull, app/api/applications/[id] *)
(* ===================================================================== *)

Module Server.
Import Db.

(** A row of the server-side [syncQueue] audit table. *)
Record SyncLogRow := mkLogRow {
  log_userId : string;
  log_operation : SyncOperationType;
  log_entity : SyncEntityType;
  log_entityId : string;
  log_data : ApplicationPatch;
  log_synced : bool }.

Record ServerDB := mkServerDB {
  s_applications : gmap string Application;
  s_contacts : gmap string Contact;
  s_documents : gmap string Document;
  s_syncQueue : list SyncLogRow }.

Definition with_s_applications (s : ServerDB) (t : gmap string Application) : ServerDB :=
  {| s_applications := t; s_contacts := s_contacts s;
     s_documents := s_documents s; s_syncQueue := s_syncQueue s |}.

(** A body accepted by [syncOperationSchema]. *)
Record SyncRequest := mkRequest {
  rq_operation : SyncOperationType;
  rq_entity : SyncEntityType;
  rq_entityId : string;
  rq_data : ApplicationPatch;
  rq_timestamp : Z }.

(** The [result] variable of the sync route. *)
Inductive ResultValue :=
  | RNull
  | RRow (a : Application)
  | RDeleted (id : string).

Record SyncBody := mkSyncBody {
  sb_success : bool;
  sb_conflict : bool;
  sb_serverData : option Application;
  sb_result : ResultValue }.

Record PullBody := mkPullBody {
  pb_applications : list Application;
  pb_contacts : list Contact;
  pb_documents : list Document;
  pb_timestamp : Z }.

(** A [NextResponse.json]: a body with status 200, or an error status. *)
Inductive Response (A : Type) :=
  | Reply (body : A)
  | Failure (status : nat) (error : string).
Arguments Reply {A} body.
Arguments Failure {A} status error.

Definition set_field_updatedAt (now : Z) (a : Application) : Application :=
  assign a {| p_id := None; p_userId := None; p_company := None;
              p_position := None; p_location := None; p_salaryMin := None;
              p_salaryMax := None; p_status := None; p_applicationDate := None;
              p_deadline := None; p_followUpDate := None; p_url := None;
              p_notes := None; p_createdAt := None; p_updatedAt := Some now;
              p_lastSyncedAt := None; p_version := None |}.

(** Modelled from the spec: [prisma/schema.prisma] is not among the sources.
    [prisma.application.update({ where: { id }, data })] overlays [data] on
    the stored row; following the spec's "[updatedAt = now]" the column is
    set to the current time unless [data] names a value of its own.  A
    [data] that renames the row moves it, and fails on a taken id. *)
Definition prisma_update (now : Z) (id : string) (data : ApplicationPatch)
  (t : gmap string Application) : Result (gmap string Application * Application) :=
  match t !! id with
  | None => Err "RecordNotFound"
  | Some existing =>
      let row := assign (set_field_updatedAt now existing) data in
      if String.eqb (app_id row) id then Ok (<[id := row]> t, row)
      else match t !! app_id row with
           | Some _ => Err "UniqueConstraint"
           | None => Ok (<[app_id row := row]> (delete id t), row)
           end
  end.

(** Modelled from the spec: [prisma/schema.prisma] is not among the sources.
    [prisma.application.create({ data })] needs the columns the
    [Application] interface requires; the timestamps default to the current
    time and, as the spec's "insert with [version = 1]" says, the version
    to [1]. *)
Definition prisma_create (now : Z) (data : ApplicationPatch)
  (t : gmap string Application) : Result (gmap string Application * Application) :=
  match p_id data, p_userId data, p_company data, p_position data, p_status data with
  | Some i, Some u, Some c, Some po, Some st =>
      let row :=
        {| app_id := i; app_userId := u; app_company := c; app_position := po;
           app_location := p_location data; app_salaryMin := p_salaryMin data;
           app_salaryMax := p_salaryMax data; app_status := st;
           app_applicationDate := p_applicationDate data;
           app_deadline := p_deadline data;
           app_followUpDate := p_followUpDate data;
           app_url := p_url data; app_notes := p_notes data;
           app_createdAt := over (p_createdAt data) now;
           app_updatedAt := over (p_updatedAt data) now;
           app_lastSyncedAt := over (p_lastSyncedAt data) now;
           app_version := over (p_version data) 1%Z |} in
      match t !! i with
      | Some _ => Err "UniqueConstraint"
      | None => Ok (<[i := row]> t, row)
      end
  | _, _, _, _, _ => Err "ValidationError"
  end.

(** [{ userId: session.user.id, lastSyncedAt: new Date() }], with [id] for a create. *)
Definition owner_fields (id : option string) (user : string) (now : Z) : ApplicationPatch :=
  {| p_id := id; p_userId := Some user; p_company := None;
     p_position := None; p_location := None; p_salaryMin := None;
     p_salaryMax := None; p_status := None; p_applicationDate := None;
     p_deadline := None; p_followUpDate := None; p_url := None;
     p_notes := None; p_createdAt := None; p_updatedAt := None;
     p_lastSyncedAt := Some now; p_version := None |}.

(** [{ lastSyncedAt: new Date(), version: existing.version + 1 }] *)
Definition bump_fields (now : Z) (existing : Application) : ApplicationPatch :=
  {| p_id := None; p_userId := None; p_company := None;
     p_position := None; p_location := None; p_salaryMin := None;
     p_salaryMax := None; p_status := None; p_applicationDate := None;
     p_deadline := None; p_followUpDate := None; p_url := None;
     p_notes := None; p_createdAt := None; p_updatedAt := None;
     p_lastSyncedAt := Some now;
     p_version := Some (app_version existing + 1)%Z |}.

(** What the [if (entity === "application")] block leaves behind: the new
    table with [conflict] and [result], an early response, or an exception. *)
Inductive Branch :=
  | Done (t : gmap string Application) (conflict : bool) (result : ResultValue)
  | Early (status : nat) (error : string)
  | Thrown.

Definition of_write (r : Result (gmap string Application * Application)) : Branch :=
  match r with
  | Ok (t, row) => Done t false (RRow row)
  | Err _ => Thrown
  end.

Definition application_branch (user : string) (now : Z) (rq : SyncRequest)
  (t : gmap string Application) : Branch :=
  let entityId := rq_entityId rq in
  let data := rq_data rq in
  let timestamp := rq_timestamp rq in
  match rq_operation rq with
  | CREATE =>
      match t !! entityId with
      | Some existing =>
          let serverTimestamp := app_updatedAt existing in
          if (timestamp <? serverTimestamp)%Z then Done t true (RRow existing)
          else of_write (prisma_update now entityId
                           (spread data (owner_fields None user now)) t)
      | None =>
          of_write (prisma_create now
                      (spread data (owner_fields (Some entityId) user now)) t)
      end
  | UPDATE =>
      match t !! entityId with
      | None => Early 404 "Application not found"
      | Some existing =>
          if negb (String.eqb (app_userId existing) user) then Early 403 "Forbidden"
          else
            let serverTimestamp := app_updatedAt existing in
            if (timestamp <? serverTimestamp)%Z then Done t true (RRow existing)
            else of_write (prisma_update now entityId
                             (spread data (bump_fields now existing)) t)
      end
  | DELETE =>
      match t !! entityId with
      | Some existing =>
          if String.eqb (app_userId existing) user
          then Done (delete entityId t) false (RDeleted entityId)
          else Done t false RNull
      | None => Done t false RNull
      end
  end.

(** [POST /api/sync] for a request whose body is JSON, on a database that
    stores the audit row.  [session] is [session?.user?.id]; [body] is
    [None] when [syncOperationSchema.parse] throws.  The handler with its
    other two ways to fail, a body that is not JSON and an audit write that
    throws, is [Route.POST]. *)
Definition POST (session : option string) (body : option SyncRequest) (now : Z)
  (s : ServerDB) : ServerDB * Response SyncBody :=
  match session with
  | None => (s, Failure 401 "Unauthorized")
  | Some user =>
      match body with
      | None => (s, Failure 400 "Invalid input")
      | Some rq =>
          let br := match rq_entity rq with
                    | application => application_branch user now rq (s_applications s)
                    | _ => Done (s_applications s) false RNull
                    end in
          match br with
          | Early status e => (s, Failure status e)
          | Thrown => (s, Failure 500 "Internal server error")
          | Done t conflict result =>
              let logged :=
                {| s_applications := t; s_contacts := s_contacts s;
                   s_documents := s_documents s;
                   s_syncQueue := s_syncQueue s ++
                     [ {| log_userId := user; log_operation := rq_operation rq;
                          log_entity := rq_entity rq;
                          log_entityId := rq_entityId rq;
                          log_data := rq_data rq; log_synced := true |} ] |} in
              (logged,
               Reply {| sb_success := true; sb_conflict := conflict;
                        sb_serverData :=
                          if conflict then
                            match result with RRow a => Some a | _ => None end
                          else None;
                        sb_result := result |})
          end
      end
  end.

(** [updateApplicationSchema.parse]: keeps the eleven form fields, refuses
    an empty [company] or [position]. *)
Definition nonempty (o : option string) : bool :=
  match o with Some s => negb (String.eqb s "") | None => true end.

Definition updateApplicationSchema (body : ApplicationPatch) : option ApplicationPatch :=
  if nonempty (p_company body) && nonempty (p_position body) then
    Some {| p_id := None; p_userId := None; p_company := p_company body;
            p_position := p_position body; p_location := p_location body;
            p_salaryMin := p_salaryMin body; p_salaryMax := p_salaryMax body;
            p_status := p_status body;
            p_applicationDate := p_applicationDate body;
            p_deadline := p_deadline body;
            p_followUpDate := p_followUpDate body;
            p_url := p_url body; p_notes := p_notes body;
            p_createdAt := None; p_updatedAt := None;
            p_lastSyncedAt := None; p_version := None |}
  else None.

Definition only_version (v : Z) : ApplicationPatch :=
  {| p_id := None; p_userId := None; p_company := None;
     p_position := None; p_location := None; p_salaryMin := None;
     p_salaryMax := None; p_status := None; p_applicationDate := None;
     p_deadline := None; p_followUpDate := None; p_url := None;
     p_notes := None; p_createdAt := None; p_updatedAt := None;
     p_lastSyncedAt := None; p_version := Some v |}.

(** [PATCH /api/applications/[id]] *)
Definition PATCH (session : option string) (id : string) (body : ApplicationPatch)
  (now : Z) (s : ServerDB) : ServerDB * Response Application :=
  match session with
  | None => (s, Failure 401 "Unauthorized")
  | Some user =>
      match updateApplicationSchema body with
      | None => (s, Failure 400 "Invalid input")
      | Some data =>
          match s_applications s !! id with
          | None => (s, Failure 404 "Application not found")
          | Some existing =>
              if negb (String.eqb (app_userId existing) user)
              then (s, Failure 404 "Application not found")
              else
                match prisma_update now id
                        (spread data (only_version (app_version existing + 1)))
                        (s_applications s) with
                | Ok (t, row) => (with_s_applications s t, Reply row)
                | Err _ => (s, Failure 500 "Internal server error")
                end
          end
      end
  end.

(** [orderBy: { updatedAt: "desc" }] *)
Definition newer_first (a b : Application) : Prop :=
  (app_updatedAt b <= app_updatedAt a)%Z.

Global Instance newer_first_dec : RelDecision newer_first.
Proof. intros a b. unfold newer_first. apply _. Defined.

Definition rows {V} (t : gmap string V) : list V := (map_to_list t).*2.

(** The [where] of the pull route: the caller's rows, and with a
    [lastSyncedAt] only those updated after it. *)
Definition pull_where (user : string) (lastSyncedAt : option Z) (a : Application) : bool :=
  String.eqb (app_userId a) user &&
  match lastSyncedAt with
  | Some since => (since <? app_updatedAt a)%Z
  | None => true
  end.

(** [where: { application: { userId } }] for contacts and documents. *)
Definition owned_by (user : string) (t : gmap string Application) (applicationId : string) : bool :=
  match t !! applicationId with
  | Some a => String.eqb (app_userId a) user
  | None => false
  end.

(** [GET /api/sync/pull] *)
Definition pull_GET (session : option string) (lastSyncedAt : option Z) (now : Z)
  (s : ServerDB) : Response PullBody :=
  match session with
  | None => Failure 401 "Unauthorized"
  | Some user =>
      Reply {| pb_applications :=
                 merge_sort newer_first
                   (List.filter (pull_where user lastSyncedAt) (rows (s_applications s)));
               pb_contacts :=
                 List.filter
                   (fun c => owned_by user (s_applications s) (contact_applicationId c))
                   (rows (s_contacts s));
               pb_documents :=
                 List.filter
                   (fun d => owned_by user (s_applications s) (doc_applicationId d))
                   (rows (s_documents s));
               pb_timestamp := now |}
  end.

End Server.

(* ===================================================================== *)
(** * lib/stores/application-store.ts, lib/stores/sync-store.ts and the hooks *)
(* ===================================================================== *)

Module Store.
Import Db Engine.

(** [Omit<Application, "id" | "createdAt" | "updatedAt" | "lastSyncedAt" | "version">] *)
Record ApplicationData := mkData {
  ad_userId : string;
  ad_company : string;
  ad_position : string;
  ad_location : option string;
  ad_salaryMin : option Z;
  ad_salaryMax : option Z;
  ad_status : ApplicationStatus;
  ad_applicationDate : option Z;
  ad_deadline : option Z;
  ad_followUpDate : option Z;
  ad_url : option string;
  ad_notes : option string }.

(** The clock and the identifiers one store action draws:
    [new Date()], [Date.now()] inside [addToSyncQueue], and the
    [crypto.randomUUID()] of the record and of the queued operation. *)
Record Draw := mkDraw {
  now : Z;
  queuedAt : Z;
  recordId : string;
  operationId : string }.

(** [x || d] on a number that may be missing: [undefined] and [0] are falsy. *)
Definition or_default (x : option Z) (d : Z) : Z :=
  match x with
  | Some v => if (v =? 0)%Z then d else v
  | None => d
  end.

(** Each action is the database it leaves and what its promise settles
    to; the state the store keeps beside the database ([applications],
    [selectedApplication], [isLoading], [error]) is in [Mirror]. *)

(** [addApplication] *)
Definition addApplication (dr : Draw) (applicationData : ApplicationData)
  (d : JobTrackerDB) : JobTrackerDB * Result Application :=
  let application :=
    {| app_id := recordId dr;
       app_userId := ad_userId applicationData;
       app_company := ad_company applicationData;
       app_position := ad_position applicationData;
       app_location := ad_location applicationData;
       app_salaryMin := ad_salaryMin applicationData;
       app_salaryMax := ad_salaryMax applicationData;
       app_status := ad_status applicationData;
       app_applicationDate := ad_applicationDate applicationData;
       app_deadline := ad_deadline applicationData;
       app_followUpDate := ad_followUpDate applicationData;
       app_url := ad_url applicationData;
       app_notes := ad_notes applicationData;
       app_createdAt := now dr;
       app_updatedAt := now dr;
       app_lastSyncedAt := now dr;
       app_version := 1 |} in
  match add_application application d with
  | Err msg => (d, Err msg)
  | Ok d1 =>
      match addToSyncQueue (operationId dr) (queuedAt dr) CREATE Db.application
              (app_id application) (to_patch application) d1 with
      | Err msg => (d1, Err msg)
      | Ok d2 => (d2, Ok application)
      end
  end.

(** [{ updatedAt: now, version: (updates.version || 1) + 1 }] *)
Definition update_fields (now : Z) (updates : ApplicationPatch) : ApplicationPatch :=
  {| p_id := None; p_userId := None; p_company := None;
     p_position := None; p_location := None; p_salaryMin := None;
     p_salaryMax := None; p_status := None; p_applicationDate := None;
     p_deadline := None; p_followUpDate := None; p_url := None;
     p_notes := None; p_createdAt := None; p_updatedAt := Some now;
     p_lastSyncedAt := None;
     p_version := Some (or_default (p_version updates) 1 + 1)%Z |}.

(** [updateApplication] *)
Definition updateApplication (dr : Draw) (id : string) (updates : ApplicationPatch)
  (d : JobTrackerDB) : JobTrackerDB * Result unit :=
  let updatedData := spread updates (update_fields (now dr) updates) in
  let d1 := update_application id updatedData d in
  match applications d1 !! id with
  | None => (d1, Err "Application not found after update")
  | Some updatedApp =>
      match addToSyncQueue (operationId dr) (queuedAt dr) UPDATE application
              id (to_patch updatedApp) d1 with
      | Err msg => (d1, Err msg)
      | Ok d2 => (d2, Ok tt)
      end
  end.

(** [{ id }] *)
Definition only_id (id : string) : ApplicationPatch :=
  {| p_id := Some id; p_userId := None; p_company := None;
     p_position := None; p_location := None; p_salaryMin := None;
     p_salaryMax := None; p_status := None; p_applicationDate := None;
     p_deadline := None; p_followUpDate := None; p_url := None;
     p_notes := None; p_createdAt := None; p_updatedAt := None;
     p_lastSyncedAt := None; p_version := None |}.

(** [deleteApplication] *)
Definition deleteApplication (dr : Draw) (id : string) (d : JobTrackerDB)
  : JobTrackerDB * Result unit :=
  match applications d !! id with
  | None => (d, Err "Application not found")
  | Some _ =>
      let d1 := delete_application id d in
      match addToSyncQueue (operationId dr) (queuedAt dr) DELETE application
              id (only_id id) d1 with
      | Err msg => (d1, Err msg)
      | Ok d2 => (d2, Ok tt)
      end
  end.

(** [{ status }] *)
Definition only_status (st : ApplicationStatus) : ApplicationPatch :=
  {| p_id := None; p_userId := None; p_company := None;
     p_position := None; p_location := None; p_salaryMin := None;
     p_salaryMax := None; p_status := Some st; p_applicationDate := None;
     p_deadline := None; p_followUpDate := None; p_url := None;
     p_notes := None; p_createdAt := None; p_updatedAt := None;
     p_lastSyncedAt := None; p_version := None |}.

(** [changeStatus] of [useApplications] *)
Definition changeStatus (dr : Draw) (id : string) (st : ApplicationStatus)
  (d : JobTrackerDB) : JobTrackerDB * Result unit :=
  updateApplication dr id (only_status st) d.

(** Two fields of the sync store, [isOnline] and [lastSyncedAt].  The
    store with the status it shows ([syncStatus], [syncProgress],
    [syncTotal], [syncError]) is [Status.State], and [Status.brief] takes
    it to this one. *)
Record SyncStore := mkSyncStore {
  ss_isOnline : bool;
  ss_lastSyncedAt : option Z }.

Record App := mkApp {
  world : World;
  store : SyncStore }.

Definition synced_at (now : Z) (o : Outcome) (st : SyncStore) : SyncStore :=
  match o with
  | Fulfilled => {| ss_isOnline := ss_isOnline st; ss_lastSyncedAt := Some now |}
  | Rejected _ => st
  end.

(** [triggerSync] of the sync store: it catches what [sync] throws. *)
Definition triggerSync (env : Env) (now : Z) (a : App) : App :=
  let r := sync env (world a) in
  {| world := fst r; store := synced_at now (snd r) (store a) |}.

(** [pullFromServer] of the sync store. *)
Definition store_pullFromServer (env : Env) (now : Z) (userId : string) (a : App) : App :=
  let r := pullFromServer env userId (world a) in
  {| world := fst r; store := synced_at now (snd r) (store a) |}.

(** [manualSync] of [useOfflineSync] *)
Definition manualSync (env : Env) (now : Z) (a : App) : App * Outcome :=
  if negb (ss_isOnline (store a)) then (a, Rejected "Cannot sync while offline")
  else (triggerSync env now a, Fulfilled).

(** [pullData] of [useOfflineSync]; [session] is [session?.user?.id]. *)
Definition pullData (env : Env) (now : Z) (session : option string) (a : App)
  : App * Outcome :=
  match session with
  | Some userId =>
      if negb (ss_isOnline (store a))
      then (a, Rejected "Cannot pull data while offline or not authenticated")
      else (store_pullFromServer env now userId a, Fulfilled)
  | None => (a, Rejected "Cannot pull data while offline or not authenticated")
  end.

End Store.

(* ===================================================================== *)
(** * Observations on a run, and the whole system *)
(* ===================================================================== *)

Module Trace.
Import Db Engine.

(** The operations whose requests were sent, in sending order. *)
Definition requests (tr : list Event) : list SyncOperation :=
  omap (fun e => match e with EvFetch op => Some op | _ => None end) tr.

(** The operations whose [processOperation] settled, in settling order. *)
Definition settlements (tr : list Event) : list SyncOperation :=
  omap (fun e => match e with EvSettled op _ => Some op | _ => None end) tr.

(** The delays of the retry timers that were set, in order. *)
Definition timers (tr : list Event) : list Z :=
  omap (fun e => match e with EvTimer d => Some d | _ => None end) tr.

(** What one batch writes to the log: its requests, then whatever follows
    them up to and including the progress notification. *)
Definition batch_events (batch : list SyncOperation) (rest : list Event) : list Event :=
  (EvFetch <$> batch) ++ rest.

(** "Strictly sequential per entity": between the requests of two
    operations on one [entityId] the first of them has settled. *)
Definition sequential_per_entity (tr : list Event) : Prop :=
  forall i j a b,
    tr !! i = Some (EvFetch a) -> tr !! j = Some (EvFetch b) -> i < j ->
    op_entityId a = op_entityId b ->
    exists k o, i < k < j /\ tr !! k = Some (EvSettled a o).

(** [declines w]: the guard at the head of [sync]. *)
Definition declines (w : World) : bool := negb (isOnline w) || isSyncing w.

(** Calls of [sync] and the passes they start, between the points where a
    pass is suspended: a call either returns at the guard or starts a pass;
    a running pass ends in its [finally]; nothing else writes [isSyncing].
    The number counts the passes that have started and not yet ended. *)
Inductive pass_step : World * nat -> World * nat -> Prop :=
  | call_declined w n :
      declines w = true -> pass_step (w, n) (w, n)
  | call_admitted w n :
      declines w = false -> pass_step (w, n) (set_isSyncing true w, S n)
  | pass_finishes w n :
      pass_step (w, S n) (set_isSyncing false w, n)
  | elsewhere w w' n :
      isSyncing w' = isSyncing w -> pass_step (w, n) (w', n).

Inductive reachable : World * nat -> Prop :=
  | reach_start w : isSyncing w = false -> reachable (w, 0)
  | reach_step s s' : reachable s -> pass_step s s' -> reachable s'.

(** A response that sends [processOperation] into its [catch] block
    before anything is written. *)
Definition is_failure {e} (r : FetchResult e) : bool :=
  match r with
  | NetworkError _ | HttpError _ => true
  | HttpOk _ _ => false
  end.

(** The timer the [catch] block of [processOperation] sets, if any. *)
Definition retry_timer (operation : SyncOperation) : list Event :=
  if op_retryCount operation + 1 <? MAX_RETRY_COUNT
  then [EvTimer (retry_delay (op_retryCount operation))] else [].

(** What follows the requests of a batch in the log: no further request,
    and the settlements in the order of the responses. *)
Definition after_requests (env : Env) (batch : list SyncOperation)
  (rest : list Event) : Prop :=
  requests rest = [] /\ settlements rest = settle_order env batch.

(** [validOperations]: what a pass keeps of the operations it has read. *)
Definition valid_operations (operations : list SyncOperation) : list SyncOperation :=
  List.filter (fun op => op_retryCount op <? MAX_RETRY_COUNT) operations.

(** The rows of the queue that are not marked synced. *)
Definition unsynced_rows (d : JobTrackerDB) : list SyncOperation :=
  List.filter (fun op => negb (op_synced op)) (syncQueue d).

(** The queue of [d'] holds the rows of [d] and the row [op], which is
    found under its id. *)
Definition queued_in (op : SyncOperation) (d d' : JobTrackerDB) : Prop :=
  (forall o, In o (syncQueue d') <-> In o (syncQueue d) \/ o = op) /\
  queue_get (op_id op) (syncQueue d') = Some op.

(** What a reply of the sync route says about a conflict. *)
Definition conflict_of (r : Server.Response Server.SyncBody) : option bool :=
  match r with
  | Server.Reply body => Some (Server.sb_conflict body)
  | Server.Failure _ _ => None
  end.


End Trace.

Module System.
Import Db Engine Store.

(** The pull route behind [fetch("/api/sync/pull?...")]: the route reads
    the caller from the session, and [lastSyncedAt] from the query string. *)
Definition pull_transport (session : option string) (now : Z) (s : Server.ServerDB)
  (rq : PullRequest) : PullResponse :=
  match Server.pull_GET session (pr_lastSyncedAt rq) now s with
  | Server.Reply body =>
      PullOk {| pd_applications := Some (Server.pb_applications body);
                pd_contacts := Some (Server.pb_contacts body);
                pd_documents := Some (Server.pb_documents body);
                pd_timestamp := Server.pb_timestamp body |}
  | Server.Failure _ e => PullHttpError e
  end.

(** Everything that can happen to the client between two moments: the
    entry points of the stores and hooks, a direct [syncEngine.sync()] (the
    engine's "online" listener and its retry timers), and changes of the
    two connectivity flags. *)
Inductive Action :=
  | CallSync (env : Env)
  | TriggerSync (env : Env) (now : Z)
  | ManualSync (env : Env) (now : Z)
  | PullData (env : Env) (now : Z) (session : option string)
  | AddApplication (dr : Draw) (applicationData : ApplicationData)
  | UpdateApplication (dr : Draw) (id : string) (updates : ApplicationPatch)
  | DeleteApplication (dr : Draw) (id : string)
  | ChangeStatus (dr : Draw) (id : string) (st : ApplicationStatus)
  | Connectivity (engine_online store_online : bool).

Definition on_db (f : JobTrackerDB -> JobTrackerDB) (a : App) : App :=
  {| world := with_db (world a) (f (db (world a))); store := store a |}.

Definition run (act : Action) (a : App) : App :=
  match act with
  | CallSync env => {| world := fst (sync env (world a)); store := store a |}
  | TriggerSync env now => triggerSync env now a
  | ManualSync env now => fst (manualSync env now a)
  | PullData env now session => fst (pullData env now session a)
  | AddApplication dr data => on_db (fun d => fst (addApplication dr data d)) a
  | UpdateApplication dr id updates =>
      on_db (fun d => fst (updateApplication dr id updates d)) a
  | DeleteApplication dr id => on_db (fun d => fst (deleteApplication dr id d)) a
  | ChangeStatus dr id st => on_db (fun d => fst (changeStatus dr id st d)) a
  | Connectivity e s =>
      {| world := set_isOnline e (world a);
         store := {| ss_isOnline := s; ss_lastSyncedAt := ss_lastSyncedAt (store a) |} |}
  end.

Definition run_all (acts : list Action) (a : App) : App :=
  fold_left (fun a act => run act a) acts a.



End System.

(** Concrete inputs used to run the definitions. *)
Module Samples.
Import Db Engine Store.

(** An update of application [entityId], queued at [timestamp], that has
    failed [retryCount] times. *)
Definition queued (id entityId : string) (timestamp : Z) (retryCount : nat)
  : SyncOperation :=
  {| op_id := id; op_type := UPDATE; op_entity := application;
     op_entityId := entityId; op_data := empty_patch;
     op_timestamp := timestamp; op_synced := false;
     op_retryCount := retryCount; op_error := None |}.

Definition local_db (queue : list SyncOperation) (space : nat) : JobTrackerDB :=
  {| applications := ∅; contacts := ∅; documents := ∅;
     syncQueue := queue; quota := space |}.

(** An engine that is online with no pass running. *)
Definition idle_world (queue : list SyncOperation) : World :=
  {| db := local_db queue 10; isOnline := true; isSyncing := false; log := [] |}.

(** A server that accepts everything and answers at once. *)
Definition accepting : Env :=
  {| read_error := None;
     fetch := fun _ => HttpOk false None;
     clock := fun _ => 0%Z;
     latency := fun _ => 0;
     pull_fetch := fun _ => PullNetworkError "Failed to fetch";
     pull_clock := 0 |}.

(** A network on which every request fails. *)
Definition unreachable : Env :=
  {| read_error := None;
     fetch := fun _ => NetworkError "Failed to fetch";
     clock := fun _ => 0%Z;
     latency := fun _ => 0;
     pull_fetch := fun _ => PullNetworkError "Failed to fetch";
     pull_clock := 0 |}.

(** Two updates of the same application, queued one after the other. *)
Definition first_edit : SyncOperation := queued "op-1" "app-1" 100 0.
Definition second_edit : SyncOperation := queued "op-2" "app-1" 200 0.

(** A pass is already running. *)
Definition busy_world : World :=
  {| db := local_db [first_edit] 10; isOnline := true; isSyncing := true; log := [] |}.

(** The engine believes it is offline. *)
Definition offline_world : World :=
  {| db := local_db [first_edit] 10; isOnline := false; isSyncing := false; log := [] |}.

(** The server's copy of application [app-1], owned by [u1]. *)
Definition server_copy (updatedAt version : Z) : Application :=
  {| app_id := "app-1"; app_userId := "u1"; app_company := "Acme";
     app_position := "Engineer"; app_location := None; app_salaryMin := None;
     app_salaryMax := None; app_status := APPLIED; app_applicationDate := None;
     app_deadline := None; app_followUpDate := None; app_url := None;
     app_notes := None; app_createdAt := 1; app_updatedAt := updatedAt;
     app_lastSyncedAt := 1; app_version := version |}.


Definition server_holding (copy : Application) : Server.ServerDB :=
  {| Server.s_applications := {[ app_id copy := copy ]};
     Server.s_contacts := ∅; Server.s_documents := ∅;
     Server.s_syncQueue := [] |}.

(** An update of [app-1] made at time 50. *)
Definition update_at_50 : Server.SyncRequest :=
  {| Server.rq_operation := UPDATE; Server.rq_entity := application;
     Server.rq_entityId := "app-1"; Server.rq_data := empty_patch;
     Server.rq_timestamp := 50 |}.

(** A local database that holds [copy] and nothing else. *)
Definition local_holding (copy : Application) (space : nat) : JobTrackerDB :=
  {| applications := {[ app_id copy := copy ]}; contacts := ∅; documents := ∅;
     syncQueue := []; quota := space |}.

Definition draw_9 : Draw :=
  {| now := 900; queuedAt := 901; recordId := "app-9"; operationId := "op-9" |}.

Definition acme_engineer : ApplicationData :=
  {| ad_userId := "u1"; ad_company := "Acme"; ad_position := "Engineer";
     ad_location := None; ad_salaryMin := None; ad_salaryMax := None;
     ad_status := WISHLIST; ad_applicationDate := None; ad_deadline := None;
     ad_followUpDate := None; ad_url := None; ad_notes := None |}.


(** The network in front of a server that holds application [app-1],
    last updated at time 50, for the signed-in user [u1]. *)
Definition pulling : Env :=
  {| read_error := None;
     fetch := fun _ => HttpOk false None;
     clock := fun _ => 0%Z;
     latency := fun _ => 0;
     pull_fetch :=
       System.pull_transport (Some "u1") 500 (server_holding (server_copy 50 3));
     pull_clock := 600 |}.

(** A client with nothing stored that last synced at time 100. *)
Definition synced_at_100 : App :=
  {| world := idle_world [];
     store := {| ss_isOnline := true; ss_lastSyncedAt := Some 100%Z |} |}.

End Samples.

(* ===================================================================== *)
(** * The rest of the client and of the routes *)
(* ===================================================================== *)

(** ** Connectivity: the listeners and the probe of the sync engine, and
    [useNetworkStatus] *)

Module Connectivity.
Import Db Engine Store.

(** [checkRealConnectivity] of the engine.  [onLine] is [navigator.onLine];
    [probe] tells whether [fetch("/api/health", { method: "HEAD" })]
    resolved before the five-second abort. *)
Definition checkRealConnectivity (onLine probe : bool) (w : World) : World :=
  if negb onLine then set_isOnline false w
  else if probe then set_isOnline true w
  else set_isOnline false w.

(** The ["online"] listener of the engine: raise the flag, then [sync()]. *)
Definition on_online (env : Env) (w : World) : World :=
  fst (sync env (set_isOnline true w)).

(** The ["offline"] listener of the engine. *)
Definition on_offline (w : World) : World := set_isOnline false w.

(** The callback of a retry timer set by [processOperation]. *)
Definition on_retry_timer (env : Env) (w : World) : World :=
  if isOnline w && negb (isSyncing w) then fst (sync env w) else w.

(** [getOnlineStatus] *)
Definition getOnlineStatus (w : World) : bool := isOnline w.

Definition setOnlineStatus (b : bool) (st : SyncStore) : SyncStore :=
  {| ss_isOnline := b; ss_lastSyncedAt := ss_lastSyncedAt st |}.

(** [checkRealConnectivity] of [useNetworkStatus], on the store's flag. *)
Definition hook_checkRealConnectivity (onLine probe : bool) (st : SyncStore)
  : SyncStore :=
  if negb onLine then setOnlineStatus false st
  else if probe then setOnlineStatus true st
  else setOnlineStatus false st.

End Connectivity.

(** ** The request [processOperation] sends and the response it reads *)

Module Wire.
Import Db Engine.

(** The body of [fetch("/api/sync", { method: "POST", body: ... })]. *)
Definition request_of (operation : SyncOperation) : Server.SyncRequest :=
  {| Server.rq_operation := op_type operation;
     Server.rq_entity := op_entity operation;
     Server.rq_entityId := op_entityId operation;
     Server.rq_data := op_data operation;
     Server.rq_timestamp := op_timestamp operation |}.

(** [response.statusText] for the statuses the routes send. *)
Definition statusText (status : nat) : string :=
  match status with
  | 400 => "Bad Request"
  | 401 => "Unauthorized"
  | 403 => "Forbidden"
  | 404 => "Not Found"
  | 500 => "Internal Server Error"
  | _ => ""
  end.

(** What [processOperation] reads off a response of the sync route:
    [response.ok], then [result.conflict] and [result.serverData].  The
    route sends [serverData] for applications only. *)
Definition response_of (operation : SyncOperation)
  (r : Server.Response Server.SyncBody) : FetchResult (op_entity operation) :=
  match r with
  | Server.Failure status _ => HttpError (statusText status)
  | Server.Reply body =>
      match op_entity operation as e return FetchResult e with
      | application =>
          @HttpOk application (Server.sb_conflict body) (Server.sb_serverData body)
      | contact => @HttpOk contact (Server.sb_conflict body) None
      | document => @HttpOk document (Server.sb_conflict body) None
      end
  end.

(** The network in front of the sync route, for a signed-in [session] and
    a server in state [s] at time [now]. *)
Definition served (session : option string) (now : Z) (s : Server.ServerDB)
  (env : Env) : Env :=
  {| read_error := read_error env;
     fetch := fun op => response_of op (snd (Server.POST session (Some (request_of op)) now s));
     clock := clock env;
     latency := latency env;
     pull_fetch := pull_fetch env;
     pull_clock := pull_clock env |}.

End Wire.

(** ** app/api/sync/route.ts: the whole handler *)

Module Route.
Import Db Server.

(** What [await request.json()] comes to: it throws on a body that is not
    JSON; a JSON body is accepted or refused by
    [syncOperationSchema.parse]. *)
Inductive RequestBody :=
  | NotJson
  | Json (parsed : option SyncRequest).

(** [POST /api/sync].  [accepts] tells whether [prisma.syncQueue.create]
    stores the audit row, which the table's schema and the database decide;
    neither is among the sources.  The application write is awaited before
    the audit write and outside any transaction: it stays when the audit
    write throws. *)
Definition POST (accepts : SyncLogRow -> bool) (session : option string)
  (body : RequestBody) (now : Z) (s : ServerDB) : ServerDB * Response SyncBody :=
  match session with
  | None => (s, Failure 401 "Unauthorized")
  | Some user =>
      match body with
      | NotJson => (s, Failure 500 "Internal server error")
      | Json None => (s, Failure 400 "Invalid input")
      | Json (Some rq) =>
          let br := match rq_entity rq with
                    | application => application_branch user now rq (s_applications s)
                    | _ => Done (s_applications s) false RNull
                    end in
          match br with
          | Early status e => (s, Failure status e)
          | Thrown => (s, Failure 500 "Internal server error")
          | Done t conflict result =>
              let row :=
                {| log_userId := user; log_operation := rq_operation rq;
                   log_entity := rq_entity rq; log_entityId := rq_entityId rq;
                   log_data := rq_data rq; log_synced := true |} in
              if accepts row then
                ({| s_applications := t; s_contacts := s_contacts s;
                    s_documents := s_documents s;
                    s_syncQueue := s_syncQueue s ++ [row] |},
                 Reply {| sb_success := true; sb_conflict := conflict;
                          sb_serverData :=
                            if conflict then
                              match result with RRow a => Some a | _ => None end
                            else None;
                          sb_result := result |})
              else (with_s_applications s t, Failure 500 "Internal server error")
          end
      end
  end.

End Route.

(** ** app/api/applications/[id]/route.ts (GET, DELETE) and
    app/api/applications/route.ts (GET) *)

Module Rest.
Import Db Server.

(** An application with [include: { contacts: true, documents: true }]. *)
Record Included := mkIncluded {
  inc_application : Application;
  inc_contacts : list Contact;
  inc_documents : list Document }.

Definition include (s : ServerDB) (a : Application) : Included :=
  {| inc_application := a;
     inc_contacts :=
       List.filter (fun c => String.eqb (contact_applicationId c) (app_id a))
                   (rows (s_contacts s));
     inc_documents :=
       List.filter (fun d => String.eqb (doc_applicationId d) (app_id a))
                   (rows (s_documents s)) |}.

(** [findFirst({ where: { id, userId } })] *)
Definition findOwned (user id : string) (s : ServerDB) : option Application :=
  match s_applications s !! id with
  | Some a => if String.eqb (app_userId a) user then Some a else None
  | None => None
  end.

(** [GET /api/applications/[id]] *)
Definition GET (session : option string) (id : string) (s : ServerDB)
  : Response Included :=
  match session with
  | None => Failure 401 "Unauthorized"
  | Some user =>
      match findOwned user id s with
      | None => Failure 404 "Application not found"
      | Some a => Reply (include s a)
      end
  end.

(** [DELETE /api/applications/[id]].  What becomes of the contacts and
    documents of a deleted application is decided by the referential
    actions of the Prisma schema, which is not among the sources: the
    application row is removed and the other tables are left alone. *)
Definition DELETE (session : option string) (id : string) (s : ServerDB)
  : ServerDB * Response bool :=
  match session with
  | None => (s, Failure 401 "Unauthorized")
  | Some user =>
      match findOwned user id s with
      | None => (s, Failure 404 "Application not found")
      | Some _ => (with_s_applications s (delete id (s_applications s)), Reply true)
      end
  end.

(** The [status] query parameter of the list route: missing, ["ALL"], or
    the name of a status. *)
Inductive StatusParam :=
  | NoStatus
  | AllStatuses
  | OneStatus (st : ApplicationStatus).

Definition status_eqb (a b : ApplicationStatus) : bool :=
  match a, b with
  | WISHLIST, WISHLIST | APPLIED, APPLIED | SCREENING, SCREENING
  | INTERVIEW, INTERVIEW | OFFER, OFFER | REJECTED, REJECTED => true
  | _, _ => false
  end.

Definition list_where (user : string) (status : StatusParam) (a : Application) : bool :=
  String.eqb (app_userId a) user &&
  match status with
  | OneStatus st => status_eqb (app_status a) st
  | NoStatus | AllStatuses => true
  end.

(** [GET /api/applications] *)
Definition list_GET (session : option string) (status : StatusParam) (s : ServerDB)
  : Response (list Included) :=
  match session with
  | None => Failure 401 "Unauthorized"
  | Some user =>
      Reply (include s <$>
               merge_sort newer_first
                 (List.filter (list_where user status) (rows (s_applications s))))
  end.

End Rest.

(** ** The state of the application store (Zustand) *)

Module Mirror.
Import Db Store.

Inductive Filter :=
  | ALL
  | Only (st : ApplicationStatus).

(** The fields of [ApplicationStore]. *)
Record State := mkState {
  st_applications : list Application;
  selectedApplication : option Application;
  filterStatus : Filter;
  searchQuery : string;
  isLoading : bool;
  error : option string }.

Definition initial : State :=
  {| st_applications := []; selectedApplication := None; filterStatus := ALL;
     searchQuery := ""; isLoading := false; error := None |}.

(** [dbHelpers.getUserApplications]: the rows whose [userId] is the given one. *)
Definition getUserApplications (userId : string) (d : JobTrackerDB) : list Application :=
  List.filter (fun a => String.eqb (app_userId a) userId)
              (Server.rows (applications d)).

(** [dbHelpers.getApplicationsByStatus] *)
Definition getApplicationsByStatus (userId : string) (st : ApplicationStatus)
  (d : JobTrackerDB) : list Application :=
  List.filter (fun a => String.eqb (app_userId a) userId &&
                        Rest.status_eqb (app_status a) st)
              (Server.rows (applications d)).

(** [dbHelpers.getApplicationContacts] and [getApplicationDocuments] *)
Definition getApplicationContacts (applicationId : string) (d : JobTrackerDB)
  : list Contact :=
  List.filter (fun c => String.eqb (contact_applicationId c) applicationId)
              (Server.rows (contacts d)).

Definition getApplicationDocuments (applicationId : string) (d : JobTrackerDB)
  : list Document :=
  List.filter (fun x => String.eqb (doc_applicationId x) applicationId)
              (Server.rows (documents d)).

(** [JobTrackerDB.clearAll]: the four tables are emptied and their space
    is given back. *)
Definition clearAll (d : JobTrackerDB) : JobTrackerDB :=
  {| applications := ∅; contacts := ∅; documents := ∅; syncQueue := [];
     quota := quota d + size (applications d) + size (contacts d)
              + size (documents d) + length (syncQueue d) |}.

Definition settled_with (e : option string) (apps : list Application)
  (sel : option Application) (st : State) : State :=
  {| st_applications := apps; selectedApplication := sel;
     filterStatus := filterStatus st; searchQuery := searchQuery st;
     isLoading := false; error := e |}.

(** [loadApplications] *)
Definition loadApplications (userId : string) (d : JobTrackerDB) (st : State) : State :=
  settled_with None (getUserApplications userId d) (selectedApplication st) st.

(** [addApplication] with the state it sets: the list grows on success
    only; a failure is recorded in [error]. *)
Definition addApplication (dr : Draw) (applicationData : ApplicationData)
  (d : JobTrackerDB) (st : State) : JobTrackerDB * State * Result Application :=
  let r := Store.addApplication dr applicationData d in
  match snd r with
  | Ok created =>
      (fst r,
       settled_with None (st_applications st ++ [created])
                    (selectedApplication st) st,
       snd r)
  | Err msg =>
      (fst r,
       settled_with (Some msg) (st_applications st) (selectedApplication st) st,
       snd r)
  end.

(** [{ ...app, ...updatedData }] when [app.id === id]. *)
Definition patched (id : string) (updatedData : ApplicationPatch) (app : Application)
  : Application :=
  if String.eqb (app_id app) id then assign app updatedData else app.

(** [updateApplication] with the state it sets. *)
Definition updateApplication (dr : Draw) (id : string) (updates : ApplicationPatch)
  (d : JobTrackerDB) (st : State) : JobTrackerDB * State * Result unit :=
  let updatedData := spread updates (update_fields (now dr) updates) in
  let r := Store.updateApplication dr id updates d in
  match snd r with
  | Ok _ =>
      (fst r,
       settled_with None (patched id updatedData <$> st_applications st)
                    (patched id updatedData <$> selectedApplication st) st,
       snd r)
  | Err msg =>
      (fst r,
       settled_with (Some msg) (st_applications st) (selectedApplication st) st,
       snd r)
  end.

(** [deleteApplication] with the state it sets. *)
Definition deleteApplication (dr : Draw) (id : string)
  (d : JobTrackerDB) (st : State) : JobTrackerDB * State * Result unit :=
  let r := Store.deleteApplication dr id d in
  match snd r with
  | Ok _ =>
      (fst r,
       settled_with None
         (List.filter (fun app => negb (String.eqb (app_id app) id))
                      (st_applications st))
         (match selectedApplication st with
          | Some sel => if String.eqb (app_id sel) id then None else Some sel
          | None => None
          end) st,
       snd r)
  | Err msg =>
      (fst r,
       settled_with (Some msg) (st_applications st) (selectedApplication st) st,
       snd r)
  end.

Definition selectApplication (application : option Application) (st : State) : State :=
  {| st_applications := st_applications st; selectedApplication := application;
     filterStatus := filterStatus st; searchQuery := searchQuery st;
     isLoading := isLoading st; error := error st |}.

Definition setFilterStatus (f : Filter) (st : State) : State :=
  {| st_applications := st_applications st;
     selectedApplication := selectedApplication st;
     filterStatus := f; searchQuery := searchQuery st;
     isLoading := isLoading st; error := error st |}.

Definition setSearchQuery (query : string) (st : State) : State :=
  {| st_applications := st_applications st;
     selectedApplication := selectedApplication st;
     filterStatus := filterStatus st; searchQuery := query;
     isLoading := isLoading st; error := error st |}.

(** The string methods of JavaScript that [getFilteredApplications] calls. *)
Record JsString := mkJsString {
  toLowerCase : string -> string;
  includes : string -> string -> bool;     (* [text.includes(part)] *)
  trim : string -> string }.

(** [app.location?.toLowerCase().includes(query)]: a missing field is
    [undefined], which counts as [false]. *)
Definition field_includes (js : JsString) (field : option string) (query : string)
  : bool :=
  match field with
  | Some text => includes js (toLowerCase js text) query
  | None => false
  end.

Definition matches (js : JsString) (query : string) (app : Application) : bool :=
  includes js (toLowerCase js (app_company app)) query ||
  includes js (toLowerCase js (app_position app)) query ||
  field_includes js (app_location app) query ||
  field_includes js (app_notes app) query.

(** [getFilteredApplications] *)
Definition getFilteredApplications (js : JsString) (st : State) : list Application :=
  let filtered := st_applications st in
  let filtered :=
    match filterStatus st with
    | ALL => filtered
    | Only status =>
        List.filter (fun app => Rest.status_eqb (app_status app) status) filtered
    end in
  if String.eqb (trim js (searchQuery st)) "" then filtered
  else
    let query := toLowerCase js (searchQuery st) in
    List.filter (matches js query) filtered.

(** The list of the store shows the database: every application in it is
    the row stored under its id. *)
Definition shows (st : State) (d : JobTrackerDB) : Prop :=
  Forall (fun app => applications d !! app_id app = Some app) (st_applications st).

(** Every row of the table sits under its own id. *)
Definition keyed (d : JobTrackerDB) : Prop :=
  map_Forall (fun k app => app_id app = k) (applications d).

End Mirror.

(** ** Further observations *)

Module Observe.
Import Db Engine Store.

(** The states the listeners were notified of, in order. *)
Definition notifications (tr : list Event) : list SyncState :=
  omap (fun e => match e with EvNotify s => Some s | _ => None end) tr.

(** The running totals of a list of sizes, from [c] on. *)
Fixpoint running (c : nat) (sizes : list nat) : list nat :=
  match sizes with
  | [] => []
  | n :: sizes => (c + n) :: running (c + n) sizes
  end.

(** A response that makes [processOperation] mark the operation synced
    without touching a record. *)
Definition is_accepted {e} (r : FetchResult e) : bool :=
  match r with
  | HttpOk false _ => true
  | _ => false
  end.

(** The message with which [processOperation] fails on a response. *)
Definition failure_message {e} (r : FetchResult e) : string :=
  match r with
  | NetworkError msg => msg
  | HttpError statusText => "Sync failed: " +:+ statusText
  | HttpOk _ _ => ""
  end.

(** The primary key of the queue: no two rows share an id. *)
Definition unique_ids (d : JobTrackerDB) : Prop :=
  NoDup (op_id <$> syncQueue d).

(** The record tables of two databases are the same. *)
Definition same_records (d d' : JobTrackerDB) : Prop :=
  applications d' = applications d /\
  contacts d' = contacts d /\
  documents d' = documents d.

(** The queue after the rows whose id is in [ids] were marked synced. *)
Definition marked (ids : list string) (q : list SyncOperation) : list SyncOperation :=
  (fun o => if bool_decide (op_id o ∈ ids) then set_synced o else o) <$> q.

(** What a failed request makes of the row of its operation. *)
Definition bump (env : Env) (o : SyncOperation) : SyncOperation :=
  set_retry (op_retryCount o + 1) (failure_message (fetch env o)) o.

(** Row [r] is what became of row [o] after the requests of the
    operations whose id satisfies [P] failed. *)
Definition bumped (env : Env) (P : string -> Prop) (o r : SyncOperation) : Prop :=
  (P (op_id o) /\ r = bump env o) \/ (~ P (op_id o) /\ r = o).

(** The table after the rows of [l] are stored one after the other, each
    under its key. *)
Definition inserts {A} (key : A -> string) (stored : A -> A) (l : list A)
  (t : gmap string A) : gmap string A :=
  fold_left (fun t x => <[key x := stored x]> t) l t.

(** [inserts] for the rows of a response, which may be missing. *)
Definition inserts_opt {A} (key : A -> string) (stored : A -> A)
  (rows : option (list A)) (t : gmap string A) : gmap string A :=
  match rows with
  | Some l => inserts key stored l t
  | None => t
  end.

(** Every row of the queue of [d] is in that of [d'] as it was, found under
    its id, and the ids are still distinct if they were. *)
Definition grows (d d' : JobTrackerDB) : Prop :=
  (forall id op, queue_get id (syncQueue d) = Some op ->
                 queue_get id (syncQueue d') = Some op) /\
  (unique_ids d -> unique_ids d').

End Observe.

(** ** lib/stores/sync-store.ts with the status it shows, and useOfflineSync *)

Module Status.
Import Db Engine Observe.

(** The state of [useSyncStore]. *)
Record State := mkState {
  sy_isOnline : bool;
  syncStatus : SyncStatus;
  syncProgress : nat;
  syncTotal : nat;
  syncError : option string;
  lastSyncedAt : option Z }.

(** The engine and the store beside it. *)
Record Client := mkClient {
  engine : World;
  ui : State }.

(** [set({ syncStatus, syncError })] *)
Definition set_status (status : SyncStatus) (e : option string) (st : State) : State :=
  {| sy_isOnline := sy_isOnline st; syncStatus := status;
     syncProgress := syncProgress st; syncTotal := syncTotal st;
     syncError := e; lastSyncedAt := lastSyncedAt st |}.

(** [set({ syncStatus: "success", lastSyncedAt: new Date() })] *)
Definition set_success (now : Z) (st : State) : State :=
  {| sy_isOnline := sy_isOnline st; syncStatus := success;
     syncProgress := syncProgress st; syncTotal := syncTotal st;
     syncError := syncError st; lastSyncedAt := Some now |}.

(** The listener the store subscribes to the engine. *)
Definition on_notify (st : State) (s : SyncState) : State :=
  {| sy_isOnline := sy_isOnline st; syncStatus := status s;
     syncProgress := progress s; syncTotal := total s;
     syncError := state_error s; lastSyncedAt := lastSyncedAt st |}.

(** What the engine notified between [w] and [w']. *)
Definition notified (w w' : World) : list SyncState :=
  notifications (drop (length (log w)) (log w')).

(** The end of an action of the store: [success] with the time, or the
    [catch] with the message. *)
Definition settle_status (now : Z) (o : Outcome) (st : State) : State :=
  match o with
  | Fulfilled => set_success now st
  | Rejected msg => set_status error (Some msg) st
  end.

(** [triggerSync].  The timer that sets the status back to [idle] two
    seconds after a success fires later and is [reset_idle]. *)
Definition triggerSync (env : Env) (now : Z) (c : Client) : Client :=
  let st := set_status syncing None (ui c) in
  let r := sync env (engine c) in
  let st := fold_left on_notify (notified (engine c) (fst r)) st in
  {| engine := fst r; ui := settle_status now (snd r) st |}.

(** [pullFromServer] of the store. *)
Definition pullFromServer (env : Env) (now : Z) (userId : string) (c : Client) : Client :=
  let st := set_status syncing None (ui c) in
  let r := Engine.pullFromServer env userId (engine c) in
  let st := fold_left on_notify (notified (engine c) (fst r)) st in
  {| engine := fst r; ui := settle_status now (snd r) st |}.

Definition reset_idle (st : State) : State :=
  {| sy_isOnline := sy_isOnline st; syncStatus := idle;
     syncProgress := syncProgress st; syncTotal := syncTotal st;
     syncError := syncError st; lastSyncedAt := lastSyncedAt st |}.

(** [manualSync] of [useOfflineSync] *)
Definition manualSync (env : Env) (now : Z) (c : Client) : Client * Outcome :=
  if negb (sy_isOnline (ui c)) then (c, Rejected "Cannot sync while offline")
  else (triggerSync env now c, Fulfilled).

(** [pullData] of [useOfflineSync]; [session] is [session?.user?.id]. *)
Definition pullData (env : Env) (now : Z) (session : option string) (c : Client)
  : Client * Outcome :=
  match session with
  | Some userId =>
      if negb (sy_isOnline (ui c))
      then (c, Rejected "Cannot pull data while offline or not authenticated")
      else (pullFromServer env now userId c, Fulfilled)
  | None => (c, Rejected "Cannot pull data while offline or not authenticated")
  end.

(** The two fields of the store that [Store.SyncStore] keeps. *)
Definition brief (c : Client) : Store.App :=
  {| Store.world := engine c;
     Store.store := {| Store.ss_isOnline := sy_isOnline (ui c);
                       Store.ss_lastSyncedAt := lastSyncedAt (ui c) |} |}.

End Status.

(* ===================================================================== *)
(** * Properties *)
(* ===================================================================== *)

Import Db Engine Store Trace Samples.

(** ** Batching *)

Section Batches.
Context {T : Type}.
Implicit Types (items : list T) (b i : nat).

Lemma slice_length items i j :
  length (slice i j items) = Nat.min (j - i) (length items - i).
Proof. unfold slice. rewrite length_take, length_drop. reflexivity. Qed.

Lemma batches_from_done items b i :
  length items <= i -> batches_from items b i = [].
Proof.
  intros Hi. simp batches_from.
  destruct (lt_dec i (length items)); [lia | reflexivity].
Qed.

Lemma batches_from_step items b i :
  i < length items ->
  batches_from items b i = slice i (i + S b) items :: batches_from items b (i + S b).
Proof.
  intros Hi. rewrite batches_from_equation_1.
  destruct (lt_dec i (length items)); [reflexivity | lia].
Qed.

(** The loop hands out the rest of the list, [S b] items at a time. *)
Lemma batches_from_concat items b i :
  concat (batches_from items b i) = drop i items.
Proof.
  remember (length items - i) as n eqn:Hn.
  revert i Hn. induction n as [n IH] using lt_wf_ind. intros i Hn.
  destruct (lt_dec i (length items)) as [Hlt | Hge].
  - rewrite (batches_from_step _ _ _ Hlt). cbn [concat].
    rewrite (IH (length items - (i + S b))) by lia.
    unfold slice. replace (i + S b - i) with (S b) by lia.
    rewrite <- drop_drop. apply take_drop.
  - rewrite batches_from_done by lia. rewrite drop_ge by lia. reflexivity.
Qed.

Lemma batches_from_sizes items b i :
  Forall (fun batch => 0 < length batch <= S b) (batches_from items b i).
Proof.
  remember (length items - i) as n eqn:Hn.
  revert i Hn. induction n as [n IH] using lt_wf_ind. intros i Hn.
  destruct (lt_dec i (length items)) as [Hlt | Hge].
  - rewrite (batches_from_step _ _ _ Hlt). constructor.
    + rewrite slice_length. lia.
    + apply (IH (length items - (i + S b))); lia.
  - rewrite batches_from_done by lia. constructor.
Qed.

Lemma createBatches_concat items b : concat (createBatches items (S b)) = items.
Proof. unfold createBatches. rewrite batches_from_concat. apply drop_0. Qed.

Lemma createBatches_sizes items b :
  Forall (fun batch => 0 < length batch <= S b) (createBatches items (S b)).
Proof. apply batches_from_sizes. Qed.

Lemma createBatches_51 items :
  length items = 51 -> length <$> createBatches items 50 = [50; 1].
Proof.
  intros H. unfold createBatches.
  rewrite batches_from_step by lia.
  rewrite batches_from_step by lia.
  rewrite batches_from_done by lia.
  cbn [fmap list_fmap]. rewrite !slice_length, H. reflexivity.
Qed.
End Batches.

(** C9.  The selected operations are cut into consecutive batches: put
    end to end, in order, the batches are the selected list again, none is
    empty and none holds more than [MAX_BATCH_SIZE = 50] operations; a list
    of 51 operations gives exactly two batches, of 50 and of 1. *)
Theorem createBatches_consecutive_bounded (selected : list SyncOperation) :
  let batches := createBatches selected MAX_BATCH_SIZE in
  concat batches = selected /\
  Forall (fun batch => 0 < length batch <= 50) batches /\
  (length selected = 51 -> length <$> batches = [50; 1]).
Proof.
  cbn zeta. unfold MAX_BATCH_SIZE. split; [| split].
  - apply createBatches_concat.
  - apply createBatches_sizes.
  - apply createBatches_51.
Qed.

Lemma createBatches_consecutive_bounded_witness :
  length <$> createBatches (replicate 51 first_edit) MAX_BATCH_SIZE = [50; 1].
Proof.
  exact (proj2 (proj2 (createBatches_consecutive_bounded (replicate 51 first_edit)))
           eq_refl).
Defined.

(** ** What a pass writes to the log *)


Lemma requests_app tr1 tr2 : requests (tr1 ++ tr2) = requests tr1 ++ requests tr2.
Proof. apply omap_app. Qed.

Lemma settlements_app tr1 tr2 :
  settlements (tr1 ++ tr2) = settlements tr1 ++ settlements tr2.
Proof. apply omap_app. Qed.

Lemma timers_app tr1 tr2 : timers (tr1 ++ tr2) = timers tr1 ++ timers tr2.
Proof. apply omap_app. Qed.

Lemma requests_fetches ops : requests (EvFetch <$> ops) = ops.
Proof.
  induction ops as [| op ops IH]; [reflexivity |].
  change (op :: requests (EvFetch <$> ops) = op :: ops). now rewrite IH.
Qed.

Lemma start_all_log ops w :
  log (fold_left (fun w op => emit (EvFetch op) w) ops w) = log w ++ (EvFetch <$> ops).
Proof.
  revert w. induction ops as [| op ops IH]; intros w; cbn.
  - now rewrite app_nil_r.
  - rewrite IH. cbn. now rewrite <- app_assoc.
Qed.

Lemma start_all_db ops w :
  db (fold_left (fun w op => emit (EvFetch op) w) ops w) = db w.
Proof. revert w. induction ops as [| op ops IH]; intros w; cbn; [| rewrite IH]; reflexivity. Qed.

Lemma on_failure_log operation msg w :
  log (fst (on_failure operation msg w)) = log w ++ retry_timer operation.
Proof.
  unfold on_failure, retry_timer. cbn [fst].
  destruct (op_retryCount operation + 1 <? MAX_RETRY_COUNT); cbn [log emit with_db];
    [reflexivity | now rewrite app_nil_r].
Qed.

Lemma on_failure_db operation msg w :
  db (fst (on_failure operation msg w)) =
  incrementRetryCount (op_id operation) msg (db w).
Proof.
  unfold on_failure. cbn [fst].
  destruct (op_retryCount operation + 1 <? MAX_RETRY_COUNT); reflexivity.
Qed.

(** [settle] appends nothing, or one retry timer. *)
Lemma settle_log env operation w :
  log (fst (settle env operation w)) = log w \/
  log (fst (settle env operation w)) = log w ++ retry_timer operation.
Proof.
  unfold settle.
  destruct (fetch env operation) as [msg | st | [] [sd |]];
    try (right; apply on_failure_log); try (left; reflexivity).
  destruct (resolveConflict _ _ _ _); [left; reflexivity | right; apply on_failure_log].
Qed.

Lemma retry_timer_quiet operation :
  requests (retry_timer operation) = [] /\ settlements (retry_timer operation) = [].
Proof. unfold retry_timer. destruct (_ <? _); split; reflexivity. Qed.

Lemma settled_log env w operation :
  exists tail,
    log (settled env w operation) = log w ++ tail /\
    requests tail = [] /\ settlements tail = [operation].
Proof.
  unfold settled. cbn.
  destruct (settle_log env operation w) as [-> | ->].
  - eexists; split; [reflexivity | split; reflexivity].
  - destruct (retry_timer_quiet operation) as [Hr Hs].
    exists (retry_timer operation ++ [EvSettled operation (snd (settle env operation w))]).
    rewrite <- app_assoc. split; [reflexivity |].
    rewrite requests_app, settlements_app, Hr, Hs. split; reflexivity.
Qed.

Lemma settle_all_log env ops w :
  exists tail,
    log (fold_left (settled env) ops w) = log w ++ tail /\
    requests tail = [] /\ settlements tail = ops.
Proof.
  revert w. induction ops as [| op ops IH]; intros w; cbn.
  - exists []. now rewrite app_nil_r.
  - destruct (IH (settled env w op)) as (t2 & E2 & R2 & S2).
    destruct (settled_log env w op) as (t1 & E1 & R1 & S1).
    exists (t1 ++ t2). rewrite E2, E1, <- app_assoc.
    split; [reflexivity |].
    rewrite requests_app, settlements_app, R1, R2, S1, S2. split; reflexivity.
Qed.

(** In a batch every request leaves before anything settles. *)
Lemma processBatch_log env batch w :
  exists tail,
    log (processBatch env batch w) = log w ++ batch_events batch tail /\
    requests tail = [] /\ settlements tail = settle_order env batch.
Proof.
  unfold processBatch, batch_events.
  destruct (settle_all_log env (settle_order env batch)
              (fold_left (fun w op => emit (EvFetch op) w) batch w))
    as (tail & E & R & S).
  exists tail. rewrite E, start_all_log, <- app_assoc. auto.
Qed.

Lemma batch_step_log env n acc batch :
  exists rest,
    after_requests env batch rest /\
    log (fst (batch_step env n acc batch)) = log (fst acc) ++ batch_events batch rest.
Proof.
  destruct (processBatch_log env batch (fst acc)) as (tail & E & R & S).
  exists (tail ++ [EvNotify (mkState syncing (snd acc + length batch) n None)]).
  split.
  - split.
    + rewrite requests_app, R. reflexivity.
    + rewrite settlements_app, S. apply app_nil_r.
  - unfold batch_step. cbn [fst log notifyListeners emit]. rewrite E.
    unfold batch_events. rewrite <- !app_assoc. reflexivity.
Qed.

Lemma batch_loop_log env n batches acc :
  exists rests,
    Forall2 (after_requests env) batches rests /\
    log (fst (fold_left (batch_step env n) batches acc)) =
    log (fst acc) ++ concat (zip_with batch_events batches rests).
Proof.
  revert acc. induction batches as [| batch batches IH]; intros acc.
  - exists []. split; [constructor | cbn; now rewrite app_nil_r].
  - cbn [fold_left].
    destruct (batch_step_log env n acc batch) as (rest & HA & E).
    destruct (IH (batch_step env n acc batch)) as (rests & HF & EL).
    exists (rest :: rests). split; [constructor; assumption |].
    rewrite EL, E. cbn [zip_with concat]. rewrite <- app_assoc. reflexivity.
Qed.

Lemma requests_batches env batches rests :
  Forall2 (after_requests env) batches rests ->
  requests (concat (zip_with batch_events batches rests)) = concat batches.
Proof.
  induction 1 as [| batch rest batches rests [R _] _ IH];
    cbn [zip_with concat]; [reflexivity |].
  unfold batch_events at 1.
  rewrite !requests_app, requests_fetches, R, IH, app_nil_r.
  reflexivity.
Qed.

Lemma pass_log env operations w :
  exists rests,
    Forall2 (after_requests env)
            (createBatches (valid_operations operations) MAX_BATCH_SIZE) rests /\
    log (pass env operations w) =
    log w ++
    concat (zip_with batch_events
              (createBatches (valid_operations operations) MAX_BATCH_SIZE) rests) ++
    [EvNotify (mkState success (length (valid_operations operations))
                       (length (valid_operations operations)) None)].
Proof.
  unfold pass. fold (valid_operations operations).
  destruct (valid_operations operations) as [| op0 sel] eqn:Hsel.
  - exists []. split; [constructor |]. reflexivity.
  - cbn [length Nat.eqb fst].
    match goal with
    | |- context [fold_left (batch_step env ?n) ?bs ?acc] =>
        destruct (batch_loop_log env n bs acc) as (rests & HF & EL)
    end.
    exists rests. split; [exact HF |].
    cbn [log notifyListeners emit set_isSyncing]. rewrite EL.
    cbn [fst log]. rewrite <- !app_assoc. reflexivity.
Qed.

(** The index on [synced] holds no row whose [synced] is a boolean. *)
Lemma getUnsyncedOperations_none d : getUnsyncedOperations d = [].
Proof.
  unfold getUnsyncedOperations.
  induction (syncQueue d) as [| op q IH]; [reflexivity | exact IH].
Qed.

(** What a call of [sync] that passes the guard comes to. *)
Lemma sync_past_guard env w :
  declines w = false ->
  sync env w =
  match read_error env with
  | Some msg =>
      (set_isSyncing false
         (notifyListeners (mkState error 0 0 (Some msg))
            (notifyListeners (mkState syncing 0 0 None) (set_isSyncing true w))),
       Rejected msg)
  | None =>
      (set_isSyncing false
         (notifyListeners (mkState success 0 0 None)
            (notifyListeners (mkState syncing 0 0 None) (set_isSyncing true w))),
       Fulfilled)
  end.
Proof.
  intros Hg. unfold sync. unfold declines in Hg. rewrite Hg.
  destruct (read_error env); [reflexivity |].
  now rewrite getUnsyncedOperations_none.
Qed.
(** ** C1: order of dispatch *)


(** C1 (amended).  Of the operations a pass has read from the queue it
    sends those with fewer than five failed attempts, in the order of the
    list it read, one batch after the other, the batches being consecutive
    slices of at most 50 cut by position and not by [entityId].  Within a
    batch every request is sent before any response is handled, whatever
    the [entityId]s; what follows the requests of a batch, before the next
    batch begins, holds no request and the settlement of every operation of
    that batch, in the order the responses arrive. *)
Theorem pass_sends_in_list_order env operations w :
  let selected := valid_operations operations in
  let batches := createBatches selected MAX_BATCH_SIZE in
  exists rests,
    Forall2 (fun batch rest =>
               requests rest = [] /\
               settlements rest = settle_order env batch /\
               settlements rest ≡ₚ batch) batches rests /\
    log (pass env operations w) =
      log w ++ concat (zip_with batch_events batches rests) ++
      [EvNotify (mkState success (length selected) (length selected) None)] /\
    requests (log (pass env operations w)) = requests (log w) ++ selected.
Proof.
  cbn zeta.
  destruct (pass_log env operations w) as (rests & HF & E).
  exists rests. split.
  { eapply Forall2_impl; [exact HF |].
    intros batch rest [Hr Hs]. split; [exact Hr |]. split; [exact Hs |].
    rewrite Hs. apply merge_sort_Permutation. }
  split; [exact E |].
  rewrite E, !requests_app, (requests_batches _ _ _ HF).
  unfold MAX_BATCH_SIZE. rewrite createBatches_concat.
  change (requests [EvNotify _]) with (@nil SyncOperation).
  now rewrite app_nil_r.
Qed.

(** C1, as stated, fails: [processBatch] sends two updates of one
    application before either has settled, whatever the order in which
    the responses arrive. *)
Lemma same_entity_sent_concurrently :
  ~ exists env,
      sequential_per_entity
        (log (processBatch env [first_edit; second_edit]
                (idle_world [first_edit; second_edit]))).
Proof.
  intros [env Hseq].
  destruct (processBatch_log env [first_edit; second_edit]
              (idle_world [first_edit; second_edit])) as (tail & E & _ & _).
  assert (H1 : log (processBatch env [first_edit; second_edit]
                      (idle_world [first_edit; second_edit])) !! 0
               = Some (EvFetch first_edit)) by (rewrite E; reflexivity).
  assert (H2 : log (processBatch env [first_edit; second_edit]
                      (idle_world [first_edit; second_edit])) !! 1
               = Some (EvFetch second_edit)) by (rewrite E; reflexivity).
  destruct (Hseq 0 1 first_edit second_edit H1 H2 ltac:(lia) eq_refl)
    as (k & o & Hk & _).
  lia.
Qed.

(** ** C4: the guard of [sync] *)

Lemma sync_guard env w :
  isSyncing w = true \/ isOnline w = false -> sync env w = (w, Fulfilled).
Proof.
  intros [H | H]; unfold sync; rewrite H; [| reflexivity].
  now rewrite orb_true_r.
Qed.

(** While no pass runs the flag is down; while one runs it is up and the
    pass is alone. *)
Lemma running_matches_flag s :
  reachable s -> snd s = if isSyncing (fst s) then 1 else 0.
Proof.
  induction 1 as [w Hw | s s' _ IH Hstep]; cbn.
  - now rewrite Hw.
  - destruct Hstep as [w n Hd | w n Hd | w n | w w' n Hsame]; cbn in *.
    + exact IH.
    + unfold declines in Hd. apply orb_false_elim in Hd as [_ Hs].
      rewrite Hs in IH. now rewrite IH.
    + destruct (isSyncing w); lia.
    + now rewrite Hsame.
Qed.

(** C4 (amended).  A call of [sync] made while a pass is running, or while
    the engine is not online, returns normally: its promise is fulfilled,
    no error is raised, nothing is dispatched and nothing changes.  The
    guard and the flag keep the number of running passes at one at most. *)
Theorem sync_declines_without_error :
  (forall env w,
      isSyncing w = true \/ isOnline w = false -> sync env w = (w, Fulfilled)) /\
  (forall w n, reachable (w, n) -> n <= 1).
Proof.
  split; [apply sync_guard |].
  intros w n H. apply running_matches_flag in H. cbn in H.
  destruct (isSyncing w); lia.
Qed.

Lemma sync_declines_without_error_witness :
  sync accepting busy_world = (busy_world, Fulfilled) /\
  sync accepting offline_world = (offline_world, Fulfilled).
Proof.
  split.
  - exact (proj1 sync_declines_without_error accepting busy_world
             (or_introl eq_refl)).
  - exact (proj1 sync_declines_without_error accepting offline_world
             (or_intror eq_refl)).
Defined.

(** C4, as stated, fails: neither call is rejected, with [AlreadyInProgress],
    [Offline] or anything else. *)
Lemma declined_sync_is_not_rejected :
  (~ exists msg, snd (sync accepting busy_world) = Rejected msg) /\
  (~ exists msg, snd (sync accepting offline_world) = Rejected msg).
Proof. split; intros [msg H]; discriminate H. Qed.

(** ** C6: retry delays *)

Lemma queue_get_update id f q :
  (forall op, op_id (f op) = op_id op) ->
  queue_get id (queue_update id f q) = f <$> queue_get id q.
Proof.
  intros Hid. unfold queue_get, queue_update.
  induction q as [| op q IH]; [reflexivity |]. cbn.
  destruct (String.eqb (op_id op) id) eqn:E.
  - rewrite Hid, E. reflexivity.
  - rewrite E. exact IH.
Qed.

Lemma incrementRetryCount_count id msg d :
  op_retryCount <$> queue_get id (syncQueue (incrementRetryCount id msg d)) =
  (fun n => n + 1) <$> (op_retryCount <$> queue_get id (syncQueue d)).
Proof.
  unfold incrementRetryCount.
  destruct (queue_get id (syncQueue d)) as [operation |] eqn:E.
  - cbn [syncQueue with_queue]. rewrite queue_get_update by reflexivity.
    rewrite E. reflexivity.
  - rewrite E. reflexivity.
Qed.

Lemma settle_failure env operation w :
  is_failure (fetch env operation) = true ->
  exists msg, settle env operation w = on_failure operation msg w.
Proof.
  unfold settle. destruct (fetch env operation) as [msg | st | c sd]; intros H.
  - now exists msg.
  - now eexists.
  - discriminate H.
Qed.

(** C6 (amended).  At a failure of an operation that has failed
    [retryCount] times before, the delay computed is
    [RETRY_DELAYS[min(retryCount, 4)]], read with the count before it is
    incremented: 1s, 2s, 4s, 8s, 16s at the first to fifth failure.  A retry
    timer with that delay is set at the first four failures only; the
    fifth reaches the limit and sets none.  Each failure adds one to the
    stored count. *)
Theorem retry_timer_after_failure env operation w :
  is_failure (fetch env operation) = true ->
  let w' := fst (processOperation env operation w) in
  retry_delay (op_retryCount operation) =
    match op_retryCount operation with
    | 0 => 1000%Z | 1 => 2000%Z | 2 => 4000%Z | 3 => 8000%Z | _ => 16000%Z
    end /\
  timers (log w') =
    timers (log w) ++
    match op_retryCount operation with
    | 0 => [1000%Z] | 1 => [2000%Z] | 2 => [4000%Z] | 3 => [8000%Z] | _ => []
    end /\
  op_retryCount <$> queue_get (op_id operation) (syncQueue (db w')) =
    (fun n => n + 1) <$>
      (op_retryCount <$> queue_get (op_id operation) (syncQueue (db w))).
Proof.
  intros Hf. cbn zeta. split; [| split].
  - destruct (op_retryCount operation) as [| [| [| [| [| n]]]]]; reflexivity.
  - unfold processOperation. cbn [fst log emit].
    destruct (settle_failure env operation (emit (EvFetch operation) w) Hf)
      as [msg ->].
    rewrite on_failure_log. cbn [log emit].
    rewrite !timers_app. cbn [timers omap]. unfold retry_timer.
    change (timers [EvFetch operation]) with (@nil Z).
    match goal with |- context [timers [EvSettled ?a ?b]] =>
      change (timers [EvSettled a b]) with (@nil Z) end.
    rewrite !app_nil_r.
    destruct (op_retryCount operation) as [| [| [| [| [| n]]]]]; reflexivity.
  - unfold processOperation. cbn [fst db emit].
    destruct (settle_failure env operation (emit (EvFetch operation) w) Hf)
      as [msg ->].
    rewrite on_failure_db. cbn [db emit]. apply incrementRetryCount_count.
Qed.

Lemma retry_timer_after_failure_witness :
  timers (log (fst (processOperation unreachable first_edit
                      (idle_world [first_edit])))) = [1000%Z].
Proof.
  exact (proj1 (proj2 (retry_timer_after_failure unreachable first_edit
                         (idle_world [first_edit]) eq_refl))).
Defined.

(** C6, as stated, fails at the fifth failure: when an operation that
    has failed four times fails again, [processOperation] computes the
    delay of 16s and sets no timer at all. *)
Lemma fifth_failure_sets_no_timer :
  ~ In 16000%Z
      (timers (log (fst (processOperation unreachable (queued "op-1" "app-1" 100 4)
                           (idle_world [queued "op-1" "app-1" 100 4]))))).
Proof. vm_compute. exact (fun H => H). Qed.

(** ** C3: conflict resolution on the client *)

Lemma queue_update_ids id f q :
  (forall op, op_id (f op) = op_id op) ->
  op_id <$> queue_update id f q = op_id <$> q.
Proof.
  intros Hid. unfold queue_update.
  induction q as [| op q IH]; [reflexivity |].
  cbn [map fmap list_fmap]. f_equal; [| exact IH].
  destruct (String.eqb (op_id op) id); [apply Hid | reflexivity].
Qed.

Lemma markOperationSynced_ids id d :
  op_id <$> syncQueue (markOperationSynced id d) = op_id <$> syncQueue d.
Proof. cbn. now apply queue_update_ids. Qed.

Lemma incrementRetryCount_ids id msg d :
  op_id <$> syncQueue (incrementRetryCount id msg d) = op_id <$> syncQueue d.
Proof.
  unfold incrementRetryCount. destruct (queue_get id (syncQueue d)); [| reflexivity].
  cbn. now apply queue_update_ids.
Qed.

(** The record tables are written through [put] only; the queue is not. *)
Lemma put_serverData_queue now e (sd : RowOf e) d d' :
  put_serverData now e sd d = Ok d' -> syncQueue d' = syncQueue d.
Proof.
  destruct e; cbn; unfold put_application, put_contact, put_document, bind;
    destruct (table_put _ _ _ _); intros H; inversion H; reflexivity.
Qed.






Lemma of_write_no_conflict r t result :
  Server.of_write r = Server.Done t true result -> False.
Proof. destruct r as [[t' row] |]; discriminate. Qed.

Lemma branch_conflict_means_server_newer user now rq t t' result :
  Server.application_branch user now rq t = Server.Done t' true result ->
  exists existing,
    result = Server.RRow existing /\
    (Server.rq_timestamp rq < app_updatedAt existing)%Z.
Proof.
  unfold Server.application_branch.
  destruct (Server.rq_operation rq);
    destruct (t !! Server.rq_entityId rq) as [existing |]; try discriminate.
  - destruct (_ <? _)%Z eqn:E.
    + intros H. inversion H. exists existing. split; [reflexivity | now apply Z.ltb_lt].
    + intros H. now apply of_write_no_conflict in H.
  - intros H. now apply of_write_no_conflict in H.
  - destruct (negb _); [discriminate |].
    destruct (_ <? _)%Z eqn:E.
    + intros H. inversion H. exists existing. split; [reflexivity | now apply Z.ltb_lt].
    + intros H. now apply of_write_no_conflict in H.
  - destruct (String.eqb _ _); discriminate.
Qed.

(** With the sync route of this repository the second case does not
    arise: the route reports a conflict only when its own copy is the
    newer one. *)
Lemma route_conflict_means_server_newer user now rq s s' body :
  Server.POST (Some user) (Some rq) now s = (s', Server.Reply body) ->
  Server.sb_conflict body = true ->
  exists existing,
    Server.sb_serverData body = Some existing /\
    (Server.rq_timestamp rq < app_updatedAt existing)%Z.
Proof.
  unfold Server.POST. intros H Hc.
  destruct (Server.rq_entity rq).
  - destruct (Server.application_branch user now rq (Server.s_applications s))
      as [t c result | |] eqn:E; try discriminate.
    inversion H; subst; clear H. cbn in Hc. subst c.
    apply branch_conflict_means_server_newer in E as (existing & -> & Hlt).
    exists existing. split; [reflexivity | exact Hlt].
  - inversion H; subst. discriminate Hc.
  - inversion H; subst. discriminate Hc.
Qed.

(** ** C2: the update branch of the sync route, and PATCH *)

Section UpdateOnServer.
Import Server.

Lemma assign_spread_version a data fields v :
  p_version fields = Some v -> app_version (assign a (spread data fields)) = v.
Proof. intros H. cbn. now rewrite H. Qed.

Lemma assign_spread_id a data fields :
  p_id fields = None ->
  app_id (assign a (spread data fields)) = over (p_id data) (app_id a).
Proof. intros H. cbn. now rewrite H. Qed.

(** A write either stores the new row, carrying the requested version,
    under the row's id, or throws and leaves the table alone. *)
Lemma prisma_update_version now id data fields v t existing :
  t !! id = Some existing ->
  p_version fields = Some v ->
  match prisma_update now id (spread data fields) t with
  | Ok (t', row) => app_version row = v /\ t' !! app_id row = Some row
  | Err _ => True
  end.
Proof.
  intros Hex Hv. unfold prisma_update. rewrite Hex.
  set (row := assign (set_field_updatedAt now existing) (spread data fields)).
  assert (Hrow : app_version row = v) by (apply assign_spread_version, Hv).
  destruct (String.eqb (app_id row) id) eqn:E.
  - apply String.eqb_eq in E. split; [exact Hrow |].
    rewrite E. apply lookup_insert_eq.
  - destruct (t !! app_id row); [exact I |].
    split; [exact Hrow | apply lookup_insert_eq].
Qed.





End UpdateOnServer.

(** ** C10: the version written by [updateApplication] *)

Lemma addToSyncQueue_tables id now type entity entityId data d d' :
  addToSyncQueue id now type entity entityId data d = Ok d' ->
  applications d' = applications d /\
  contacts d' = contacts d /\
  documents d' = documents d /\
  exists op,
    syncQueue d' = syncQueue d ++ [op] /\
    op_id op = id /\ op_type op = type /\ op_entity op = entity /\
    op_entityId op = entityId /\ op_data op = data /\
    op_synced op = false /\ op_retryCount op = 0.
Proof.
  unfold addToSyncQueue.
  destruct (queue_get id (syncQueue d)); [discriminate |].
  destruct (quota d); [discriminate |].
  intros H. inversion H; subst; clear H. cbn.
  repeat split; eexists; repeat split.
Qed.


Lemma update_application_queue id changes d :
  syncQueue (update_application id changes d) = syncQueue d.
Proof. unfold update_application. destruct (applications d !! id); reflexivity. Qed.

(** The record write of [updateApplication] stays, whatever becomes of
    the queue write. *)
Lemma updateApplication_record dr id updates d :
  applications (fst (updateApplication dr id updates d)) =
  applications (update_application id
                  (spread updates (update_fields (now dr) updates)) d).
Proof.
  unfold updateApplication.
  destruct (applications (update_application _ _ d) !! id); [| reflexivity].
  destruct (addToSyncQueue _ _ _ _ _ _ _) as [d2 |] eqn:E; [| reflexivity].
  apply addToSyncQueue_tables in E as [Ha _]. exact Ha.
Qed.




(** ** C8: the record write and the queue write of a local mutation *)

Lemma add_application_spec a d :
  match add_application a d with
  | Ok d1 =>
      applications d !! app_id a = None /\
      applications d1 = <[app_id a := a]> (applications d) /\
      syncQueue d1 = syncQueue d
  | Err _ => True
  end.
Proof.
  unfold add_application, table_add, bind.
  destruct (applications d !! app_id a); [exact I |].
  destruct (quota d); [exact I |]. cbn. auto.
Qed.

Lemma delete_application_spec id d :
  applications (delete_application id d) = delete id (applications d) /\
  syncQueue (delete_application id d) = syncQueue d.
Proof.
  unfold delete_application.
  destruct (applications d !! id) eqn:E; cbn; [auto |].
  split; [| reflexivity]. symmetry. now apply delete_id.
Qed.

Lemma queue_get_None id q :
  queue_get id q = None -> ~ In id (op_id <$> q).
Proof.
  unfold queue_get. induction q as [| x q IH]; intros H; [intros [] |].
  cbn [find] in H. destruct (String.eqb_spec (op_id x) id) as [Heq | Hne];
    [discriminate |].
  intros [Hx | Hin]; [contradiction | now apply IH].
Qed.

Lemma queue_get_app id q q' :
  queue_get id (q ++ q') =
  match queue_get id q with Some op => Some op | None => queue_get id q' end.
Proof.
  unfold queue_get. induction q as [| x q IH]; [reflexivity |].
  cbn [app find]. destruct (String.eqb (op_id x) id); [reflexivity | exact IH].
Qed.

Lemma addToSyncQueue_rows id now type entity entityId data d d' :
  addToSyncQueue id now type entity entityId data d = Ok d' ->
  exists op,
    queued_in op d d' /\
    op_id op = id /\ op_type op = type /\ op_entity op = entity /\
    op_entityId op = entityId /\ op_data op = data /\
    op_synced op = false /\ op_retryCount op = 0.
Proof.
  unfold addToSyncQueue.
  destruct (queue_get id (syncQueue d)) eqn:Hget; [discriminate |].
  destruct (quota d); [discriminate |].
  intros H. inversion H; subst; clear H.
  exists (mkOp id type entity entityId data now false 0 None).
  split; [| repeat split]. unfold queued_in.
  cbn [syncQueue with_queue op_id]. split.
  - intros o. rewrite in_app_iff. cbn [In]. intuition congruence.
  - rewrite queue_get_app, Hget. unfold queue_get. cbn.
    now rewrite String.eqb_refl.
Qed.

Lemma queued_in_same op d0 d d' :
  syncQueue d = syncQueue d0 -> queued_in op d d' -> queued_in op d0 d'.
Proof. unfold queued_in. now intros ->. Qed.

(** C8 (amended).  A local mutation writes the record first, as a write
    of its own, and adds the operation to the queue second.  When the
    mutation succeeds the record write is in place and its operation is in
    the queue, found under its id beside the rows that were there.  When it
    fails, the error reaches the caller and nothing has been queued: either
    the record write did not happen, or it happened and stays, with no
    operation for it in the queue. *)
Theorem record_then_queue dr d :
  (forall applicationData,
      let r := addApplication dr applicationData d in
      match snd r with
      | Ok a =>
          applications (fst r) !! app_id a = Some a /\
          exists op, queued_in op d (fst r) /\
                     op_type op = CREATE /\ op_entityId op = app_id a /\
                     op_synced op = false
      | Err _ =>
          syncQueue (fst r) = syncQueue d /\
          (fst r = d \/
           applications d !! recordId dr = None /\
           is_Some (applications (fst r) !! recordId dr))
      end) /\
  (forall id updates,
      let r := updateApplication dr id updates d in
      applications (fst r) =
        applications (update_application id
                        (spread updates (update_fields (now dr) updates)) d) /\
      match snd r with
      | Ok _ =>
          exists a op, applications (fst r) !! id = Some a /\
                       queued_in op d (fst r) /\
                       op_type op = UPDATE /\ op_entityId op = id /\
                       op_data op = to_patch a /\ op_synced op = false
      | Err _ => syncQueue (fst r) = syncQueue d
      end) /\
  (forall id,
      let r := deleteApplication dr id d in
      match snd r with
      | Ok _ =>
          applications (fst r) !! id = None /\
          exists op, queued_in op d (fst r) /\
                     op_type op = DELETE /\ op_entityId op = id /\
                     op_synced op = false
      | Err _ =>
          syncQueue (fst r) = syncQueue d /\
          (fst r = d \/ applications (fst r) = delete id (applications d))
      end).
Proof.
  split; [| split].
  - intros applicationData. cbn zeta. unfold addApplication.
    match goal with |- context [add_application ?a d] =>
      pose proof (add_application_spec a d) as Hadd;
      destruct (add_application a d) as [d1 |] eqn:E1 end; cbn [fst snd].
    + destruct Hadd as (Hnone & Happs & Hq).
      match goal with |- context [addToSyncQueue ?i ?n ?t ?e ?k ?p d1] =>
        destruct (addToSyncQueue i n t e k p d1) as [d2 |] eqn:E2 end;
        cbn [fst snd].
      * pose proof (addToSyncQueue_tables _ _ _ _ _ _ _ _ E2) as (Ha & _).
        apply addToSyncQueue_rows in E2
          as (op & Hin & _ & Ht & _ & He & _ & Hs & _).
        split; [rewrite Ha, Happs; apply lookup_insert_eq |].
        exists op. split; [now apply (queued_in_same op d d1) | auto].
      * split; [exact Hq |]. right. split; [exact Hnone |].
        rewrite Happs. cbn. rewrite lookup_insert_eq. eauto.
    + auto.
  - intros id updates. cbn zeta. split; [apply updateApplication_record |].
    unfold updateApplication.
    destruct (applications (update_application _ _ d) !! id) as [a |] eqn:Ea;
      cbn [fst snd]; [| apply update_application_queue].
    destruct (addToSyncQueue _ _ _ _ _ _ _) as [d2 |] eqn:E2; cbn [fst snd];
      [| apply update_application_queue].
    pose proof (addToSyncQueue_tables _ _ _ _ _ _ _ _ E2) as (Ha & _).
    apply addToSyncQueue_rows in E2
      as (op & Hin & _ & Ht & _ & He & Hd & Hs & _).
    exists a, op. rewrite Ha. split; [exact Ea |].
    split; [| auto].
    eapply queued_in_same; [| exact Hin]. apply update_application_queue.
  - intros id. cbn zeta. unfold deleteApplication.
    destruct (applications d !! id) eqn:Ea; cbn [fst snd]; [| auto].
    destruct (delete_application_spec id d) as [Hdel Hq].
    destruct (addToSyncQueue _ _ _ _ _ _ _) as [d2 |] eqn:E2; cbn [fst snd].
    + pose proof (addToSyncQueue_tables _ _ _ _ _ _ _ _ E2) as (Ha & _).
      apply addToSyncQueue_rows in E2
        as (op & Hin & _ & Ht & _ & He & _ & Hs & _).
      split; [rewrite Ha, Hdel; apply lookup_delete_eq |].
      exists op. split; [now apply (queued_in_same op d (delete_application id d)) | auto].
    + auto.
Qed.

Lemma record_then_queue_witness :
  syncQueue (fst (addApplication draw_9 acme_engineer (local_db [] 1))) = [] /\
  is_Some (applications (fst (addApplication draw_9 acme_engineer (local_db [] 1)))
             !! "app-9").
Proof.
  pose proof (proj1 (record_then_queue draw_9 (local_db [] 1)) acme_engineer) as H.
  cbn zeta in H.
  change (snd (addApplication draw_9 acme_engineer (local_db [] 1)))
    with (@Err Application "QuotaExceededError") in H.
  destruct H as [Hq [Hsame | [_ Hrec]]]; [| exact (conj Hq Hrec)].
  exfalso. apply (f_equal quota) in Hsame. vm_compute in Hsame. discriminate Hsame.
Defined.

(** C8, as stated, fails: with room for one more row, [addApplication]
    writes the record, the queue write is refused, and what is left is a
    record with no operation queued for it. *)
Lemma record_written_without_operation :
  ~ (is_Some (applications (fst (addApplication draw_9 acme_engineer (local_db [] 1)))
                !! "app-9") ->
     exists op,
       In op (syncQueue (fst (addApplication draw_9 acme_engineer (local_db [] 1)))) /\
       op_entityId op = "app-9").
Proof.
  intros H. destruct H as (op & Hin & _).
  - vm_compute. eauto.
  - vm_compute in Hin. exact Hin.
Qed.

(** ** C5: the retry limit *)

Import System.


Lemma queue_get_app_l id q q' op :
  queue_get id q = Some op -> queue_get id (q ++ q') = Some op.
Proof.
  unfold queue_get. induction q as [| x q IH]; [discriminate |]. cbn.
  destruct (String.eqb (op_id x) id); [auto | exact IH].
Qed.












(** A call of [sync] leaves the database as it is and sends nothing. *)
Lemma sync_db env w : db (fst (sync env w)) = db w.
Proof.
  destruct (declines w) eqn:Hd.
  - unfold sync. unfold declines in Hd. now rewrite Hd.
  - rewrite (sync_past_guard env w Hd). now destruct (read_error env).
Qed.

Lemma sync_requests env w :
  requests (log (fst (sync env w))) = requests (log w).
Proof.
  destruct (declines w) eqn:Hd.
  - unfold sync. unfold declines in Hd. now rewrite Hd.
  - rewrite (sync_past_guard env w Hd).
    destruct (read_error env); cbn; rewrite !requests_app; cbn;
      now rewrite !app_nil_r.
Qed.


(** The transaction of [pullFromServer] does not touch the queue. *)
Lemma put_all_queue {A} (put : A -> JobTrackerDB -> Result JobTrackerDB) rows d d' :
  (forall x d0 d1, put x d0 = Ok d1 -> syncQueue d1 = syncQueue d0) ->
  put_all put rows d = Ok d' -> syncQueue d' = syncQueue d.
Proof.
  intros Hput. destruct rows as [l |]; cbn; [| intros H; now inversion H].
  revert d. induction l as [| x l IH]; intros d; cbn.
  - intros H. now inversion H.
  - destruct (put x d) as [d1 |] eqn:E.
    + intros H. rewrite (IH _ H). eauto.
    + intros H. exfalso. clear -H.
      induction l as [| y l IH]; cbn in H; [discriminate | auto].
  Qed.

Lemma put_application_queue a d d' :
  put_application a d = Ok d' -> syncQueue d' = syncQueue d.
Proof.
  unfold put_application, bind. destruct (table_put _ _ _ _); intros H; now inversion H.
Qed.

Lemma put_application_stamped_queue now a d d' :
  put_application (stamp now a) d = Ok d' -> syncQueue d' = syncQueue d.
Proof. apply put_application_queue. Qed.

Lemma put_contact_queue c d d' :
  put_contact c d = Ok d' -> syncQueue d' = syncQueue d.
Proof. apply (put_serverData_queue 0%Z contact c). Qed.

Lemma put_document_queue c d d' :
  put_document c d = Ok d' -> syncQueue d' = syncQueue d.
Proof. apply (put_serverData_queue 0%Z document c). Qed.

Lemma pull_body_queue now data d d' :
  pull_body now data d = Ok d' -> syncQueue d' = syncQueue d.
Proof.
  unfold pull_body, bind.
  destruct (put_all _ (pd_applications data) d) as [d1 |] eqn:E1; [| discriminate].
  destruct (put_all _ (pd_contacts data) d1) as [d2 |] eqn:E2; [| discriminate].
  intros E3.
  apply put_all_queue in E1;
    [| intros x d0 d3 Hp; exact (put_application_stamped_queue _ _ _ _ Hp)].
  apply put_all_queue in E2; [| exact put_contact_queue].
  apply put_all_queue in E3; [| exact put_document_queue].
  congruence.
Qed.

Lemma pullFromServer_queue env userId w :
  syncQueue (db (fst (pullFromServer env userId w))) = syncQueue (db w) /\
  log (fst (pullFromServer env userId w)) = log w.
Proof.
  unfold pullFromServer, transaction.
  destruct (negb (isOnline w)); [auto |].
  destruct (pull_fetch env _) as [msg | st | data]; [auto | auto |].
  destruct (pull_body _ data (db w)) as [d |] eqn:E; [| auto].
  cbn. split; [now apply pull_body_queue in E | reflexivity].
Qed.











(** ** C7: the pull path *)

Lemma fold_put_failed {A} (put : A -> JobTrackerDB -> Result JobTrackerDB) l msg :
  fold_left (fun r x => bind r (put x)) l (Err msg) = Err msg.
Proof. induction l as [| x l IH]; [reflexivity | exact IH]. Qed.

(** What a run of [put]s leaves alone. *)
Lemma put_all_keeps {A B} (proj : JobTrackerDB -> B)
  (put : A -> JobTrackerDB -> Result JobTrackerDB) rows d d' :
  (forall x d0 d1, put x d0 = Ok d1 -> proj d1 = proj d0) ->
  put_all put rows d = Ok d' -> proj d' = proj d.
Proof.
  intros Hput. destruct rows as [l |]; cbn; [| intros H; now inversion H].
  revert d. induction l as [| x l IH]; intros d; cbn.
  - intros H. now inversion H.
  - destruct (put x d) as [d1 |] eqn:E.
    + intros H. rewrite (IH _ H). eauto.
    + rewrite fold_put_failed. discriminate.
Qed.

Lemma put_application_table a d d' :
  put_application a d = Ok d' ->
  applications d' = <[app_id a := a]> (applications d).
Proof.
  unfold put_application, table_put, bind.
  destruct (applications d !! app_id a); [| destruct (quota d)];
    intros H; inversion H; reflexivity.
Qed.

Lemma put_contact_applications c d d' :
  put_contact c d = Ok d' -> applications d' = applications d.
Proof.
  unfold put_contact, bind. destruct (table_put _ _ _ _); intros H; now inversion H.
Qed.

Lemma put_document_applications c d d' :
  put_document c d = Ok d' -> applications d' = applications d.
Proof.
  unfold put_document, bind. destruct (table_put _ _ _ _); intros H; now inversion H.
Qed.

Lemma put_contact_table c d d' :
  put_contact c d = Ok d' ->
  contacts d' = <[contact_id c := c]> (contacts d).
Proof.
  unfold put_contact, table_put, bind.
  destruct (contacts d !! contact_id c); [| destruct (quota d)];
    intros H; inversion H; reflexivity.
Qed.

Lemma put_document_table x d d' :
  put_document x d = Ok d' ->
  documents d' = <[doc_id x := x]> (documents d).
Proof.
  unfold put_document, table_put, bind.
  destruct (documents d !! doc_id x); [| destruct (quota d)];
    intros H; inversion H; reflexivity.
Qed.

Lemma put_document_contacts x d d' :
  put_document x d = Ok d' -> contacts d' = contacts d.
Proof.
  unfold put_document, bind. destruct (table_put _ _ _ _); intros H; now inversion H.
Qed.

(** After the rows of a response are put into their table, each is stored
    under its key: itself, or a later row of the response with that key. *)
Lemma put_all_table {A} (table : JobTrackerDB -> gmap string A) (key : A -> string)
  (stored : A -> A) (put : A -> JobTrackerDB -> Result JobTrackerDB) l d d' :
  (forall x d0 d1, put x d0 = Ok d1 -> table d1 = <[key x := stored x]> (table d0)) ->
  put_all put (Some l) d = Ok d' ->
  (forall row, In row l ->
     exists row', In row' l /\ key row' = key row /\
                  table d' !! key row = Some (stored row')) /\
  (forall k, (forall row, In row l -> key row <> k) -> table d' !! k = table d !! k).
Proof.
  intros Hput. cbn [put_all]. revert d.
  induction l as [| x l IH]; intros d; cbn [fold_left bind].
  - intros H. inversion H. split; [intros row [] | reflexivity].
  - destruct (put x d) as [d1 |] eqn:E; [| rewrite fold_put_failed; discriminate].
    intros H. destruct (IH d1 H) as [Hin Hout]. apply Hput in E.
    assert (Hx : exists row', In row' (x :: l) /\ key row' = key x /\
                   table d' !! key x = Some (stored row')).
    { destruct (existsb (fun y => String.eqb (key y) (key x)) l) eqn:Ex.
      - apply existsb_exists in Ex as (y & Hy & Heq). apply String.eqb_eq in Heq.
        destruct (Hin y Hy) as (row' & Hr & Hid & Hl).
        exists row'. rewrite <- Heq. split; [now right | split; [exact Hid | exact Hl]].
      - exists x. split; [now left | split; [reflexivity |]].
        rewrite Hout, E; [apply lookup_insert_eq |].
        intros y Hy Heq.
        assert (existsb (fun y => String.eqb (key y) (key x)) l = true)
          by (apply existsb_exists; exists y; split;
              [exact Hy | now apply String.eqb_eq]).
        congruence. }
    split.
    + intros row [<- | Hrow]; [exact Hx |].
      destruct (Hin row Hrow) as (row' & Hr & Hid & Hl).
      exists row'. split; [now right | auto].
    + intros k Hk. rewrite Hout by (intros row Hr; apply Hk; now right).
      rewrite E. apply lookup_insert_ne. apply Hk. now left.
Qed.

(** Without [lastSyncedAt] the route returns every application of the
    caller. *)
Lemma pull_GET_unfiltered user now s row :
  In row (Server.rows (Server.s_applications s)) ->
  app_userId row = user ->
  match Server.pull_GET (Some user) None now s with
  | Server.Reply body => In row (Server.pb_applications body)
  | Server.Failure _ _ => False
  end.
Proof.
  intros Hin Hu. cbn.
  apply list_elem_of_In. rewrite merge_sort_Permutation. apply list_elem_of_In.
  apply filter_In. split; [exact Hin |].
  unfold Server.pull_where. rewrite Hu, String.eqb_refl. reflexivity.
Qed.

(** With [lastSyncedAt] the route returns the caller's applications
    changed strictly after it. *)
Lemma pull_GET_rows user since now s body :
  Server.pull_GET (Some user) since now s = Server.Reply body ->
  forall row, In row (Server.pb_applications body) ->
    In row (Server.rows (Server.s_applications s)) /\ app_userId row = user /\
    match since with Some t => (t < app_updatedAt row)%Z | None => True end.
Proof.
  cbn. intros H. inversion H; subst; clear H. cbn. intros row Hin.
  apply list_elem_of_In in Hin. rewrite merge_sort_Permutation in Hin.
  apply list_elem_of_In, filter_In in Hin as [Hin Hw].
  unfold Server.pull_where in Hw. apply andb_prop in Hw as [Hu Ht].
  apply String.eqb_eq in Hu. split; [exact Hin | split; [exact Hu |]].
  destruct since; [now apply Z.ltb_lt | exact I].
Qed.

(** C7 (amended).  [pullFromServer] sends no checkpoint, so the route
    returns, and the client applies, every application of the caller,
    whatever its [updatedAt].  The fetched records are written to the Local
    Store as one all-or-nothing transaction: when the pull fails no record
    change is visible and the store's [lastSyncedAt] is unchanged; when it
    succeeds every fetched application, contact and document is stored
    (an application stamped with the current time) and [lastSyncedAt] is
    then set to the client's clock.  The queue is not touched either way. *)
Theorem pull_is_unfiltered_and_atomic session server_now s env now userId a :
  pull_fetch env = pull_transport session server_now s ->
  let a' := store_pullFromServer env now userId a in
  match snd (pullFromServer env userId (world a)) with
  | Rejected _ => a' = a
  | Fulfilled =>
      exists user body,
        session = Some user /\
        Server.pull_GET (Some user) None server_now s = Server.Reply body /\
        (forall row,
            In row (Server.rows (Server.s_applications s)) ->
            app_userId row = user -> In row (Server.pb_applications body)) /\
        (forall row,
            In row (Server.pb_applications body) ->
            exists row',
              In row' (Server.pb_applications body) /\ app_id row' = app_id row /\
              applications (db (world a')) !! app_id row =
                Some (stamp (pull_clock env) row')) /\
        (forall c,
            In c (Server.pb_contacts body) ->
            exists c',
              In c' (Server.pb_contacts body) /\ contact_id c' = contact_id c /\
              contacts (db (world a')) !! contact_id c = Some c') /\
        (forall x,
            In x (Server.pb_documents body) ->
            exists x',
              In x' (Server.pb_documents body) /\ doc_id x' = doc_id x /\
              documents (db (world a')) !! doc_id x = Some x') /\
        ss_lastSyncedAt (store a') = Some now /\
        syncQueue (db (world a')) = syncQueue (db (world a))
  end.
Proof.
  intros Hnet. cbn zeta. unfold store_pullFromServer.
  unfold pullFromServer. rewrite Hnet.
  destruct (negb (isOnline (world a))) eqn:Hon;
    [destruct a; reflexivity |].
  unfold pull_transport. cbn [pr_lastSyncedAt].
  destruct session as [user |]; [| destruct a; reflexivity].
  destruct (Server.pull_GET (Some user) None server_now s) as [body | st e] eqn:Hget;
    [| destruct a; reflexivity].
  unfold transaction.
  match goal with |- context [pull_body ?n ?data (db (world a))] =>
    destruct (pull_body n data (db (world a))) as [d' |] eqn:Hbody end;
    [| destruct a; reflexivity].
  cbn [fst snd world store db with_db synced_at ss_lastSyncedAt].
  exists user, body. split; [reflexivity |]. split; [exact Hget |].
  split.
  { intros row Hrow Hu.
    pose proof (pull_GET_unfiltered user server_now s row Hrow Hu) as Hfetched.
    now rewrite Hget in Hfetched. }
  pose proof (pull_body_queue _ _ _ _ Hbody) as Hqueue.
  unfold pull_body, bind in Hbody.
  cbn [pd_applications pd_contacts pd_documents] in Hbody.
  match type of Hbody with context [put_all ?p (Some ?l) (db (world a))] =>
    destruct (put_all p (Some l) (db (world a))) as [d1 |] eqn:E1 end;
    [| discriminate].
  match type of Hbody with context [put_all put_contact ?l d1] =>
    destruct (put_all put_contact l d1) as [d2 |] eqn:E2 end; [| discriminate].
  pose proof (put_all_keeps applications _ _ _ _ put_contact_applications E2) as Ka2.
  pose proof (put_all_keeps applications _ _ _ _ put_document_applications Hbody) as Ka3.
  pose proof (put_all_keeps contacts _ _ _ _ put_document_contacts Hbody) as Kc3.
  apply (put_all_table applications app_id (stamp (pull_clock env))) in E1 as [Hin1 _];
    [| intros x d0 d3 Hp; exact (put_application_table _ _ _ Hp)].
  apply (put_all_table contacts contact_id (fun c => c)) in E2 as [Hin2 _];
    [| exact put_contact_table].
  apply (put_all_table documents doc_id (fun x => x)) in Hbody as [Hin3 _];
    [| exact put_document_table].
  split; [| split; [| split; [exact Hin3 | split; [reflexivity | exact Hqueue]]]].
  - intros row Hrow. destruct (Hin1 row Hrow) as (row' & Hr & Hid & Hl).
    exists row'. rewrite Ka3, Ka2. auto.
  - intros c Hc. destruct (Hin2 c Hc) as (c' & Hr & Hid & Hl).
    exists c'. rewrite Kc3. auto.
Qed.

Lemma pull_is_unfiltered_and_atomic_witness :
  ss_lastSyncedAt (store (store_pullFromServer pulling 200 "u1" synced_at_100))
  = Some 200%Z.
Proof.
  pose proof (pull_is_unfiltered_and_atomic (Some "u1") 500
                (server_holding (server_copy 50 3)) pulling 200 "u1"
                synced_at_100 eq_refl) as H.
  cbn zeta in H.
  change (snd (pullFromServer pulling "u1" (world synced_at_100)))
    with Fulfilled in H.
  destruct H as (user & body & _ & _ & _ & _ & _ & _ & Hs & _).
  exact Hs.
Defined.

(** C7, as stated, fails: a client that last synced at time 100 pulls, and
    the record the server last changed at time 50 is fetched and stored
    all the same. *)
Lemma pull_ignores_the_checkpoint :
  ~ map_Forall (fun _ row => (100 < app_updatedAt row)%Z)
      (applications (db (world (fst (pullData pulling 200 (Some "u1") synced_at_100))))).
Proof.
  intros H.
  assert (Hrow : applications
                   (db (world (fst (pullData pulling 200 (Some "u1") synced_at_100))))
                   !! "app-1" = Some (stamp 600 (server_copy 50 3)))
    by (vm_compute; reflexivity).
  apply H in Hrow. cbn in Hrow. lia.
Qed.

(* ===================================================================== *)
(** * Further properties of the code *)
(* ===================================================================== *)

Import Observe.

(** ** [createBatches] *)

Lemma batches_from_lookup {T} (items : list T) b k : forall i,
  batches_from items b i !! k =
  if i + k * S b <? length items
  then Some (slice (i + k * S b) (i + k * S b + S b) items)
  else None.
Proof.
  induction k as [| k IH]; intros i.
  - rewrite Nat.mul_0_l, Nat.add_0_r.
    destruct (Nat.ltb_spec i (length items)) as [Hlt | Hge].
    + now rewrite batches_from_step.
    + now rewrite batches_from_done.
  - destruct (Nat.ltb_spec i (length items)) as [Hlt | Hge].
    + rewrite batches_from_step by exact Hlt. cbn [lookup list_lookup].
      change (batches_from items b (i + S b) !! k =
              if i + S k * S b <? length items
              then Some (slice (i + S k * S b) (i + S k * S b + S b) items)
              else None).
      rewrite IH. replace (i + S b + k * S b) with (i + S k * S b) by lia.
      reflexivity.
    + rewrite batches_from_done by exact Hge.
      destruct (Nat.ltb_spec (i + S k * S b) (length items)); [lia | reflexivity].
Qed.

Lemma batches_from_length {T} (items : list T) b i :
  length (batches_from items b i) = (length items - i + b) / S b.
Proof.
  remember (length items - i) as m eqn:Hm.
  revert i Hm. induction m as [m IH] using lt_wf_ind. intros i Hm.
  destruct (lt_dec i (length items)) as [Hlt | Hge].
  - rewrite batches_from_step by exact Hlt. cbn [length].
    rewrite (IH (length items - (i + S b))) by lia.
    replace (m + b) with ((m - 1) + 1 * S b) by lia.
    rewrite Nat.div_add by lia.
    destruct (le_lt_dec (S b) m) as [Hfull | Hpart].
    + replace (length items - (i + S b) + b) with (m - 1) by lia. lia.
    + replace (length items - (i + S b) + b) with b by lia.
      rewrite !Nat.div_small by lia. reflexivity.
  - rewrite batches_from_done by lia.
    replace m with 0 by lia. rewrite Nat.div_small by lia. reflexivity.
Qed.

(** X1.  [createBatches] with a batch size of [S b] cuts the list at the
    multiples of the batch size: batch [k] is [items.slice(k * size,
    k * size + size)] as long as [k * size] is inside the list, there
    are [ceil(n / size)] batches, and so every batch but the last is full. *)
Theorem createBatches_slices {T} (items : list T) (b : nat) :
  let size := S b in
  let batches := createBatches items size in
  (forall k,
      batches !! k =
      if k * size <? length items
      then Some (slice (k * size) (k * size + size) items)
      else None) /\
  length batches = (length items + b) / size /\
  (forall k batch,
      batches !! k = Some batch ->
      length batch = Nat.min size (length items - k * size)).
Proof.
  cbn zeta. unfold createBatches.
  assert (Hk : forall k,
             batches_from items b 0 !! k =
             if k * S b <? length items
             then Some (slice (k * S b) (k * S b + S b) items) else None)
    by (intros k; apply (batches_from_lookup items b k 0)).
  split; [exact Hk |]. split.
  - rewrite batches_from_length. now rewrite Nat.sub_0_r.
  - intros k batch Hb. rewrite Hk in Hb.
    destruct (k * S b <? length items); [| discriminate].
    inversion Hb; subst. rewrite slice_length. lia.
Qed.

(** ** A pass: notifications and flags *)

Lemma notifications_app tr1 tr2 :
  notifications (tr1 ++ tr2) = notifications tr1 ++ notifications tr2.
Proof. apply omap_app. Qed.

Lemma retry_timer_no_notification operation :
  notifications (retry_timer operation) = [].
Proof. unfold retry_timer. destruct (_ <? _); reflexivity. Qed.

Lemma settled_notifications env w operation :
  notifications (log (settled env w operation)) = notifications (log w).
Proof.
  unfold settled. cbn [log emit]. rewrite notifications_app.
  change (notifications [EvSettled _ _]) with (@nil SyncState).
  rewrite app_nil_r.
  destruct (settle_log env operation w) as [-> | ->]; [reflexivity |].
  now rewrite notifications_app, retry_timer_no_notification, app_nil_r.
Qed.

Lemma settle_flags env operation w :
  isSyncing (fst (settle env operation w)) = isSyncing w /\
  isOnline (fst (settle env operation w)) = isOnline w.
Proof.
  unfold settle, on_failure.
  destruct (fetch env operation) as [msg | st | [] [sd |]]; cbn [fst];
    try destruct (resolveConflict _ _ _ _); cbn [fst];
    try destruct (_ <? _); split; reflexivity.
Qed.

Lemma processBatch_quiet env batch w :
  notifications (log (processBatch env batch w)) = notifications (log w) /\
  isSyncing (processBatch env batch w) = isSyncing w /\
  isOnline (processBatch env batch w) = isOnline w.
Proof.
  unfold processBatch.
  set (started := fold_left (fun w op => emit (EvFetch op) w) batch w).
  assert (Hs : notifications (log started) = notifications (log w) /\
               isSyncing started = isSyncing w /\ isOnline started = isOnline w).
  { subst started. clear env. revert w.
    induction batch as [| op batch IH]; intros w; [auto |].
    cbn [fold_left]. destruct (IH (emit (EvFetch op) w)) as (-> & -> & ->).
    cbn [log emit isSyncing isOnline]. rewrite notifications_app.
    change (notifications [EvFetch op]) with (@nil SyncState).
    now rewrite app_nil_r. }
  destruct Hs as (<- & <- & <-). generalize started. clear started.
  induction (settle_order env batch) as [| op ops IH]; intros w0; [auto |].
  cbn [fold_left]. destruct (IH (settled env w0 op)) as (-> & -> & ->).
  rewrite settled_notifications. unfold settled. cbn [isSyncing isOnline emit].
  destruct (settle_flags env op w0) as [-> ->]. auto.
Qed.

Lemma batch_loop_quiet env n batches acc :
  notifications (log (fst (fold_left (batch_step env n) batches acc))) =
    notifications (log (fst acc)) ++
    ((fun c => mkState syncing c n None) <$>
       running (snd acc) (length <$> batches)) /\
  isSyncing (fst (fold_left (batch_step env n) batches acc)) = isSyncing (fst acc) /\
  isOnline (fst (fold_left (batch_step env n) batches acc)) = isOnline (fst acc).
Proof.
  revert acc. induction batches as [| batch batches IH]; intros acc.
  - cbn. now rewrite app_nil_r.
  - cbn [fold_left]. destruct (IH (batch_step env n acc batch)) as (-> & -> & ->).
    unfold batch_step. cbn [fst snd log isSyncing isOnline notifyListeners emit].
    destruct (processBatch_quiet env batch (fst acc)) as (Hn & -> & ->).
    rewrite notifications_app, Hn. cbn [fmap list_fmap running].
    change (notifications [EvNotify ?s]) with [s].
    rewrite <- app_assoc. auto.
Qed.

Lemma running_batches {T} (items : list T) b k : forall i c,
  running c (length <$> batches_from items b i) !! k =
  if i + k * S b <? length items
  then Some (c + (Nat.min (i + (k + 1) * S b) (length items) - i))
  else None.
Proof.
  induction k as [| k IH]; intros i c.
  - rewrite Nat.mul_0_l, Nat.add_0_r.
    destruct (Nat.ltb_spec i (length items)) as [Hlt | Hge].
    + rewrite batches_from_step by exact Hlt. cbn [fmap list_fmap running].
      cbn [lookup list_lookup]. rewrite slice_length. f_equal. lia.
    + now rewrite batches_from_done.
  - destruct (Nat.ltb_spec i (length items)) as [Hlt | Hge].
    + rewrite batches_from_step by exact Hlt. cbn [fmap list_fmap running].
      cbn [lookup list_lookup].
      change (running (c + length (slice i (i + S b) items))
                (length <$> batches_from items b (i + S b)) !! k =
              if i + S k * S b <? length items
              then Some (c + (Nat.min (i + (S k + 1) * S b) (length items) - i))
              else None).
      rewrite IH, slice_length.
      replace (i + S b + k * S b) with (i + S k * S b) by lia.
      destruct (Nat.ltb_spec (i + S k * S b) (length items)) as [Hin | Hout];
        [| reflexivity].
      f_equal. lia.
    + rewrite batches_from_done by exact Hge.
      destruct (Nat.ltb_spec (i + S k * S b) (length items)); [lia | reflexivity].
Qed.

Lemma sync_notifies env w :
  declines w = false ->
  notifications (log (fst (sync env w))) =
    notifications (log w) ++
    [mkState syncing 0 0 None;
     match read_error env with
     | Some msg => mkState error 0 0 (Some msg)
     | None => mkState success 0 0 None
     end] /\
  isSyncing (fst (sync env w)) = false /\
  isOnline (fst (sync env w)) = isOnline w.
Proof.
  intros Hd. rewrite (sync_past_guard env w Hd).
  destruct (read_error env) as [msg |]; cbn [fst snd log isSyncing isOnline
    set_isSyncing notifyListeners emit];
    rewrite !notifications_app; cbn; rewrite <- app_assoc; auto.
Qed.

(** X2.  What a pass notifies.  From the operations it has read, a pass
    notifies after each batch of the operations completed so far out of the
    [n] it kept, which after batch [k] is [min((k + 1) * 50, n)], and last
    of [success n/n], whatever became of the requests; it ends with
    [isSyncing] lowered and [isOnline] as it found it.  The read itself
    returns none of the rows of the queue, whose [synced] is a boolean and
    so is not in the index the read goes through: a call of [sync] that
    passes the guard notifies [syncing 0/0] and then [success 0/0], sends
    no request and leaves the database as it is; when the read throws, it
    notifies the error after [syncing 0/0] and is rejected with it. *)
Theorem sync_reports_progress env :
  (forall operations w,
      let n := length (valid_operations operations) in
      let completed :=
        running 0 (length <$> createBatches (valid_operations operations)
                                MAX_BATCH_SIZE) in
      notifications (log (pass env operations w)) =
        notifications (log w) ++
        ((fun c => mkState syncing c n None) <$> completed) ++
        [mkState success n n None] /\
      (forall k c, completed !! k = Some c -> c = Nat.min ((k + 1) * 50) n) /\
      isSyncing (pass env operations w) = false /\
      isOnline (pass env operations w) = isOnline w) /\
  (forall w,
      declines w = false ->
      getUnsyncedOperations (db w) = [] /\
      notifications (log (fst (sync env w))) =
        notifications (log w) ++
        [mkState syncing 0 0 None;
         match read_error env with
         | Some msg => mkState error 0 0 (Some msg)
         | None => mkState success 0 0 None
         end] /\
      snd (sync env w) =
        match read_error env with
        | Some msg => Rejected msg
        | None => Fulfilled
        end /\
      db (fst (sync env w)) = db w /\
      requests (log (fst (sync env w))) = requests (log w) /\
      isSyncing (fst (sync env w)) = false /\
      isOnline (fst (sync env w)) = isOnline w).
Proof.
  split.
  - intros operations w. cbn zeta. split; [| split].
    + unfold pass. fold (valid_operations operations).
      destruct (valid_operations operations) as [| op0 sel] eqn:Hsel.
      * cbn. rewrite !notifications_app. reflexivity.
      * cbn [length Nat.eqb fst log notifyListeners emit set_isSyncing].
        rewrite notifications_app.
        match goal with |- context [fold_left (batch_step env ?n) ?bs ?acc] =>
          destruct (batch_loop_quiet env n bs acc) as (-> & _ & _) end.
        cbn [fst snd log]. cbn [notifications omap].
        rewrite <- !app_assoc. reflexivity.
    + intros k c Hk. unfold MAX_BATCH_SIZE, createBatches in Hk.
      rewrite running_batches in Hk.
      destruct (0 + k * 50 <? _); [| discriminate].
      inversion Hk. lia.
    + unfold pass.
      destruct (length _ =? 0); cbn [fst isSyncing isOnline set_isSyncing
        notifyListeners emit]; [auto |].
      match goal with |- context [fold_left (batch_step env ?n) ?bs ?acc] =>
        destruct (batch_loop_quiet env n bs acc) as (_ & _ & ->) end.
      cbn. auto.
  - intros w Hd. split; [apply getUnsyncedOperations_none |].
    rewrite sync_db, sync_requests, (sync_past_guard env w Hd).
    destruct (read_error env) as [msg |]; cbn [fst snd log isSyncing isOnline
      set_isSyncing notifyListeners emit];
      rewrite !notifications_app; cbn; rewrite <- app_assoc; auto 10.
Qed.

Lemma sync_reports_progress_witness :
  notifications
    (log (fst (sync unreachable (idle_world [first_edit; second_edit]))))
  = [mkState syncing 0 0 None; mkState success 0 0 None].
Proof.
  exact (proj1 (proj2 (proj2 (sync_reports_progress unreachable)
                         (idle_world [first_edit; second_edit]) eq_refl))).
Defined.

(** ** A pass whose requests are all accepted *)

Lemma settle_accepted env operation w :
  is_accepted (fetch env operation) = true ->
  settle env operation w =
  (with_db w (markOperationSynced (op_id operation) (db w)), Fulfilled).
Proof.
  unfold settle. destruct (fetch env operation) as [msg | st | [] sd];
    try discriminate. reflexivity.
Qed.

Lemma marked_ext ids ids' q :
  (forall x, x ∈ ids <-> x ∈ ids') -> marked ids q = marked ids' q.
Proof.
  intros H. unfold marked. apply list_fmap_ext. intros _ o _.
  now rewrite (bool_decide_ext _ _ (H (op_id o))).
Qed.

Lemma marked_nil q : marked [] q = q.
Proof.
  unfold marked. induction q as [| o q IH]; [reflexivity |].
  cbn [fmap list_fmap]. now f_equal.
Qed.

Lemma marked_step id ids q :
  queue_update id set_synced (marked ids q) = marked (id :: ids) q.
Proof.
  unfold queue_update, marked. change (@List.map) with (@fmap list _).
  rewrite <- list_fmap_compose. apply list_fmap_ext. intros _ o _. cbn.
  destruct (decide (op_id o ∈ ids)) as [Hin | Hout].
  - rewrite (bool_decide_eq_true_2 _ Hin).
    rewrite bool_decide_eq_true_2 by (apply elem_of_cons; now right).
    cbn [op_id set_synced]. now destruct (String.eqb (op_id o) id).
  - rewrite (bool_decide_eq_false_2 _ Hout).
    destruct (String.eqb_spec (op_id o) id) as [E | E].
    + rewrite bool_decide_eq_true_2 by (apply elem_of_cons; now left).
      reflexivity.
    + rewrite bool_decide_eq_false_2; [reflexivity |].
      intros H. apply elem_of_cons in H as [H | H]; congruence.
Qed.

(** The database once the rows with an id in [ids] are marked synced. *)
Lemma accepted_settle_all env d0 ops : forall ids w,
  (forall op, is_accepted (fetch env op) = true) ->
  db w = with_queue d0 (marked ids (syncQueue d0)) (quota d0) ->
  db (fold_left (settled env) ops w) =
  with_queue d0 (marked (rev (op_id <$> ops) ++ ids) (syncQueue d0)) (quota d0).
Proof.
  induction ops as [| op ops IH]; intros ids w Hacc Hw; [exact Hw |].
  cbn [fold_left fmap list_fmap rev]. rewrite <- app_assoc. cbn [app].
  apply IH; [exact Hacc |].
  unfold settled. cbn [db emit]. rewrite settle_accepted by apply Hacc.
  cbn [fst db with_db]. rewrite Hw. unfold markOperationSynced.
  cbn [syncQueue with_queue quota applications contacts documents].
  now rewrite marked_step.
Qed.

Lemma accepted_processBatch env d0 batch ids w :
  (forall op, is_accepted (fetch env op) = true) ->
  db w = with_queue d0 (marked ids (syncQueue d0)) (quota d0) ->
  db (processBatch env batch w) =
  with_queue d0 (marked (ids ++ (op_id <$> batch)) (syncQueue d0)) (quota d0).
Proof.
  intros Hacc Hw. unfold processBatch.
  rewrite (accepted_settle_all env d0 _ ids); [| exact Hacc | now rewrite start_all_db].
  f_equal. apply marked_ext. intros x.
  rewrite !elem_of_app, (list_elem_of_In (rev _)), <- in_rev, <- list_elem_of_In.
  unfold settle_order. rewrite merge_sort_Permutation. tauto.
Qed.

Lemma accepted_batch_loop env d0 n batches : forall ids acc,
  (forall op, is_accepted (fetch env op) = true) ->
  db (fst acc) = with_queue d0 (marked ids (syncQueue d0)) (quota d0) ->
  db (fst (fold_left (batch_step env n) batches acc)) =
  with_queue d0 (marked (ids ++ (op_id <$> concat batches)) (syncQueue d0))
             (quota d0).
Proof.
  induction batches as [| batch batches IH]; intros ids acc Hacc Hw.
  - cbn. now rewrite app_nil_r.
  - cbn [fold_left concat]. rewrite fmap_app, app_assoc.
    apply IH; [exact Hacc |]. unfold batch_step.
    cbn [fst db notifyListeners emit]. now apply accepted_processBatch.
Qed.

(** X3.  When the server accepts every request of a pass, the pass marks
    synced exactly the rows whose id is that of an operation it kept of
    those it had read, and changes nothing else: every other row of the
    queue, every record and the space left are as before.  If the pass had
    read rows of the queue, none of the operations it kept is left
    unsynced. *)
Theorem accepted_pass_drains_the_queue env operations w :
  (forall op, is_accepted (fetch env op) = true) ->
  db (pass env operations w) =
    with_queue (db w)
      (marked (op_id <$> valid_operations operations) (syncQueue (db w)))
      (quota (db w)) /\
  forall o, In o (unsynced_rows (db (pass env operations w))) ->
            ~ In (op_id o) (op_id <$> valid_operations operations).
Proof.
  intros Hacc.
  assert (E : db (pass env operations w) =
              with_queue (db w)
                (marked (op_id <$> valid_operations operations) (syncQueue (db w)))
                (quota (db w))).
  { unfold pass. fold (valid_operations operations).
    destruct (valid_operations operations) as [| op0 sel] eqn:Hsel.
    - cbn. rewrite marked_nil. now destruct (db w).
    - cbn [length Nat.eqb db set_isSyncing notifyListeners emit].
      rewrite (accepted_batch_loop env (db w) _ _ []); [| exact Hacc |].
      + unfold MAX_BATCH_SIZE. now rewrite createBatches_concat.
      + cbn [fst]. rewrite marked_nil. now destruct (db w). }
  split; [exact E |].
  intros o Hin Hid. rewrite E in Hin. unfold unsynced_rows, marked in Hin.
  cbn [syncQueue with_queue] in Hin.
  apply filter_In in Hin as [Hin Hun].
  apply list_elem_of_In, list_elem_of_fmap in Hin as (o' & -> & _).
  apply list_elem_of_In in Hid.
  destruct (decide (op_id o' ∈ op_id <$> valid_operations operations)) as [Hi | Ho].
  - rewrite (bool_decide_eq_true_2 _ Hi) in Hun. discriminate Hun.
  - rewrite (bool_decide_eq_false_2 _ Ho) in Hid. contradiction.
Qed.

Lemma accepted_pass_drains_the_queue_witness :
  db (pass accepting [first_edit; second_edit] (idle_world [first_edit; second_edit]))
  = local_db [set_synced first_edit; set_synced second_edit] 10.
Proof.
  exact (proj1 (accepted_pass_drains_the_queue accepting [first_edit; second_edit]
                  (idle_world [first_edit; second_edit]) (fun _ => eq_refl))).
Defined.

(** ** A pass in which every request fails *)

Lemma settle_failed env operation w :
  is_failure (fetch env operation) = true ->
  settle env operation w =
  on_failure operation (failure_message (fetch env operation)) w.
Proof.
  unfold settle. destruct (fetch env operation) as [msg | st | c sd];
    [reflexivity | reflexivity | discriminate].
Qed.

Lemma queue_get_unique q r :
  NoDup (op_id <$> q) -> In r q -> queue_get (op_id r) q = Some r.
Proof.
  unfold queue_get. induction q as [| x q IH]; intros Hnd Hin; [destruct Hin |].
  cbn [fmap list_fmap] in Hnd. apply NoDup_cons in Hnd as [Hx Hnd].
  cbn [find]. destruct Hin as [-> | Hin].
  - now rewrite String.eqb_refl.
  - destruct (String.eqb_spec (op_id x) (op_id r)) as [Heq | Hne]; [| now apply IH].
    exfalso. apply Hx. rewrite Heq. apply list_elem_of_In. now apply in_map.
Qed.

Lemma bumped_ids env P q0 q :
  Forall2 (bumped env P) q0 q -> op_id <$> q = op_id <$> q0.
Proof.
  induction 1 as [| o r q0 q H _ IH]; [reflexivity |].
  cbn [fmap list_fmap]. f_equal; [| exact IH].
  destruct H as [[_ ->] | [_ ->]]; reflexivity.
Qed.

Lemma bumped_untouched env (P : string -> Prop) q0 q op :
  Forall2 (bumped env P) q0 q -> In op q0 -> ~ P (op_id op) -> In op q.
Proof.
  induction 1 as [| o r q0 q H _ IH]; intros Hin Hn; [destruct Hin |].
  destruct Hin as [-> | Hin]; [| right; now apply IH].
  left. destruct H as [[HP _] | [_ ->]]; [contradiction | reflexivity].
Qed.

Lemma bumped_ext env (P P' : string -> Prop) q0 q :
  (forall x, P x <-> P' x) ->
  Forall2 (bumped env P) q0 q -> Forall2 (bumped env P') q0 q.
Proof.
  intros H HF. eapply Forall2_impl; [exact HF |].
  intros o r [[HP ->] | [HP ->]]; [left | right]; split; try reflexivity;
    now rewrite <- H.
Qed.

Lemma bumped_start env q : Forall2 (bumped env (fun _ => False)) q q.
Proof. induction q; constructor; [right; auto | assumption]. Qed.

Lemma bumped_update env (P : string -> Prop) op l k :
  (forall o, In o l -> op_id o = op_id op -> o = op) ->
  ~ P (op_id op) ->
  Forall2 (bumped env P) l k ->
  Forall2 (bumped env (fun x => x = op_id op \/ P x)) l
    (queue_update (op_id op)
       (set_retry (op_retryCount op + 1) (failure_message (fetch env op))) k).
Proof.
  intros Hone Hn. unfold queue_update.
  induction 1 as [| o r l k H _ IH]; constructor.
  - destruct (String.eqb_spec (op_id r) (op_id op)) as [Heq | Hne].
    + assert (Ho : op_id o = op_id op)
        by (destruct H as [[_ ->] | [_ ->]]; exact Heq).
      assert (o = op) by (apply Hone; [now left | exact Ho]). subst o.
      destruct H as [[HP _] | [_ ->]]; [contradiction |].
      left. split; [now left | reflexivity].
    + assert (Ho : op_id o <> op_id op)
        by (destruct H as [[_ ->] | [_ ->]]; exact Hne).
      destruct H as [[HP ->] | [HP ->]]; [left | right];
        (split; [| reflexivity]); tauto.
  - apply IH. intros o' Hin. apply Hone. now right.
Qed.

Lemma bumped_step env (P : string -> Prop) op q0 d msg :
  msg = failure_message (fetch env op) ->
  NoDup (op_id <$> q0) -> In op q0 -> ~ P (op_id op) ->
  Forall2 (bumped env P) q0 (syncQueue d) ->
  Forall2 (bumped env (fun x => x = op_id op \/ P x)) q0
          (syncQueue (incrementRetryCount (op_id op) msg d)).
Proof.
  intros -> Hnd Hin Hn HF. unfold incrementRetryCount.
  rewrite (queue_get_unique (syncQueue d) op).
  - cbn [syncQueue with_queue]. apply bumped_update; [| exact Hn | exact HF].
    intros o Ho Hid.
    assert (Hq : queue_get (op_id o) q0 = Some o) by now apply queue_get_unique.
    rewrite Hid, (queue_get_unique q0 op Hnd Hin) in Hq. congruence.
  - now rewrite (bumped_ids _ _ _ _ HF).
  - eapply bumped_untouched; eauto.
Qed.

Lemma failed_settle_all env ops : forall (P : string -> Prop) q0 w,
  (forall op, is_failure (fetch env op) = true) ->
  NoDup (op_id <$> q0) ->
  NoDup (op_id <$> ops) ->
  (forall op, In op ops -> In op q0 /\ ~ P (op_id op)) ->
  Forall2 (bumped env P) q0 (syncQueue (db w)) ->
  Forall2 (bumped env (fun x => In x (op_id <$> ops) \/ P x)) q0
          (syncQueue (db (fold_left (settled env) ops w))) /\
  same_records (db w) (db (fold_left (settled env) ops w)).
Proof.
  induction ops as [| op ops IH]; intros P q0 w Hf Hnd Hops Hin H.
  - cbn [fold_left]. split; [| repeat split].
    eapply bumped_ext; [| exact H]. intros x. cbn. tauto.
  - cbn [fold_left]. cbn [fmap list_fmap] in Hops.
    apply NoDup_cons in Hops as [Hfresh Hops].
    assert (Hs : db (settled env w op) =
                 incrementRetryCount (op_id op)
                   (failure_message (fetch env op)) (db w)).
    { unfold settled. cbn [db emit]. rewrite settle_failed by apply Hf.
      apply on_failure_db. }
    destruct (Hin op (or_introl eq_refl)) as [Hop HnP].
    destruct (IH (fun x => x = op_id op \/ P x) q0 (settled env w op) Hf Hnd Hops)
      as [HM HR].
    { intros op' Hin'. destruct (Hin op' (or_intror Hin')) as [Hq HnP'].
      split; [exact Hq |]. intros [Heq | HP]; [| exact (HnP' HP)].
      apply Hfresh. rewrite <- Heq. apply list_elem_of_In. now apply in_map. }
    { rewrite Hs. now apply bumped_step. }
    split.
    + eapply bumped_ext; [| exact HM]. intros x. cbn [fmap list_fmap In].
      split; [intros [Hi | [Hid | HP]] | intros [[Hid | Hi] | HP]]; auto.
    + destruct HR as (Ha & Hc & Hd). rewrite Hs in Ha, Hc, Hd.
      unfold incrementRetryCount in Ha, Hc, Hd.
      destruct (queue_get (op_id op) (syncQueue (db w)));
        repeat split; assumption.
Qed.

Lemma failed_processBatch env batch (P : string -> Prop) q0 w :
  (forall op, is_failure (fetch env op) = true) ->
  NoDup (op_id <$> q0) ->
  NoDup (op_id <$> batch) ->
  (forall op, In op batch -> In op q0 /\ ~ P (op_id op)) ->
  Forall2 (bumped env P) q0 (syncQueue (db w)) ->
  Forall2 (bumped env (fun x => In x (op_id <$> batch) \/ P x)) q0
          (syncQueue (db (processBatch env batch w))) /\
  same_records (db w) (db (processBatch env batch w)).
Proof.
  intros Hf Hnd Hb Hin H. unfold processBatch.
  assert (Hperm : settle_order env batch ≡ₚ batch)
    by apply merge_sort_Permutation.
  destruct (failed_settle_all env (settle_order env batch) P q0
              (fold_left (fun w op => emit (EvFetch op) w) batch w) Hf Hnd)
    as [HM HR].
  - now rewrite Hperm.
  - intros op Hop. apply Hin. apply list_elem_of_In.
    rewrite <- Hperm. now apply list_elem_of_In.
  - now rewrite start_all_db.
  - rewrite start_all_db in HR. split; [| exact HR].
    eapply bumped_ext; [| exact HM]. intros x.
    assert (Hp : In x (op_id <$> settle_order env batch) <-> In x (op_id <$> batch))
      by (rewrite <- !list_elem_of_In; now rewrite Hperm).
    tauto.
Qed.

Lemma failed_batch_loop env n batches : forall (P : string -> Prop) q0 acc,
  (forall op, is_failure (fetch env op) = true) ->
  NoDup (op_id <$> q0) ->
  NoDup (op_id <$> concat batches) ->
  (forall op, In op (concat batches) -> In op q0 /\ ~ P (op_id op)) ->
  Forall2 (bumped env P) q0 (syncQueue (db (fst acc))) ->
  Forall2 (bumped env (fun x => In x (op_id <$> concat batches) \/ P x)) q0
          (syncQueue (db (fst (fold_left (batch_step env n) batches acc)))) /\
  same_records (db (fst acc)) (db (fst (fold_left (batch_step env n) batches acc))).
Proof.
  induction batches as [| batch batches IH]; intros P q0 acc Hf Hnd Hb Hin H.
  - cbn [fold_left concat]. split; [| repeat split].
    eapply bumped_ext; [| exact H]. intros x. cbn. tauto.
  - cbn [fold_left]. cbn [concat] in Hb, Hin. rewrite fmap_app in Hb.
    apply NoDup_app in Hb as (Hb1 & Hdisj & Hb2).
    destruct (failed_processBatch env batch P q0 (fst acc) Hf Hnd Hb1) as [HM1 HR1];
      [intros op Hop; apply Hin, in_or_app; now left | exact H |].
    destruct (IH (fun x => In x (op_id <$> batch) \/ P x) q0
                 (batch_step env n acc batch) Hf Hnd Hb2) as [HM HR].
    { intros op Hop. destruct (Hin op (in_or_app _ _ _ (or_intror Hop))) as [Hq HnP].
      split; [exact Hq |]. intros [Hi | HP]; [| exact (HnP HP)].
      apply list_elem_of_In in Hi. apply (Hdisj _ Hi).
      apply list_elem_of_In. now apply in_map. }
    { exact HM1. }
    split.
    + eapply bumped_ext; [| exact HM]. intros x. cbn [concat].
      rewrite fmap_app, in_app_iff. tauto.
    + unfold batch_step in HR at 1. cbn [fst db notifyListeners emit] in HR.
      destruct HR1 as (A1 & C1 & D1), HR as (A2 & C2 & D2).
      repeat split; congruence.
Qed.

Lemma NoDup_ids_filter (p : SyncOperation -> bool) q :
  NoDup (op_id <$> q) -> NoDup (op_id <$> List.filter p q).
Proof.
  induction q as [| x q IH]; intros H; [constructor |].
  cbn [fmap list_fmap] in H. apply NoDup_cons in H as [Hx H].
  cbn [List.filter]. destruct (p x); [| now apply IH].
  cbn [fmap list_fmap]. apply NoDup_cons. split; [| now apply IH].
  intros Hin. apply Hx. apply list_elem_of_In in Hin.
  apply in_map_iff in Hin as (y & Hy & Hin). apply filter_In in Hin as [Hin _].
  rewrite <- Hy. apply list_elem_of_In. now apply in_map.
Qed.

(** X4.  With the queue keyed by operation id, a pass that has read rows
    of the queue, each once, and whose every request fails adds exactly one
    to the retry count of each operation it kept and records the failure
    message on it; every other row of the queue and every record is left as
    it was, and nothing is marked synced. *)
Theorem failed_pass_counts_one_attempt env operations w :
  unique_ids (db w) ->
  Forall (fun op => In op (syncQueue (db w))) operations ->
  NoDup (op_id <$> operations) ->
  (forall op, is_failure (fetch env op) = true) ->
  syncQueue (db (pass env operations w)) =
    (fun o => if bool_decide (op_id o ∈ op_id <$> valid_operations operations)
              then bump env o else o) <$> syncQueue (db w) /\
  same_records (db w) (db (pass env operations w)).
Proof.
  intros Hnd Hrows Hone Hf.
  assert (H : Forall2 (bumped env (fun x => In x (op_id <$> valid_operations operations)))
                (syncQueue (db w)) (syncQueue (db (pass env operations w))) /\
              same_records (db w) (db (pass env operations w))).
  { unfold pass. fold (valid_operations operations).
    destruct (valid_operations operations) as [| op0 sel] eqn:Hsel.
    - cbn. split; [apply bumped_start | repeat split].
    - cbn [length Nat.eqb fst db notifyListeners emit set_isSyncing].
      rewrite <- Hsel.
      match goal with |- context [fold_left (batch_step env ?n) ?bs ?acc] =>
        destruct (failed_batch_loop env n bs (fun _ => False)
                    (syncQueue (db w)) acc Hf Hnd) as [HM HR] end.
      + unfold MAX_BATCH_SIZE. rewrite createBatches_concat.
        apply NoDup_ids_filter, Hone.
      + unfold MAX_BATCH_SIZE. rewrite createBatches_concat.
        intros op Hop. apply filter_In in Hop as [Hq _].
        rewrite List.Forall_forall in Hrows. auto.
      + apply bumped_start.
      + split; [| exact HR].
        eapply bumped_ext; [| exact HM]. intros x.
        unfold MAX_BATCH_SIZE. rewrite createBatches_concat. tauto. }
  destruct H as [HM HR]. split; [| exact HR].
  clear -HM. induction HM as [| o r l k H _ IH]; [reflexivity |].
  cbn [fmap list_fmap]. f_equal; [| exact IH].
  destruct H as [[HP ->] | [HP ->]].
  - rewrite bool_decide_eq_true_2 by now apply list_elem_of_In. reflexivity.
  - rewrite bool_decide_eq_false_2; [reflexivity |].
    intros Hin. now apply HP, list_elem_of_In.
Qed.

Lemma failed_pass_counts_one_attempt_witness :
  syncQueue (db (pass unreachable [first_edit; second_edit]
                   (idle_world [first_edit; second_edit]))) =
  [bump unreachable first_edit; bump unreachable second_edit].
Proof.
  exact (proj1 (failed_pass_counts_one_attempt unreachable [first_edit; second_edit]
                  (idle_world [first_edit; second_edit])
                  ltac:(apply (bool_decide_unpack _); vm_compute; exact I)
                  ltac:(constructor; [left; reflexivity |
                          constructor; [right; left; reflexivity | constructor]])
                  ltac:(apply (bool_decide_unpack _); vm_compute; exact I)
                  (fun _ => eq_refl))).
Defined.

(** ** The queue helpers *)

Lemma queue_update_absent id f q :
  queue_get id q = None -> queue_update id f q = q.
Proof.
  unfold queue_get, queue_update. induction q as [| x q IH]; intros H; [reflexivity |].
  cbn [find] in H. cbn [map]. destruct (String.eqb (op_id x) id);
    [discriminate |]. now rewrite IH.
Qed.

(** X5.  The queue stays keyed by operation id under the three helpers
    that write it.  [addToSyncQueue] refuses an id that is taken and, when
    it succeeds, the new operation is found under its id, unsynced and
    with no retry, while every other id finds what it found before. *)
Theorem queue_stays_keyed d :
  unique_ids d ->
  (forall id, unique_ids (markOperationSynced id d)) /\
  (forall id e, unique_ids (incrementRetryCount id e d)) /\
  (forall id now type entity entityId data,
      match addToSyncQueue id now type entity entityId data d with
      | Ok d' =>
          unique_ids d' /\
          queue_get id (syncQueue d') =
            Some (mkOp id type entity entityId data now false 0 None) /\
          forall id', id' <> id ->
            queue_get id' (syncQueue d') = queue_get id' (syncQueue d)
      | Err _ => is_Some (queue_get id (syncQueue d)) \/ quota d = 0
      end).
Proof.
  intros Hnd. unfold unique_ids in *. split; [| split].
  - intros id. now rewrite markOperationSynced_ids.
  - intros id e. now rewrite incrementRetryCount_ids.
  - intros id now type entity entityId data. unfold addToSyncQueue.
    destruct (queue_get id (syncQueue d)) as [op |] eqn:Hget; [eauto |].
    destruct (quota d); [auto |]. cbn [syncQueue with_queue].
    split; [| split].
    + rewrite fmap_app. apply NoDup_app. split; [exact Hnd |]. split.
      * intros x Hx Hin. apply list_elem_of_In in Hin. cbn in Hin.
        destruct Hin as [<- | []].
        apply (queue_get_None _ _ Hget). now apply list_elem_of_In.
      * cbn. apply NoDup_singleton.
    + rewrite queue_get_app, Hget. unfold queue_get. cbn.
      now rewrite String.eqb_refl.
    + intros id' Hne. rewrite queue_get_app.
      destruct (queue_get id' (syncQueue d)); [reflexivity |].
      unfold queue_get. cbn.
      destruct (String.eqb_spec id id'); [congruence | reflexivity].
Qed.

Lemma queue_stays_keyed_witness :
  queue_get "op-2"
    (syncQueue (markOperationSynced "op-1"
                  (local_db [first_edit; second_edit] 3))) = Some second_edit.
Proof.
  pose proof (proj1 (queue_stays_keyed (local_db [first_edit; second_edit] 3)
                       ltac:(apply (bool_decide_unpack _); vm_compute; exact I))
                "op-1") as H.
  apply (queue_get_unique _ (second_edit) H).
  vm_compute. auto.
Defined.

Lemma unsynced_after_update id f q :
  (forall op, op_id (f op) = op_id op) ->
  (forall op, op_synced (f op) = true) ->
  List.filter (fun op => negb (op_synced op)) (queue_update id f q) =
  List.filter (fun op => negb (String.eqb (op_id op) id))
              (List.filter (fun op => negb (op_synced op)) q).
Proof.
  intros Hid Hs. unfold queue_update. induction q as [| x q IH]; [reflexivity |].
  cbn [map List.filter].
  destruct (String.eqb (op_id x) id) eqn:E.
  - rewrite Hs. cbn [negb]. destruct (op_synced x); cbn [negb List.filter];
      [exact IH | rewrite E; exact IH].
  - destruct (op_synced x); cbn [negb List.filter]; [exact IH |].
    rewrite E. cbn [negb]. now rewrite IH.
Qed.

Lemma queue_update_twice id f q :
  (forall op, op_id (f op) = op_id op) ->
  (forall op, f (f op) = f op) ->
  queue_update id f (queue_update id f q) = queue_update id f q.
Proof.
  intros Hid Hf. unfold queue_update. rewrite map_map. apply map_ext.
  intros op. destruct (String.eqb (op_id op) id) eqn:E.
  - now rewrite Hid, E, Hf.
  - now rewrite E.
Qed.

Lemma synced_flags_after_retry id n e q :
  op_synced <$> queue_update id (set_retry n e) q = op_synced <$> q.
Proof.
  unfold queue_update. induction q as [| x q IH]; [reflexivity |].
  cbn [map fmap list_fmap]. f_equal; [| exact IH].
  destruct (String.eqb (op_id x) id); reflexivity.
Qed.

(** X6.  [markOperationSynced] takes exactly the rows with the given id
    out of the rows that are not marked synced, leaves the records alone,
    does nothing the second time and nothing at all for an id the queue
    does not have.  [incrementRetryCount] never changes which rows are
    synced, and does nothing for an id the queue does not have. *)
Theorem helpers_on_unsynced d id :
  unsynced_rows (markOperationSynced id d) =
    List.filter (fun op => negb (String.eqb (op_id op) id))
                (unsynced_rows d) /\
  markOperationSynced id (markOperationSynced id d) = markOperationSynced id d /\
  same_records d (markOperationSynced id d) /\
  (queue_get id (syncQueue d) = None -> markOperationSynced id d = d) /\
  (forall e,
      op_synced <$> syncQueue (incrementRetryCount id e d) =
        op_synced <$> syncQueue d) /\
  (forall e, queue_get id (syncQueue d) = None -> incrementRetryCount id e d = d).
Proof.
  split; [| split; [| split; [| split; [| split]]]].
  - unfold unsynced_rows, markOperationSynced. cbn [syncQueue with_queue].
    now apply unsynced_after_update.
  - unfold markOperationSynced, with_queue. cbn [syncQueue applications contacts
      documents quota].
    now rewrite queue_update_twice.
  - repeat split.
  - intros H. unfold markOperationSynced, with_queue.
    rewrite queue_update_absent by exact H. now destruct d.
  - intros e. unfold incrementRetryCount.
    destruct (queue_get id (syncQueue d)); [| reflexivity].
    cbn [syncQueue with_queue]. apply synced_flags_after_retry.
  - intros e H. unfold incrementRetryCount. now rewrite H.
Qed.

(** ** [processOperation] and [resolveConflict] on the records *)

Lemma incrementRetryCount_records id e d :
  same_records d (incrementRetryCount id e d).
Proof.
  unfold incrementRetryCount. destruct (queue_get id (syncQueue d));
    repeat split.
Qed.

(** X7.  [processOperation] writes a local record in one case only: the
    response reports a conflict and the server's copy is strictly newer
    than the operation.  A failed request, an accepted one (whatever record
    the server sends back) and a conflict with an older or equal server
    copy leave the three record tables exactly as they were. *)
Theorem processOperation_spares_records env operation w :
  same_records (db w) (db (fst (processOperation env operation w))) \/
  exists sd,
    fetch env operation = HttpOk true (Some sd) /\
    (op_timestamp operation < row_updatedAt sd)%Z.
Proof.
  unfold processOperation, settle. cbn [fst db emit].
  destruct (fetch env operation) as [msg | st | [] [sd |]].
  - left. rewrite on_failure_db. apply incrementRetryCount_records.
  - left. rewrite on_failure_db. apply incrementRetryCount_records.
  - unfold resolveConflict.
    destruct (Z.ltb_spec (op_timestamp operation) (row_updatedAt sd)) as [Hlt | Hge].
    + right. exists sd. auto.
    + left. repeat split.
  - left. rewrite on_failure_db. apply incrementRetryCount_records.
  - left. repeat split.
  - left. repeat split.
Qed.

Lemma table_put_twice {V} k (v : V) q t t' q' :
  table_put k v q t = Ok (t', q') -> table_put k v q' t' = Ok (t', q').
Proof.
  unfold table_put. destruct (t !! k) eqn:E.
  - intros H. inversion H; subst. rewrite lookup_insert_eq.
    now rewrite insert_insert_eq.
  - destruct q as [| n]; [discriminate |].
    intros H. inversion H; subst. rewrite lookup_insert_eq.
    now rewrite insert_insert_eq.
Qed.

Lemma put_application_twice a d d1 :
  put_application a d = Ok d1 -> put_application a d1 = Ok d1.
Proof.
  unfold put_application, bind.
  destruct (table_put _ _ (quota d) (applications d)) as [[t' q'] |] eqn:E;
    [| discriminate].
  intros H. inversion H; subst. cbn [applications quota with_applications fst snd].
  now rewrite (table_put_twice _ _ _ _ _ _ E).
Qed.

Lemma put_contact_twice c d d1 :
  put_contact c d = Ok d1 -> put_contact c d1 = Ok d1.
Proof.
  unfold put_contact, bind.
  destruct (table_put _ _ (quota d) (contacts d)) as [[t' q'] |] eqn:E;
    [| discriminate].
  intros H. inversion H; subst. cbn [contacts quota with_contacts fst snd].
  now rewrite (table_put_twice _ _ _ _ _ _ E).
Qed.

Lemma put_document_twice x d d1 :
  put_document x d = Ok d1 -> put_document x d1 = Ok d1.
Proof.
  unfold put_document, bind.
  destruct (table_put _ _ (quota d) (documents d)) as [[t' q'] |] eqn:E;
    [| discriminate].
  intros H. inversion H; subst. cbn [documents quota with_documents fst snd].
  now rewrite (table_put_twice _ _ _ _ _ _ E).
Qed.

(** X8.  Resolving the same conflict again changes nothing: once
    [resolveConflict] has succeeded, running it again with the same
    operation, server record and time succeeds and returns the same
    database. *)
Theorem resolveConflict_idempotent now operation sd d d1 :
  resolveConflict now operation sd d = Ok d1 ->
  resolveConflict now operation sd d1 = Ok d1.
Proof.
  unfold resolveConflict. destruct (_ <? _)%Z; [| intros H; now inversion H].
  revert sd. destruct (op_entity operation); cbn [RowOf put_serverData]; intros sd.
  - apply put_application_twice.
  - apply put_contact_twice.
  - apply put_document_twice.
Qed.

Lemma resolveConflict_idempotent_witness :
  resolveConflict 300 first_edit (server_copy 150 4)
    (local_holding (stamp 300 (server_copy 150 4)) 4) =
  Ok (local_holding (stamp 300 (server_copy 150 4)) 4).
Proof.
  apply (resolveConflict_idempotent 300 first_edit (server_copy 150 4)
           (local_db [] 5)).
  vm_compute. reflexivity.
Defined.

(** ** Pulling twice *)

Section Inserts.
Context {A : Type} (key : A -> string) (stored : A -> A).

Lemma inserts_other l (t : gmap string A) k :
  ~ In k (key <$> l) -> inserts key stored l t !! k = t !! k.
Proof.
  unfold inserts. revert t. induction l as [| x l IH]; intros t Hk; [reflexivity |].
  cbn [fold_left]. rewrite IH by (intros H; apply Hk; now right).
  apply lookup_insert_ne. intros E. apply Hk. now left.
Qed.

Lemma inserts_overwrite l (t t' : gmap string A) k :
  In k (key <$> l) -> inserts key stored l t !! k = inserts key stored l t' !! k.
Proof.
  revert t t'. induction l as [| x l IH]; intros t t' Hk; [destruct Hk |].
  unfold inserts. cbn [fold_left]. fold (inserts key stored l (<[key x := stored x]> t)).
  fold (inserts key stored l (<[key x := stored x]> t')).
  destruct (in_dec String.string_dec k (key <$> l)) as [Hin | Hout].
  - now apply IH.
  - rewrite !inserts_other by exact Hout.
    destruct Hk as [<- | Hin]; [| contradiction].
    now rewrite !lookup_insert_eq.
Qed.

Lemma inserts_present l (t : gmap string A) k :
  In k (key <$> l) -> is_Some (inserts key stored l t !! k).
Proof.
  revert t. induction l as [| x l IH]; intros t Hk; [destruct Hk |].
  unfold inserts. cbn [fold_left]. fold (inserts key stored l (<[key x := stored x]> t)).
  destruct (in_dec String.string_dec k (key <$> l)) as [Hin | Hout].
  - now apply IH.
  - rewrite inserts_other by exact Hout.
    destruct Hk as [<- | Hin]; [| contradiction].
    rewrite lookup_insert_eq. eauto.
Qed.

Lemma inserts_twice l (t : gmap string A) :
  inserts key stored l (inserts key stored l t) = inserts key stored l t.
Proof.
  apply map_eq. intros k.
  destruct (in_dec String.string_dec k (key <$> l)) as [Hin | Hout].
  - now apply inserts_overwrite.
  - now apply inserts_other.
Qed.

End Inserts.

Lemma inserts_over {A} (key : A -> string) (stored stored' : A -> A) l
  (t : gmap string A) :
  inserts key stored' l (inserts key stored l t) = inserts key stored' l t.
Proof.
  apply map_eq. intros k.
  destruct (in_dec String.string_dec k (key <$> l)) as [Hin | Hout].
  - now apply inserts_overwrite.
  - now rewrite !inserts_other by exact Hout.
Qed.

Lemma inserts_opt_over {A} (key : A -> string) (stored stored' : A -> A) rows
  (t : gmap string A) :
  inserts_opt key stored' rows (inserts_opt key stored rows t) =
  inserts_opt key stored' rows t.
Proof. destruct rows; [apply inserts_over | reflexivity]. Qed.

Section Puts.
Context {A : Type} (key : A -> string) (stored stored' : A -> A).
Context (table : JobTrackerDB -> gmap string A)
        (set : JobTrackerDB -> gmap string A -> nat -> JobTrackerDB)
        (put put' : A -> JobTrackerDB -> Result JobTrackerDB).
Hypothesis put_spec : forall x d,
  put x d = match table_put (key x) (stored x) (quota d) (table d) with
            | Ok r => Ok (set d (fst r) (snd r))
            | Err msg => Err msg
            end.
Hypothesis put_spec' : forall x d,
  put' x d = match table_put (key x) (stored' x) (quota d) (table d) with
             | Ok r => Ok (set d (fst r) (snd r))
             | Err msg => Err msg
             end.
Hypothesis table_set : forall d t q, table (set d t q) = t.
Hypothesis quota_set : forall d t q, quota (set d t q) = q.
Hypothesis set_set : forall d t q t' q', set (set d t q) t' q' = set d t' q'.
Hypothesis set_same : forall d, set d (table d) (quota d) = d.

(** What a run of [put]s that succeeded has made of the table. *)
Lemma put_all_result rows d d1 :
  put_all put rows d = Ok d1 ->
  exists q, d1 = set d (inserts_opt key stored rows (table d)) q.
Proof.
  destruct rows as [l |]; cbn [put_all inserts_opt].
  2:{ intros H. inversion H; subst. exists (quota d1). now rewrite set_same. }
  revert d. induction l as [| x l IH]; intros d; cbn [fold_left bind].
  - intros H. inversion H; subst. exists (quota d1). now rewrite set_same.
  - destruct (put x d) as [d0 |] eqn:E; [| rewrite fold_put_failed; discriminate].
    intros H. destruct (IH d0 H) as [q ->]. exists q.
    rewrite put_spec in E. unfold table_put in E.
    destruct (table d !! key x); [| destruct (quota d)];
      try discriminate; inversion E; subst; cbn [fst snd];
      now rewrite table_set, set_set.
Qed.

(** Whether a run of [put]s succeeds, and the space it leaves, depend on
    the keys that are stored and on the space, not on what is stored. *)
Lemma put_all_again rows d d1 d' :
  put_all put rows d = Ok d1 ->
  (forall k, is_Some (table d' !! k) <-> is_Some (table d !! k)) ->
  quota d' = quota d ->
  put_all put' rows d' =
  Ok (set d' (inserts_opt key stored' rows (table d')) (quota d1)).
Proof.
  destruct rows as [l |]; cbn [put_all inserts_opt].
  2:{ intros H _ Hq. inversion H; subst. now rewrite <- Hq, set_same. }
  revert d d'. induction l as [| x l IH]; intros d d' H Hdom Hq;
    cbn [fold_left bind] in *.
  - inversion H; subst. unfold inserts. cbn [fold_left].
    now rewrite <- Hq, set_same.
  - destruct (put x d) as [d0 |] eqn:E;
      [| rewrite fold_put_failed in H; discriminate].
    rewrite put_spec in E. rewrite put_spec'. unfold table_put in *.
    assert (Hins : forall (v v' : A) k,
               is_Some (<[key x := v']> (table d') !! k) <->
               is_Some (<[key x := v]> (table d) !! k)).
    { intros v v' k. destruct (String.string_dec (key x) k) as [<- | Hne].
      - rewrite !lookup_insert_eq. split; eauto.
      - rewrite !lookup_insert_ne by exact Hne. apply Hdom. }
    destruct (table d !! key x) as [v |] eqn:Ek.
    + destruct (proj2 (Hdom (key x)) (ex_intro _ v Ek)) as [v' ->].
      inversion E; subst d0; clear E. cbn [fst snd] in *.
      rewrite (IH _ (set d' (<[key x := stored' x]> (table d')) (quota d')) H).
      * now rewrite table_set, set_set.
      * intros k. rewrite !table_set. apply Hins.
      * now rewrite !quota_set.
    + destruct (table d' !! key x) as [v' |] eqn:Ek'.
      { destruct (proj1 (Hdom (key x)) (ex_intro _ v' Ek')) as [v Hv].
        rewrite Ek in Hv. discriminate. }
      rewrite Hq. destruct (quota d) as [| q]; [discriminate |].
      inversion E; subst d0; clear E. cbn [fst snd] in *.
      rewrite (IH _ (set d' (<[key x := stored' x]> (table d')) q) H).
      * now rewrite table_set, set_set.
      * intros k. rewrite !table_set. apply Hins.
      * now rewrite !quota_set.
Qed.

(** A run of [put]s on keys that are all stored takes no space. *)
Lemma put_all_present rows d :
  (forall l x, rows = Some l -> In x l -> is_Some (table d !! key x)) ->
  put_all put' rows d =
  Ok (set d (inserts_opt key stored' rows (table d)) (quota d)).
Proof.
  destruct rows as [l |]; cbn [put_all inserts_opt];
    [| intros _; now rewrite set_same].
  intros Hk. assert (Hkeys : forall x, In x l -> is_Some (table d !! key x))
    by (intros x; now apply (Hk l)).
  clear Hk. revert d Hkeys. induction l as [| x l IH]; intros d Hk.
  - cbn. now rewrite set_same.
  - cbn [fold_left bind]. rewrite put_spec'. unfold table_put.
    destruct (Hk x (or_introl eq_refl)) as [v ->]. cbn [fst snd].
    rewrite IH.
    + now rewrite table_set, quota_set, set_set.
    + intros y Hy. rewrite table_set.
      destruct (String.string_dec (key x) (key y)) as [-> | Hne].
      * rewrite lookup_insert_eq. eauto.
      * rewrite lookup_insert_ne by exact Hne. apply Hk. now right.
Qed.
End Puts.

Lemma with_applications_same d : with_applications d (applications d) (quota d) = d.
Proof. now destruct d. Qed.

Lemma with_contacts_same d : with_contacts d (contacts d) (quota d) = d.
Proof. now destruct d. Qed.

Lemma with_documents_same d : with_documents d (documents d) (quota d) = d.
Proof. now destruct d. Qed.

Lemma inserts_opt_present {A} (key : A -> string) (stored : A -> A) rows
  (t : gmap string A) l x :
  rows = Some l -> In x l -> is_Some (inserts_opt key stored rows t !! key x).
Proof. intros -> Hx. apply inserts_present. now apply in_map. Qed.

(** The three runs of [put]s of a pull that succeeded, with the space
    left after each. *)
Lemma pull_body_stages now data d d3 :
  pull_body now data d = Ok d3 ->
  exists q1 q2 q3,
    let d1 := with_applications d
                (inserts_opt app_id (stamp now) (pd_applications data)
                   (applications d)) q1 in
    let d2 := with_contacts d1
                (inserts_opt contact_id (fun c => c) (pd_contacts data)
                   (contacts d)) q2 in
    put_all (fun app => put_application (stamp now app)) (pd_applications data) d
      = Ok d1 /\
    put_all put_contact (pd_contacts data) d1 = Ok d2 /\
    put_all put_document (pd_documents data) d2 = Ok d3 /\
    d3 = with_documents d2
           (inserts_opt doc_id (fun x => x) (pd_documents data) (documents d)) q3.
Proof.
  unfold pull_body, bind.
  destruct (put_all _ (pd_applications data) d) as [d1 |] eqn:E1; [| discriminate].
  destruct (put_all _ (pd_contacts data) d1) as [d2 |] eqn:E2; [| discriminate].
  intros E3.
  destruct (put_all_result app_id (stamp now) applications with_applications
              (fun app => put_application (stamp now app))
              ltac:(reflexivity) ltac:(reflexivity) ltac:(reflexivity)
              with_applications_same _ _ _ E1) as [q1 ->].
  destruct (put_all_result contact_id (fun c => c) contacts with_contacts
              put_contact
              ltac:(reflexivity) ltac:(reflexivity) ltac:(reflexivity)
              with_contacts_same _ _ _ E2) as [q2 ->].
  destruct (put_all_result doc_id (fun x => x) documents with_documents
              put_document
              ltac:(reflexivity) ltac:(reflexivity) ltac:(reflexivity)
              with_documents_same _ _ _ E3) as [q3 Hd3].
  exists q1, q2, q3. cbn zeta. split; [reflexivity |]. split; [exact E2 |].
  split; [exact E3 | exact Hd3].
Qed.

(** A pull at another time, of the same response: from the same database
    it succeeds as well, and after the first pull it leaves what it would
    have left alone. *)
Lemma pull_body_again now now' data d d3 :
  pull_body now data d = Ok d3 ->
  exists d3',
    pull_body now' data d = Ok d3' /\
    pull_body now' data d3 = Ok d3' /\
    contacts d3' = contacts d3 /\ documents d3' = documents d3 /\
    syncQueue d3' = syncQueue d3 /\ quota d3' = quota d3 /\
    applications d3' =
      inserts_opt app_id (stamp now') (pd_applications data) (applications d).
Proof.
  intros Hb. destruct (pull_body_stages _ _ _ _ Hb) as (q1 & q2 & q3 & H).
  cbn zeta in H. destruct H as (E1 & E2 & E3 & ->).
  set (A1 := inserts_opt app_id (stamp now) (pd_applications data) (applications d)) in *.
  set (A2 := inserts_opt app_id (stamp now') (pd_applications data) (applications d)).
  set (C := inserts_opt contact_id (fun c => c) (pd_contacts data) (contacts d)) in *.
  set (D := inserts_opt doc_id (fun x => x) (pd_documents data) (documents d)) in *.
  exists {| applications := A2; contacts := C; documents := D;
            syncQueue := syncQueue d; quota := q3 |}.
  split; [| split; [| repeat split]].
  - unfold pull_body, bind.
    rewrite (put_all_again app_id (stamp now) (stamp now') applications
               with_applications (fun app => put_application (stamp now app))
               (fun app => put_application (stamp now' app))
               ltac:(reflexivity) ltac:(reflexivity) ltac:(reflexivity)
               ltac:(reflexivity) ltac:(reflexivity) with_applications_same
               _ d _ d E1 ltac:(reflexivity) eq_refl).
    cbn [quota with_applications]. fold A2.
    rewrite (put_all_again contact_id (fun c => c) (fun c => c) contacts
               with_contacts put_contact put_contact
               ltac:(reflexivity) ltac:(reflexivity) ltac:(reflexivity)
               ltac:(reflexivity) ltac:(reflexivity) with_contacts_same
               _ _ _ (with_applications d A2 q1) E2 ltac:(reflexivity) eq_refl).
    cbn [quota with_contacts contacts with_applications]. fold C.
    rewrite (put_all_again doc_id (fun x => x) (fun x => x) documents
               with_documents put_document put_document
               ltac:(reflexivity) ltac:(reflexivity) ltac:(reflexivity)
               ltac:(reflexivity) ltac:(reflexivity) with_documents_same
               _ _ _ (with_contacts (with_applications d A2 q1) C q2) E3
               ltac:(reflexivity) eq_refl).
    cbn [quota with_documents documents with_contacts with_applications]. fold D.
    reflexivity.
  - unfold pull_body, bind.
    rewrite (put_all_present app_id (stamp now') applications with_applications
               (fun app => put_application (stamp now' app))
               ltac:(reflexivity) ltac:(reflexivity) ltac:(reflexivity)
               ltac:(reflexivity) with_applications_same).
    2:{ intros l x Hl Hx. cbn [applications with_documents with_contacts
          with_applications]. subst A1. now apply (inserts_opt_present _ _ _ _ l). }
    cbn [applications quota with_documents with_contacts with_applications].
    subst A1. rewrite inserts_opt_over. fold A2.
    rewrite (put_all_present contact_id (fun c => c) contacts with_contacts
               put_contact
               ltac:(reflexivity) ltac:(reflexivity) ltac:(reflexivity)
               ltac:(reflexivity) with_contacts_same).
    2:{ intros l x Hl Hx. cbn [contacts with_documents with_contacts
          with_applications]. subst C. now apply (inserts_opt_present _ _ _ _ l). }
    cbn [contacts quota with_documents with_contacts with_applications].
    subst C. rewrite inserts_opt_over.
    rewrite (put_all_present doc_id (fun x => x) documents with_documents
               put_document
               ltac:(reflexivity) ltac:(reflexivity) ltac:(reflexivity)
               ltac:(reflexivity) with_documents_same).
    2:{ intros l x Hl Hx. cbn [documents with_documents with_contacts
          with_applications]. subst D. now apply (inserts_opt_present _ _ _ _ l). }
    cbn [documents quota with_documents with_contacts with_applications].
    subst D. rewrite inserts_opt_over. reflexivity.
Qed.

(** X9.  A second pull does not add to the first.  When [pullFromServer]
    has succeeded, a second pull that receives the same response succeeds
    too and leaves the Local Store as the second pull alone would have left
    it: the contacts, the documents, the queue and the space left are as
    the first pull left them, and the applications of the response are
    stamped with the time of the second pull.  A second pull at the same
    reading of the clock changes nothing. *)
Theorem pull_twice_changes_nothing env env' userId w :
  pull_fetch env' = pull_fetch env ->
  snd (pullFromServer env userId w) = Fulfilled ->
  let first := fst (pullFromServer env userId w) in
  let second := fst (pullFromServer env' userId first) in
  pullFromServer env' userId first = pullFromServer env' userId w /\
  snd (pullFromServer env' userId first) = Fulfilled /\
  contacts (db second) = contacts (db first) /\
  documents (db second) = documents (db first) /\
  syncQueue (db second) = syncQueue (db first) /\
  quota (db second) = quota (db first) /\
  (pull_clock env' = pull_clock env -> second = first).
Proof.
  intros Hfetch. cbn zeta. unfold pullFromServer, transaction. rewrite Hfetch.
  destruct (negb (isOnline w)) eqn:Hon; [discriminate |].
  destruct (pull_fetch env _) as [msg | st | data] eqn:Hf; try discriminate.
  destruct (pull_body (pull_clock env) data (db w)) as [d3 |] eqn:Hb;
    [| discriminate].
  intros _. cbn [fst isOnline with_db db]. rewrite Hon.
  destruct (pull_body_again (pull_clock env) (pull_clock env') data (db w) d3 Hb)
    as (d3' & Halone & Hafter & Hc & Hd & Hq & Hs & _).
  rewrite Halone, Hafter. cbn [fst snd db with_db].
  repeat (split; [auto; fail |]).
  intros Hclock. rewrite Hclock, Hb in Halone. inversion Halone. reflexivity.
Qed.

Lemma pull_twice_changes_nothing_witness :
  fst (pullFromServer pulling "u1" (fst (pullFromServer pulling "u1" (idle_world []))))
  = fst (pullFromServer pulling "u1" (idle_world [])).
Proof.
  exact (proj2 (proj2 (proj2 (proj2 (proj2 (proj2
           (pull_twice_changes_nothing pulling pulling "u1" (idle_world [])
              eq_refl ltac:(vm_compute; reflexivity)))))))
           eq_refl).
Defined.

(** ** The sync route *)

Section SyncRoute.
Import Server.

(** The handler on a JSON body, when the audit row is stored. *)
Lemma route_stores_audit session body now s :
  Route.POST (fun _ => true) session (Route.Json body) now s =
  POST session body now s.
Proof. reflexivity. Qed.





(** X11.  Every request the sync route answers with success, a conflict
    included, adds exactly one row to the audit table, describing the
    request and the caller, and leaves contacts and documents alone.  An
    operation on a contact or a document is answered with success, no
    conflict and no result, and is not applied to anything. *)
Theorem sync_route_audits user rq now s s' reply :
  POST (Some user) (Some rq) now s = (s', Reply reply) ->
  s_syncQueue s' =
    s_syncQueue s ++
    [mkLogRow user (rq_operation rq) (rq_entity rq) (rq_entityId rq) (rq_data rq) true] /\
  s_contacts s' = s_contacts s /\
  s_documents s' = s_documents s /\
  sb_success reply = true /\
  (rq_entity rq <> application ->
     s_applications s' = s_applications s /\
     sb_conflict reply = false /\ sb_result reply = RNull).
Proof.
  unfold POST.
  destruct (rq_entity rq) eqn:He.
  - destruct (application_branch user now rq (s_applications s)); try discriminate.
    intros H; inversion H; subst. cbn.
    split; [reflexivity |]. split; [reflexivity |]. split; [reflexivity |].
    split; [reflexivity |]. intros Hne. now destruct Hne.
  - intros H; inversion H; subst. cbn. auto 10.
  - intros H; inversion H; subst. cbn. auto 10.
Qed.

Lemma sync_route_audits_witness :
  s_syncQueue (fst (POST (Some "u1") (Some update_at_50) 7
                      (server_holding (server_copy 100 3)))) =
  [mkLogRow "u1" UPDATE application "app-1" empty_patch true].
Proof.
  exact (proj1 (sync_route_audits "u1" update_at_50 7
                  (server_holding (server_copy 100 3)) _ _ eq_refl)).
Defined.

(** X12.  A delete through the sync route is always answered with
    success.  It removes the application exactly when the caller owns it,
    and leaves a missing application or another user's alone with a result
    of [null]; sending the same delete again changes the applications no
    further. *)
Theorem sync_route_delete user id data timestamp now now' s :
  let rq := mkRequest DELETE application id data timestamp in
  let r := POST (Some user) (Some rq) now s in
  (exists result,
      snd r = Reply (mkSyncBody true false None result) /\
      match Rest.findOwned user id s with
      | Some _ => result = RDeleted id /\
                  s_applications (fst r) = delete id (s_applications s)
      | None => result = RNull /\ s_applications (fst r) = s_applications s
      end) /\
  s_applications (fst (POST (Some user) (Some rq) now' (fst r))) =
    s_applications (fst r).
Proof.
  cbn zeta. unfold POST, application_branch, Rest.findOwned.
  cbn [rq_entity rq_operation rq_entityId rq_data rq_timestamp].
  destruct (s_applications s !! id) as [existing |] eqn:Hex.
  - destruct (String.eqb (app_userId existing) user) eqn:Hu;
      cbn [fst snd s_applications].
    + rewrite lookup_delete_eq. cbn [fst s_applications]. eauto.
    + rewrite Hex, Hu. cbn [fst s_applications]. eauto.
  - cbn [fst snd s_applications]. rewrite Hex. cbn [fst s_applications]. eauto.
Qed.

Lemma update_applied user now s id existing data timestamp :
  s_applications s !! id = Some existing ->
  app_id existing = id ->
  app_userId existing = user ->
  over (p_id data) id = id ->
  (app_updatedAt existing <= timestamp)%Z ->
  exists s',
    POST (Some user) (Some (mkRequest UPDATE application id data timestamp)) now s =
      (s', Reply (mkSyncBody true false None
                    (RRow (assign (set_field_updatedAt now existing)
                             (spread data (bump_fields now existing)))))) /\
    s_applications s' =
      <[id := assign (set_field_updatedAt now existing)
                (spread data (bump_fields now existing))]> (s_applications s).
Proof.
  intros Hex Hid Hu Hren Hle. unfold POST, application_branch.
  cbn [rq_entity rq_operation rq_entityId rq_data rq_timestamp].
  rewrite Hex, Hu, String.eqb_refl. cbn [negb].
  apply Z.ltb_ge in Hle. rewrite Hle.
  unfold prisma_update. rewrite Hex.
  rewrite assign_spread_id by reflexivity.
  change (app_id (set_field_updatedAt now existing)) with (app_id existing).
  rewrite Hid, Hren, String.eqb_refl. cbn [of_write]. eauto.
Qed.

(** X13.  A create for an id the server already has is not refused and
    checks no ownership: unless the stored copy is strictly newer than the
    operation (then it is a conflict), the stored record is overwritten
    with the payload and handed to the caller, whoever owned it, and its
    version becomes the payload's, or stays, without being incremented. *)
Theorem create_on_existing_takes_over user now s id existing data timestamp :
  s_applications s !! id = Some existing ->
  app_id existing = id ->
  over (p_id data) id = id ->
  (app_updatedAt existing <= timestamp)%Z ->
  let r := POST (Some user)
             (Some (mkRequest CREATE application id data timestamp)) now s in
  exists row,
    snd r = Reply (mkSyncBody true false None (RRow row)) /\
    s_applications (fst r) !! id = Some row /\
    app_userId row = user /\
    app_version row = over (p_version data) (app_version existing) /\
    app_company row = over (p_company data) (app_company existing) /\
    app_lastSyncedAt row = now.
Proof.
  intros Hex Hid Hren Hle. cbn zeta. unfold POST, application_branch.
  cbn [rq_entity rq_operation rq_entityId rq_data rq_timestamp].
  rewrite Hex. apply Z.ltb_ge in Hle. rewrite Hle.
  unfold prisma_update. rewrite Hex.
  rewrite assign_spread_id by reflexivity.
  change (app_id (set_field_updatedAt now existing)) with (app_id existing).
  rewrite Hid, Hren, String.eqb_refl. cbn [of_write fst snd s_applications].
  eexists. split; [reflexivity |]. split; [apply lookup_insert_eq |].
  cbn. destruct (p_version data), (p_company data); auto.
Qed.

Lemma create_on_existing_takes_over_witness :
  exists row,
    s_applications
      (fst (POST (Some "u2")
              (Some (mkRequest CREATE application "app-1" empty_patch 50)) 7
              (server_holding (server_copy 10 3)))) !! "app-1" = Some row /\
    app_userId row = "u2".
Proof.
  destruct (create_on_existing_takes_over "u2" 7
              (server_holding (server_copy 10 3)) "app-1" (server_copy 10 3)
              empty_patch 50 ltac:(vm_compute; reflexivity) eq_refl eq_refl
              ltac:(simpl; lia)) as (row & _ & Hrow & Hu & _).
  exists row. auto.
Defined.

(** X14.  The sync route does not recognise a replay.  An update that was
    applied, and whose payload carries an [updatedAt] no later than its own
    timestamp, is applied again when it is sent again: the version goes up
    by two. *)
Theorem replayed_update_is_applied_again
  user now1 now2 s id existing data timestamp u :
  s_applications s !! id = Some existing ->
  app_id existing = id ->
  app_userId existing = user ->
  over (p_id data) id = id ->
  over (p_userId data) user = user ->
  p_updatedAt data = Some u ->
  (u <= timestamp)%Z ->
  (app_updatedAt existing <= timestamp)%Z ->
  let rq := mkRequest UPDATE application id data timestamp in
  let first := POST (Some user) (Some rq) now1 s in
  let second := POST (Some user) (Some rq) now2 (fst first) in
  conflict_of (snd first) = Some false /\
  conflict_of (snd second) = Some false /\
  app_version <$> s_applications (fst second) !! id =
    Some (app_version existing + 2)%Z.
Proof.
  intros Hex Hid Hu Hren Hown Hupd Hu_le Hle. cbn zeta.
  destruct (update_applied user now1 s id existing data timestamp
              Hex Hid Hu Hren Hle) as (s1 & E1 & T1).
  rewrite E1. cbn [fst snd conflict_of sb_conflict].
  set (row1 := assign (set_field_updatedAt now1 existing)
                 (spread data (bump_fields now1 existing))) in *.
  assert (Hex1 : s_applications s1 !! id = Some row1)
    by (rewrite T1; apply lookup_insert_eq).
  assert (Hid1 : app_id row1 = id).
  { subst row1. rewrite assign_spread_id by reflexivity.
    change (app_id (set_field_updatedAt now1 existing)) with (app_id existing).
    now rewrite Hid. }
  assert (Hu1 : app_userId row1 = user).
  { subst row1. cbn. rewrite Hu. destruct (p_userId data); exact Hown. }
  assert (Hle1 : (app_updatedAt row1 <= timestamp)%Z).
  { subst row1. cbn. rewrite Hupd. exact Hu_le. }
  assert (Hv1 : app_version row1 = (app_version existing + 1)%Z)
    by (subst row1; now apply assign_spread_version).
  destruct (update_applied user now2 s1 id row1 data timestamp
              Hex1 Hid1 Hu1 Hren Hle1) as (s2 & E2 & T2).
  rewrite E2. cbn [fst snd conflict_of sb_conflict].
  split; [reflexivity |]. split; [reflexivity |].
  rewrite T2, lookup_insert_eq. cbn [fmap option_fmap option_map].
  f_equal. rewrite (assign_spread_version _ _ _ (app_version row1 + 1)%Z)
    by reflexivity. lia.
Qed.

Lemma replayed_update_is_applied_again_witness :
  app_version <$>
    s_applications
      (fst (POST (Some "u1")
              (Some (mkRequest UPDATE application "app-1"
                       (to_patch (server_copy 40 9)) 50)) 8
              (fst (POST (Some "u1")
                      (Some (mkRequest UPDATE application "app-1"
                               (to_patch (server_copy 40 9)) 50)) 7
                      (server_holding (server_copy 10 3)))))) !! "app-1"
  = Some 5%Z.
Proof.
  exact (proj2 (proj2 (replayed_update_is_applied_again "u1" 7 8
                         (server_holding (server_copy 10 3)) "app-1"
                         (server_copy 10 3) (to_patch (server_copy 40 9)) 50 40
                         ltac:(vm_compute; reflexivity) eq_refl eq_refl eq_refl
                         eq_refl eq_refl ltac:(lia) ltac:(simpl; lia)))).
Defined.
End SyncRoute.

(** ** Ownership on the server *)

Section Ownership.
Import Server.

(** A write through [prisma.application.update] touches the row it was
    asked for, and the key the row moves to; every other row stays. *)
Lemma prisma_update_others now id data t t' row k a :
  prisma_update now id data t = Ok (t', row) ->
  k <> id -> t !! k = Some a -> t' !! k = Some a.
Proof.
  unfold prisma_update. destruct (t !! id) as [existing |]; [| discriminate].
  destruct (String.eqb _ id).
  - intros H Hk Ha. inversion H; subst. now rewrite lookup_insert_ne.
  - destruct (t !! app_id _) eqn:Hfree; [discriminate |].
    intros H Hk Ha. inversion H; subst; clear H.
    rewrite lookup_insert_ne
      by (intros E; cbn in Hfree; rewrite E in Hfree; congruence).
    now rewrite lookup_delete_ne.
Qed.

(** X15.  The routes of one application serve its owner only.  For a
    record of another user, GET answers 404, and neither PATCH nor DELETE,
    whatever id and body they are called with, changes or removes it. *)
Theorem rest_routes_keep_to_the_owner user k a s :
  s_applications s !! k = Some a ->
  app_userId a <> user ->
  Rest.GET (Some user) k s = Failure 404 "Application not found" /\
  (forall id body now,
      s_applications (fst (PATCH (Some user) id body now s)) !! k = Some a) /\
  (forall id, s_applications (fst (Rest.DELETE (Some user) id s)) !! k = Some a).
Proof.
  intros Hk Hu.
  assert (Hne : String.eqb (app_userId a) user = false)
    by now apply String.eqb_neq.
  split; [| split].
  - unfold Rest.GET, Rest.findOwned. now rewrite Hk, Hne.
  - intros id body now. unfold PATCH.
    destruct (updateApplicationSchema body) as [data |]; [| exact Hk].
    destruct (s_applications s !! id) as [existing |] eqn:Hex; [| exact Hk].
    destruct (String.eqb (app_userId existing) user) eqn:Ho; [| exact Hk].
    cbn [negb].
    destruct (prisma_update _ _ _ _) as [[t row] |] eqn:Hw; [| exact Hk].
    cbn [fst with_s_applications s_applications].
    eapply prisma_update_others; [exact Hw | | exact Hk].
    intros ->. rewrite Hk in Hex. inversion Hex; subst. congruence.
  - intros id. unfold Rest.DELETE, Rest.findOwned.
    destruct (s_applications s !! id) as [existing |] eqn:Hex; [| exact Hk].
    destruct (String.eqb (app_userId existing) user) eqn:Ho; [| exact Hk].
    cbn [fst with_s_applications s_applications].
    rewrite lookup_delete_ne; [exact Hk |].
    intros ->. rewrite Hk in Hex. inversion Hex; subst. congruence.
Qed.

Lemma rest_routes_keep_to_the_owner_witness :
  Rest.GET (Some "u2") "app-1" (server_holding (server_copy 10 3)) =
  Failure 404 "Application not found".
Proof.
  exact (proj1 (rest_routes_keep_to_the_owner "u2" "app-1" (server_copy 10 3)
                  (server_holding (server_copy 10 3))
                  ltac:(vm_compute; reflexivity) ltac:(discriminate))).
Defined.

(** X16.  An update or a delete sent through the sync route leaves every
    record of another user as it is, whatever the request names or
    carries; a create gives no such guarantee. *)
Theorem sync_route_spares_other_users user k a rq now s :
  s_applications s !! k = Some a ->
  app_userId a <> user ->
  rq_operation rq <> CREATE ->
  s_applications (fst (POST (Some user) (Some rq) now s)) !! k = Some a.
Proof.
  intros Hk Hu Hop.
  assert (Hne : String.eqb (app_userId a) user = false)
    by now apply String.eqb_neq.
  unfold POST. destruct (rq_entity rq); [| exact Hk | exact Hk].
  unfold application_branch.
  destruct (rq_operation rq); [congruence | |].
  - destruct (s_applications s !! rq_entityId rq) as [existing |] eqn:Hex;
      [| exact Hk].
    destruct (String.eqb (app_userId existing) user) eqn:Ho; [| exact Hk].
    cbn [negb]. destruct (_ <? _)%Z; [exact Hk |].
    destruct (prisma_update _ _ _ _) as [[t row] |] eqn:Hw; [| exact Hk].
    cbn [of_write fst s_applications].
    eapply prisma_update_others; [exact Hw | | exact Hk].
    intros ->. rewrite Hk in Hex. inversion Hex; subst. congruence.
  - destruct (s_applications s !! rq_entityId rq) as [existing |] eqn:Hex;
      [| exact Hk].
    destruct (String.eqb (app_userId existing) user) eqn:Ho; [| exact Hk].
    cbn [fst s_applications]. rewrite lookup_delete_ne; [exact Hk |].
    intros E. rewrite E, Hk in Hex. inversion Hex; subst. congruence.
Qed.

Lemma sync_route_spares_other_users_witness :
  s_applications
    (fst (POST (Some "u2")
            (Some (mkRequest DELETE application "app-1" empty_patch 50)) 7
            (server_holding (server_copy 10 3)))) !! "app-1"
  = Some (server_copy 10 3).
Proof.
  exact (sync_route_spares_other_users "u2" "app-1" (server_copy 10 3)
           (mkRequest DELETE application "app-1" empty_patch 50) 7
           (server_holding (server_copy 10 3))
           ltac:(vm_compute; reflexivity) ltac:(discriminate)
           ltac:(discriminate)).
Defined.
End Ownership.

(** ** The reading routes *)

Section Reading.
Import Server.

Lemma newer_first_total : Total newer_first.
Proof. intros a b. unfold newer_first. lia. Qed.

Lemma newer_first_transitive : Transitive newer_first.
Proof. intros a b c. unfold newer_first. lia. Qed.

Lemma In_rows {V} (t : gmap string V) v :
  In v (rows t) <-> exists k, t !! k = Some v.
Proof.
  unfold rows. rewrite <- list_elem_of_In, list_elem_of_fmap. split.
  - intros [[k v'] [-> Hin]]. exists k. now apply elem_of_map_to_list.
  - intros [k Hk]. exists (k, v). split; [reflexivity |].
    now apply elem_of_map_to_list.
Qed.

Lemma filter_rows {V} (P : V -> bool) (ml : list (string * V)) :
  List.filter P (ml.*2) = (List.filter (fun kv => P kv.2) ml).*2.
Proof.
  induction ml as [| [k v] ml IH]; cbn; [reflexivity |].
  destruct (P v); cbn; now rewrite IH.
Qed.

Lemma NoDup_filter_keys {V} (Q : string * V -> bool) (ml : list (string * V)) :
  NoDup (ml.*1) -> NoDup ((List.filter Q ml).*1).
Proof.
  induction ml as [| [k v] ml IH]; cbn; [auto |].
  intros H. apply NoDup_cons in H as [Hk H].
  destruct (Q (k, v)); cbn; [| auto].
  apply NoDup_cons. split; [| auto].
  intros Hin. apply Hk. apply list_elem_of_fmap in Hin as [kv [-> Hin]].
  apply list_elem_of_fmap. exists kv. split; [reflexivity |].
  apply list_elem_of_In in Hin. apply filter_In in Hin as [Hin _].
  now apply list_elem_of_In.
Qed.

(** What [findMany] returns, in whatever order: each selected row once,
    from a key of its own. *)
Lemma found_rows_have_keys {V} (P : V -> bool) (t : gmap string V) l :
  l ≡ₚ List.filter P (rows t) ->
  exists keys, NoDup keys /\ Forall2 (fun k v => t !! k = Some v) keys l.
Proof.
  unfold rows. rewrite filter_rows.
  set (pairs := List.filter (fun kv => P kv.2) (map_to_list t)).
  intros Hperm.
  assert (Hpairs : Forall (fun kv => t !! kv.1 = Some kv.2) pairs).
  { apply List.Forall_forall. intros [k v] Hin.
    apply filter_In in Hin as [Hin _].
    now apply list_elem_of_In, elem_of_map_to_list in Hin. }
  assert (Hnd : NoDup (pairs.*1))
    by apply NoDup_filter_keys, NoDup_fst_map_to_list.
  change (pairs.*2) with (map snd pairs) in Hperm.
  apply Permutation_map_inv in Hperm as (pairs' & -> & Hp).
  exists (pairs'.*1). split; [now rewrite <- Hp |].
  rewrite Hp in Hpairs. clear -Hpairs.
  induction Hpairs as [| [k v] rest Hkv _ IH]; cbn; constructor; auto.
Qed.

(** X17.  The pull route answers a signed-in caller with exactly the
    caller's applications, those updated after [lastSyncedAt] when the
    query names one, newest first and each stored record once; with
    exactly the contacts and documents whose application belongs to the
    caller, and those are not narrowed by [lastSyncedAt]. *)
Theorem pull_route_answer user since now s :
  exists body,
    pull_GET (Some user) since now s = Reply body /\
    (forall a, In a (pb_applications body) <->
        (exists k, s_applications s !! k = Some a) /\ app_userId a = user /\
        forall t, since = Some t -> (t < app_updatedAt a)%Z) /\
    pb_timestamp body = now /\
    StronglySorted newer_first (pb_applications body) /\
    (exists keys,
        NoDup keys /\
        Forall2 (fun k a => s_applications s !! k = Some a) keys
                (pb_applications body)) /\
    (forall c, In c (pb_contacts body) <->
        (exists k, s_contacts s !! k = Some c) /\
        exists a, s_applications s !! contact_applicationId c = Some a /\
                  app_userId a = user) /\
    (forall x, In x (pb_documents body) <->
        (exists k, s_documents s !! k = Some x) /\
        exists a, s_applications s !! doc_applicationId x = Some a /\
                  app_userId a = user) /\
    (forall body', pull_GET (Some user) None now s = Reply body' ->
        pb_contacts body' = pb_contacts body /\
        pb_documents body' = pb_documents body).
Proof.
  eexists. split; [reflexivity |].
  cbn [pb_applications pb_contacts pb_documents pb_timestamp].
  split; [| split; [reflexivity |]].
  { intros a. rewrite <- list_elem_of_In, merge_sort_Permutation, list_elem_of_In.
    rewrite filter_In, In_rows. unfold pull_where.
    rewrite andb_true_iff, String.eqb_eq. split.
    - intros (Hin & Hu & Ht). split; [exact Hin |]. split; [exact Hu |].
      intros t ->. now apply Z.ltb_lt.
    - intros (Hin & Hu & Ht). split; [exact Hin |]. split; [exact Hu |].
      destruct since as [t |]; [| reflexivity]. now apply Z.ltb_lt, Ht. }
  split; [| split; [| split; [| split]]].
  - apply (@StronglySorted_merge_sort _ _ _ newer_first_transitive
             newer_first_total).
  - apply (found_rows_have_keys (pull_where user since)).
    apply merge_sort_Permutation.
  - intros c. rewrite filter_In, In_rows. unfold owned_by.
    split; intros [Hin Hown]; (split; [exact Hin |]).
    + destruct (s_applications s !! contact_applicationId c) as [a |];
        [| discriminate].
      exists a. split; [reflexivity | now apply String.eqb_eq].
    + destruct Hown as (a & -> & Hu). now apply String.eqb_eq.
  - intros x. rewrite filter_In, In_rows. unfold owned_by.
    split; intros [Hin Hown]; (split; [exact Hin |]).
    + destruct (s_applications s !! doc_applicationId x) as [a |];
        [| discriminate].
      exists a. split; [reflexivity | now apply String.eqb_eq].
    + destruct Hown as (a & -> & Hu). now apply String.eqb_eq.
  - intros body' H. inversion H; subst. cbn. auto.
Qed.

(** X18.  The list route answers a signed-in caller with the caller's
    applications, newest first and each stored record once, narrowed to one
    status when the query names one; a missing status and [ALL] give the
    same answer.  Each application comes with exactly the contacts and
    documents that name its id. *)
Theorem list_route_answer user status s :
  exists l,
    Rest.list_GET (Some user) status s = Reply l /\
    StronglySorted newer_first (Rest.inc_application <$> l) /\
    (exists keys,
        NoDup keys /\
        Forall2 (fun k a => s_applications s !! k = Some a) keys
                (Rest.inc_application <$> l)) /\
    (forall a, In a (Rest.inc_application <$> l) <->
        (exists k, s_applications s !! k = Some a) /\ app_userId a = user /\
        forall st, status = Rest.OneStatus st -> app_status a = st) /\
    Forall (fun i =>
              (forall c, In c (Rest.inc_contacts i) <->
                 (exists k, s_contacts s !! k = Some c) /\
                 contact_applicationId c = app_id (Rest.inc_application i)) /\
              (forall x, In x (Rest.inc_documents i) <->
                 (exists k, s_documents s !! k = Some x) /\
                 doc_applicationId x = app_id (Rest.inc_application i))) l /\
    Rest.list_GET (Some user) Rest.NoStatus s =
    Rest.list_GET (Some user) Rest.AllStatuses s.
Proof.
  eexists. split; [reflexivity |].
  set (found := merge_sort newer_first
                  (List.filter (Rest.list_where user status)
                     (rows (s_applications s)))).
  assert (Hfmap : Rest.inc_application <$> (Rest.include s <$> found) = found).
  { rewrite <- list_fmap_compose. apply list_fmap_id. }
  rewrite Hfmap. split; [| split; [| split; [| split]]].
  - apply (@StronglySorted_merge_sort _ _ _ newer_first_transitive
             newer_first_total).
  - apply (found_rows_have_keys (Rest.list_where user status)).
    apply merge_sort_Permutation.
  - intros a. rewrite <- list_elem_of_In. unfold found.
    rewrite merge_sort_Permutation, list_elem_of_In, filter_In, In_rows.
    unfold Rest.list_where. rewrite andb_true_iff, String.eqb_eq.
    split.
    + intros (Hin & Hu & Hst). split; [exact Hin | split; [exact Hu |]].
      intros st ->. destruct (app_status a), st; (reflexivity || discriminate).
    + intros (Hin & Hu & Hst). split; [exact Hin | split; [exact Hu |]].
      destruct status as [| | st]; [reflexivity | reflexivity |].
      rewrite (Hst st eq_refl). now destruct st.
  - apply Forall_fmap, List.Forall_forall. intros a _. cbn.
    split; intros r; rewrite filter_In, In_rows, String.eqb_eq; reflexivity.
  - reflexivity.
Qed.
End Reading.

(** ** The application store and its list *)

Section MirrorList.
Import Mirror.

Lemma update_fields_no_id now updates :
  p_id updates = None -> p_id (spread updates (update_fields now updates)) = None.
Proof. intros H. cbn. now rewrite H. Qed.

Lemma store_add_ok dr applicationData d d' created :
  Store.addApplication dr applicationData d = (d', Ok created) ->
  applications d !! app_id created = None /\
  applications d' = <[app_id created := created]> (applications d).
Proof.
  unfold Store.addApplication.
  match goal with |- context [add_application ?a d] =>
    pose proof (add_application_spec a d) as Hspec;
    destruct (add_application a d) as [d1 |]; [| discriminate] end.
  destruct (addToSyncQueue _ _ _ _ _ _ d1) as [d2 |] eqn:E; [| discriminate].
  intros H. inversion H; subst; clear H.
  apply addToSyncQueue_tables in E as [Ha _].
  destruct Hspec as (Hfree & Ht & _). rewrite Ha, Ht. auto.
Qed.

Lemma store_update_ok dr id updates d d' :
  Store.updateApplication dr id updates d = (d', Ok tt) ->
  exists existing,
    applications d !! id = Some existing /\
    applications d' =
      <[id := assign existing (spread updates (update_fields (now dr) updates))]>
        (applications d).
Proof.
  intros H.
  pose proof (updateApplication_record dr id updates d) as Hrec.
  rewrite H in Hrec. cbn [fst] in Hrec. rewrite Hrec.
  unfold Store.updateApplication in H.
  unfold update_application in *.
  destruct (applications d !! id) as [existing |] eqn:Hex.
  - exists existing. split; reflexivity.
  - rewrite Hex in H. discriminate.
Qed.

Lemma store_delete_ok dr id d d' :
  Store.deleteApplication dr id d = (d', Ok tt) ->
  applications d' = delete id (applications d).
Proof.
  unfold Store.deleteApplication.
  destruct (applications d !! id); [| discriminate].
  destruct (addToSyncQueue _ _ _ _ _ _ _) as [d2 |] eqn:E; [| discriminate].
  intros H. inversion H; subst; clear H.
  apply addToSyncQueue_tables in E as [Ha _].
  rewrite Ha. apply delete_application_spec.
Qed.

(** X19.  What the store lists is what the database holds: if every
    listed application is the row stored under its id, this is still so
    after an [addApplication], an [updateApplication] that does not rename
    the record, or a [deleteApplication] that succeeded. *)
Theorem store_list_follows_the_database dr d st :
  shows st d ->
  (forall applicationData created,
      let r := addApplication dr applicationData d st in
      snd r = Ok created -> shows (snd (fst r)) (fst (fst r))) /\
  (forall id updates,
      p_id updates = None ->
      let r := updateApplication dr id updates d st in
      snd r = Ok tt -> shows (snd (fst r)) (fst (fst r))) /\
  (forall id,
      let r := deleteApplication dr id d st in
      snd r = Ok tt -> shows (snd (fst r)) (fst (fst r))).
Proof.
  unfold shows. intros Hshows. split; [| split].
  - intros applicationData created. cbn zeta. unfold addApplication.
    destruct (Store.addApplication dr applicationData d) as [d' res] eqn:E.
    cbn [fst snd]. destruct res as [a | msg]; [| discriminate].
    intros H. inversion H; subst; clear H.
    apply store_add_ok in E as [Hfree Ht].
    cbn [fst snd st_applications settled_with]. rewrite Ht.
    apply Forall_app. split.
    + eapply Forall_impl; [exact Hshows |]. intros app Happ. cbn beta in *.
      rewrite lookup_insert_ne; [exact Happ | congruence].
    + constructor; [apply lookup_insert_eq | constructor].
  - intros id updates Hid. cbn zeta. unfold updateApplication.
    destruct (Store.updateApplication dr id updates d) as [d' res] eqn:E.
    cbn [fst snd]. destruct res as [[] | msg]; [| discriminate].
    intros _. apply store_update_ok in E as (existing & Hex & Ht).
    cbn [fst snd st_applications settled_with]. rewrite Ht.
    apply Forall_fmap. eapply Forall_impl; [exact Hshows |].
    intros app Happ. cbn beta in *. unfold compose, patched.
    destruct (String.eqb_spec (app_id app) id) as [E | E].
    + rewrite assign_spread_id by reflexivity. rewrite Hid. cbn [over].
      rewrite E, lookup_insert_eq. rewrite E, Hex in Happ. congruence.
    + rewrite lookup_insert_ne; [exact Happ | congruence].
  - intros id. cbn zeta. unfold deleteApplication.
    destruct (Store.deleteApplication dr id d) as [d' res] eqn:E.
    cbn [fst snd]. destruct res as [[] | msg]; [| discriminate].
    intros _. apply store_delete_ok in E as Ht.
    cbn [fst snd st_applications settled_with]. rewrite Ht.
    apply List.Forall_forall. intros app Hin.
    apply filter_In in Hin as [Hin Hne].
    apply negb_true_iff, String.eqb_neq in Hne.
    rewrite List.Forall_forall in Hshows.
    rewrite lookup_delete_ne; [now apply Hshows | congruence].
Qed.

Lemma store_list_follows_the_database_witness :
  shows
    (snd (fst (deleteApplication draw_9 "app-1" (local_holding (server_copy 10 3) 5)
                 (settled_with None [server_copy 10 3] None initial))))
    (fst (fst (deleteApplication draw_9 "app-1" (local_holding (server_copy 10 3) 5)
                 (settled_with None [server_copy 10 3] None initial)))).
Proof.
  refine (proj2 (proj2 (store_list_follows_the_database draw_9
                          (local_holding (server_copy 10 3) 5)
                          (settled_with None [server_copy 10 3] None initial) _))
            "app-1" _).
  - constructor; [vm_compute; reflexivity | constructor].
  - vm_compute; reflexivity.
Defined.

(** X20.  [loadApplications] lists exactly the stored applications of the
    user, clears the error and keeps the selection, the filter and the
    query; when every row is stored under its own id, the list shows the
    database. *)
Theorem loadApplications_lists_the_users_rows userId d st :
  let st' := loadApplications userId d st in
  (forall a, In a (st_applications st') <->
     (exists k, applications d !! k = Some a) /\ app_userId a = userId) /\
  (keyed d -> shows st' d) /\
  error st' = None /\ isLoading st' = false /\
  selectedApplication st' = selectedApplication st /\
  filterStatus st' = filterStatus st /\ searchQuery st' = searchQuery st.
Proof.
  cbn zeta. unfold loadApplications, getUserApplications.
  cbn [st_applications settled_with error isLoading selectedApplication
       filterStatus searchQuery].
  split; [| split; [| auto 10]].
  - intros a. now rewrite filter_In, In_rows, String.eqb_eq.
  - intros Hkeyed. unfold shows. cbn [st_applications].
    apply List.Forall_forall. intros a Hin.
    apply filter_In in Hin as [Hin _]. apply In_rows in Hin as [k Hk].
    now rewrite (Hkeyed k a Hk).
Qed.

(** X21.  A store action on an id that is not stored, or an add under an
    id that is taken, fails with its own message and leaves the database
    exactly as it was; the list and the selection stay and the message is
    recorded as the store's error. *)
Theorem failed_action_changes_nothing dr d st :
  (forall id updates,
      applications d !! id = None ->
      updateApplication dr id updates d st =
        (d, settled_with (Some "Application not found after update")
              (st_applications st) (selectedApplication st) st,
         Err "Application not found after update")) /\
  (forall id,
      applications d !! id = None ->
      deleteApplication dr id d st =
        (d, settled_with (Some "Application not found")
              (st_applications st) (selectedApplication st) st,
         Err "Application not found")) /\
  (forall applicationData,
      applications d !! recordId dr <> None ->
      addApplication dr applicationData d st =
        (d, settled_with (Some "ConstraintError")
              (st_applications st) (selectedApplication st) st,
         Err "ConstraintError")).
Proof.
  split; [| split].
  - intros id updates Hid. unfold updateApplication, Store.updateApplication,
      update_application. now rewrite Hid, Hid.
  - intros id Hid. unfold deleteApplication, Store.deleteApplication.
    now rewrite Hid.
  - intros applicationData Hid.
    unfold addApplication, Store.addApplication, add_application, table_add, bind.
    cbn [app_id]. destruct (applications d !! recordId dr); [reflexivity |].
    now destruct Hid.
Qed.

Lemma List_filter_sublist {A} (P : A -> bool) (l : list A) :
  sublist (List.filter P l) l.
Proof.
  induction l as [| x l IH]; cbn; [constructor |].
  destruct (P x); now constructor.
Qed.

Lemma List_filter_twice {A} (P : A -> bool) (l : list A) :
  List.filter P (List.filter P l) = List.filter P l.
Proof.
  induction l as [| x l IH]; cbn; [reflexivity |].
  destruct (P x) eqn:E; cbn; [rewrite E; now f_equal | exact IH].
Qed.

(** X22.  [getFilteredApplications] returns listed applications in their
    listed order: those that have the selected status, when one is
    selected, and that match the lower-cased query in company, position,
    location or notes, unless the query is blank.  With [ALL] and a blank
    query it is the whole list, and filtering its result again changes
    nothing. *)
Theorem filtered_applications js st :
  let l := getFilteredApplications js st in
  sublist l (st_applications st) /\
  (forall a, In a l <->
     In a (st_applications st) /\
     (forall status, filterStatus st = Only status -> app_status a = status) /\
     (trim js (searchQuery st) <> "" ->
        matches js (toLowerCase js (searchQuery st)) a = true)) /\
  (filterStatus st = ALL -> trim js (searchQuery st) = "" ->
     l = st_applications st) /\
  getFilteredApplications js
    (settled_with (error st) l (selectedApplication st) st) = l.
Proof.
  cbn zeta. unfold getFilteredApplications.
  cbn [st_applications settled_with filterStatus searchQuery].
  assert (Hst : forall a status,
             Rest.status_eqb (app_status a) status = true <-> app_status a = status).
  { intros a status. destruct (app_status a), status; cbn; split;
      (reflexivity || discriminate). }
  destruct (String.eqb_spec (trim js (searchQuery st)) "") as [Hq | Hq];
    destruct (filterStatus st) as [| status].
  - split; [reflexivity |]. split; [| auto].
    intros a. split; [intros H; repeat split; [exact H | discriminate | tauto] |].
    now intros [H _].
  - split; [apply List_filter_sublist |]. split; [| split; [discriminate |]].
    + intros a. rewrite filter_In, Hst. split.
      * intros [Hin Ha]. split; [exact Hin |]. split; [| tauto].
        intros status' E. inversion E; subst. reflexivity.
      * intros (Hin & Ha & _). auto.
    + apply List_filter_twice.
  - split; [apply List_filter_sublist |]. split; [| split; [tauto |]].
    + intros a. rewrite filter_In. split.
      * intros [Hin Hm]. split; [exact Hin |]. split; [discriminate | auto].
      * intros (Hin & _ & Hm). auto.
    + apply List_filter_twice.
  - split; [etransitivity; apply List_filter_sublist |].
    split; [| split; [discriminate |]].
    + intros a. rewrite !filter_In, Hst. split.
      * intros [[Hin Ha] Hm]. split; [exact Hin |]. split; [| auto].
        intros status' E. inversion E; subst. reflexivity.
      * intros (Hin & Ha & Hm). auto.
    + set (P := fun app => Rest.status_eqb (app_status app) status).
      set (Q := matches js (toLowerCase js (searchQuery st))).
      assert (Hcomm : forall l, List.filter P (List.filter Q l)
                                = List.filter Q (List.filter P l)).
      { induction l as [| x l IH]; cbn; [reflexivity |].
        destruct (Q x) eqn:EQ, (P x) eqn:EP; cbn; rewrite ?EQ, ?EP, IH;
          reflexivity. }
      rewrite Hcomm, !List_filter_twice. reflexivity.
Qed.
End MirrorList.

(** ** The client in front of the sync route *)

Section ClientAndRoute.
Import Server.

(** A conflict of the application branch carries the stored record, and
    that record is newer than the request. *)
Lemma branch_conflict_is_stored user now rq t t' result :
  application_branch user now rq t = Done t' true result ->
  exists existing,
    result = RRow existing /\ t !! rq_entityId rq = Some existing /\
    (rq_timestamp rq < app_updatedAt existing)%Z.
Proof.
  unfold application_branch.
  destruct (rq_operation rq);
    destruct (t !! rq_entityId rq) as [existing |]; try discriminate.
  - destruct (_ <? _)%Z eqn:E.
    + intros H. inversion H. exists existing. now apply Z.ltb_lt in E.
    + intros H. now apply of_write_no_conflict in H.
  - intros H. now apply of_write_no_conflict in H.
  - destruct (negb _); [discriminate |].
    destruct (_ <? _)%Z eqn:E.
    + intros H. inversion H. exists existing. now apply Z.ltb_lt in E.
    + intros H. now apply of_write_no_conflict in H.
  - destruct (String.eqb _ _); discriminate.
Qed.

(** X23.  What [processOperation] makes of each answer of the sync route.
    An error status counts one failed attempt with the message
    [Sync failed: <status text>].  A success without conflict marks the
    operation synced and leaves the local records alone.  A conflict is
    only ever reported for an application whose stored copy is newer than
    the operation, so the resolver always takes the server's side: the
    stored copy, stamped with the current time, is put into the local
    table and the operation is marked synced (or, when that write fails,
    one failed attempt is counted). *)
Theorem client_against_the_route user now s env operation w :
  let answer := snd (POST (Some user) (Some (Wire.request_of operation)) now s) in
  let r := processOperation (Wire.served (Some user) now s env) operation w in
  match answer with
  | Failure status _ =>
      db (fst r) =
        incrementRetryCount (op_id operation)
          ("Sync failed: " +:+ Wire.statusText status) (db w) /\
      snd r = Rejected ("Sync failed: " +:+ Wire.statusText status)
  | Reply body =>
      if sb_conflict body then
        exists existing,
          op_entity operation = application /\
          s_applications s !! op_entityId operation = Some existing /\
          (op_timestamp operation < app_updatedAt existing)%Z /\
          match put_application (stamp (clock env operation) existing) (db w) with
          | Ok d =>
              db (fst r) = markOperationSynced (op_id operation) d /\
              snd r = Fulfilled
          | Err msg =>
              db (fst r) = incrementRetryCount (op_id operation) msg (db w) /\
              snd r = Rejected msg
          end
      else
        db (fst r) = markOperationSynced (op_id operation) (db w) /\
        snd r = Fulfilled
  end.
Proof.
  cbn zeta. unfold processOperation. cbn [fst snd db emit].
  destruct operation as [id ty e eid data ts synced rc err].
  unfold settle, Wire.served. cbn [fetch clock op_id op_timestamp op_entityId].
  unfold POST, Wire.request_of.
  cbn [rq_entity rq_operation rq_entityId rq_data rq_timestamp
       op_entity op_type op_entityId op_data op_timestamp].
  destruct e.
  - destruct (application_branch user now _ (s_applications s))
      as [t c result | status msg |] eqn:Hbr; cbn [snd Wire.response_of op_entity].
    + cbn [sb_conflict sb_serverData]. destruct c.
      * apply branch_conflict_is_stored in Hbr as (existing & -> & Hex & Hlt).
        cbn [rq_entityId rq_timestamp] in Hex, Hlt.
        exists existing. split; [reflexivity |]. split; [exact Hex |].
        split; [exact Hlt |].
        unfold resolveConflict. cbn [op_entity op_timestamp row_updatedAt].
        apply Z.ltb_lt in Hlt. rewrite Hlt. cbn [put_serverData db emit].
        destruct (put_application _ _) as [d | msg']; cbn [fst snd db with_db];
          [auto |].
        now rewrite on_failure_db.
      * cbn [fst snd db with_db emit]. auto.
    + now rewrite on_failure_db.
    + now rewrite on_failure_db.
  - cbn. auto.
  - cbn. auto.
Qed.
End ClientAndRoute.

(** ** The queue across the whole client *)

Section QueueGrows.
Import System.

Lemma grows_same d d' : syncQueue d' = syncQueue d -> grows d d'.
Proof. intros H. unfold grows, unique_ids. rewrite H. auto. Qed.

Lemma grows_trans d1 d2 d3 : grows d1 d2 -> grows d2 d3 -> grows d1 d3.
Proof. intros [H1 U1] [H2 U2]. split; auto. Qed.

Lemma grows_addToSyncQueue id now type entity entityId data d d' :
  addToSyncQueue id now type entity entityId data d = Ok d' -> grows d d'.
Proof.
  unfold addToSyncQueue.
  destruct (queue_get id (syncQueue d)) eqn:Hget; [discriminate |].
  destruct (quota d); [discriminate |].
  intros H. inversion H; subst; clear H. unfold grows, unique_ids.
  cbn [syncQueue with_queue]. split.
  - intros id' op Hop. now apply queue_get_app_l.
  - intros Hnd. rewrite fmap_app. apply NoDup_app. split; [exact Hnd |]. split.
    + intros x Hx Hin. apply list_elem_of_In in Hin. cbn in Hin.
      destruct Hin as [<- | []].
      apply (queue_get_None _ _ Hget). now apply list_elem_of_In.
    + cbn. apply NoDup_singleton.
Qed.

Lemma grows_addApplication dr data d : grows d (fst (addApplication dr data d)).
Proof.
  unfold addApplication.
  match goal with |- context [add_application ?a d] =>
    pose proof (add_application_spec a d) as Hadd;
    destruct (add_application a d) as [d1 |] end; [| now apply grows_same].
  destruct Hadd as (_ & _ & Hq).
  destruct (addToSyncQueue _ _ _ _ _ _ d1) as [d2 |] eqn:E;
    cbn [fst]; [| now apply grows_same].
  eapply grows_trans; [apply grows_same, Hq |].
  eapply grows_addToSyncQueue, E.
Qed.

Lemma grows_updateApplication dr id updates d :
  grows d (fst (updateApplication dr id updates d)).
Proof.
  unfold updateApplication.
  set (d1 := update_application id _ d).
  assert (H1 : grows d d1) by apply grows_same, update_application_queue.
  destruct (applications d1 !! id); [| exact H1].
  destruct (addToSyncQueue _ _ _ _ _ _ d1) as [d2 |] eqn:E; [| exact H1].
  cbn [fst]. eapply grows_trans; [exact H1 |]. eapply grows_addToSyncQueue, E.
Qed.

Lemma grows_deleteApplication dr id d :
  grows d (fst (deleteApplication dr id d)).
Proof.
  unfold deleteApplication.
  destruct (applications d !! id); [| now apply grows_same].
  assert (H1 : grows d (delete_application id d))
    by apply grows_same, delete_application_spec.
  destruct (addToSyncQueue _ _ _ _ _ _ _) as [d2 |] eqn:E; [| exact H1].
  cbn [fst]. eapply grows_trans; [exact H1 |]. eapply grows_addToSyncQueue, E.
Qed.

Lemma grows_run act a : grows (db (world a)) (db (world (run act a))).
Proof.
  destruct act as [env | env now | env now | env now session | dr data
                  | dr id updates | dr id | dr id st | e s];
    cbn [run world db on_db with_db triggerSync set_isOnline].
  - apply grows_same. now rewrite sync_db.
  - apply grows_same. now rewrite sync_db.
  - unfold manualSync. destruct (negb _); cbn [fst world triggerSync];
      [now apply grows_same | apply grows_same; now rewrite sync_db].
  - unfold pullData. destruct session as [userId |]; [| now apply grows_same].
    destruct (negb _); cbn [fst world store_pullFromServer];
      [now apply grows_same |].
    apply grows_same, pullFromServer_queue.
  - apply grows_addApplication.
  - apply grows_updateApplication.
  - apply grows_deleteApplication.
  - apply grows_updateApplication.
  - now apply grows_same.
Qed.

(** X24.  Nothing the client does removes a row from the sync queue or
    changes it: after any sequence of store actions, calls of [sync],
    pulls and connectivity changes, every operation that was found under
    its id is found there as it was, neither marked synced nor counted as
    retried; the rows added since lie beside them.  If the ids were
    distinct they still are. *)
Theorem queue_only_grows acts a :
  (forall id op,
      queue_get id (syncQueue (db (world a))) = Some op ->
      queue_get id (syncQueue (db (world (run_all acts a)))) = Some op) /\
  (unique_ids (db (world a)) -> unique_ids (db (world (run_all acts a)))).
Proof.
  change (grows (db (world a)) (db (world (run_all acts a)))).
  unfold run_all. revert a.
  induction acts as [| act acts IH]; intros a; [now apply grows_same |].
  cbn [fold_left]. eapply grows_trans; [apply grows_run | apply IH].
Qed.
End QueueGrows.

(** ** The hooks, the listeners and the connectivity probe *)

Section ManualSync.
Import Status.

Lemma on_notify_keeps l st :
  sy_isOnline (fold_left on_notify l st) = sy_isOnline st /\
  lastSyncedAt (fold_left on_notify l st) = lastSyncedAt st.
Proof.
  revert st. induction l as [| s l IH]; intros st; [auto |].
  cbn [fold_left]. destruct (IH (on_notify st s)) as [-> ->]. auto.
Qed.

Lemma notified_none w : notified w w = [].
Proof. unfold notified. now rewrite drop_all. Qed.

Lemma notified_sync env w :
  declines w = false ->
  notified w (fst (sync env w)) =
  [Engine.mkState syncing 0 0 None;
   match read_error env with
   | Some msg => Engine.mkState error 0 0 (Some msg)
   | None => Engine.mkState success 0 0 None
   end].
Proof.
  intros Hd. unfold notified. rewrite (sync_past_guard env w Hd).
  destruct (read_error env); cbn [fst log set_isSyncing notifyListeners emit];
    rewrite <- app_assoc, drop_app_length; reflexivity.
Qed.

(** The store of [Store], with its two fields, is what is left of this one
    when the status is dropped. *)
Lemma triggerSync_brief env now c :
  brief (triggerSync env now c) = Store.triggerSync env now (brief c).
Proof.
  unfold triggerSync, Store.triggerSync, brief.
  cbn [engine ui Store.world Store.store]. f_equal.
  match goal with |- context [fold_left on_notify ?l ?st] =>
    destruct (on_notify_keeps l st) as [Ho Hl] end.
  destruct (snd (sync env (engine c)));
    cbn [settle_status set_success set_status sy_isOnline lastSyncedAt
         Store.synced_at Store.ss_isOnline Store.ss_lastSyncedAt];
    rewrite ?Ho, ?Hl; reflexivity.
Qed.

(** X25.  [manualSync] goes by the store's flag, the engine by its own.
    Whenever the store says online, a manual sync is fulfilled, whatever
    became of the call of [sync].  When the engine declines, nothing is
    sent and the engine is as before, and yet the store shows [success]
    and sets [lastSyncedAt] to the current time.  When the engine runs the
    pass, the store ends on [success 0/0] with [lastSyncedAt] set, or, when
    the queue read throws, on [error] with the message and [lastSyncedAt]
    as it was; the local database is as before either way.  With the
    engine offline a pull from the hook is fulfilled too: the store shows
    the engine's error and nothing else changes. *)
Theorem manualSync_goes_by_the_store_flag env now c :
  sy_isOnline (ui c) = true ->
  let r := manualSync env now c in
  snd r = Fulfilled /\
  brief (fst r) = fst (Store.manualSync env now (brief c)) /\
  db (engine (fst r)) = db (engine c) /\
  (declines (engine c) = true ->
     fst r =
       {| engine := engine c;
          ui := {| sy_isOnline := true; syncStatus := success;
                   syncProgress := syncProgress (ui c);
                   syncTotal := syncTotal (ui c);
                   syncError := None; lastSyncedAt := Some now |} |}) /\
  (declines (engine c) = false ->
     ui (fst r) =
       match read_error env with
       | None =>
           {| sy_isOnline := true; syncStatus := success; syncProgress := 0;
              syncTotal := 0; syncError := None; lastSyncedAt := Some now |}
       | Some msg =>
           {| sy_isOnline := true; syncStatus := error; syncProgress := 0;
              syncTotal := 0; syncError := Some msg;
              lastSyncedAt := lastSyncedAt (ui c) |}
       end) /\
  (isOnline (engine c) = false ->
     forall userId,
       pullData env now (Some userId) c =
       ({| engine := engine c;
           ui := {| sy_isOnline := true; syncStatus := error;
                    syncProgress := syncProgress (ui c);
                    syncTotal := syncTotal (ui c);
                    syncError := Some "Cannot pull from server while offline";
                    lastSyncedAt := lastSyncedAt (ui c) |} |},
        Fulfilled)).
Proof.
  destruct c as [w [online st pr tot err last]].
  cbn [ui engine sy_isOnline syncProgress syncTotal lastSyncedAt].
  intros ->. cbn zeta. unfold manualSync, Store.manualSync, pullData.
  cbn [brief Store.store Store.ss_isOnline ui engine sy_isOnline].
  cbn [negb fst snd].
  split; [reflexivity |]. split; [apply triggerSync_brief |].
  split; [unfold triggerSync; cbn [engine]; apply sync_db |].
  split; [| split].
  - intros Hd. unfold triggerSync. cbn [engine ui].
    rewrite sync_guard.
    2:{ unfold declines in Hd. apply orb_true_iff in Hd as [Hd | Hd];
          [right; now apply negb_true_iff in Hd | now left]. }
    cbn [fst snd]. rewrite notified_none. reflexivity.
  - intros Hd. unfold triggerSync. cbn [ui engine].
    rewrite (notified_sync env _ Hd), (sync_past_guard env _ Hd).
    destruct (read_error env); reflexivity.
  - intros Hoff userId. unfold pullFromServer, Engine.pullFromServer.
    cbn [engine ui]. rewrite Hoff. cbn [negb fst snd].
    rewrite notified_none. reflexivity.
Qed.

Lemma manualSync_goes_by_the_store_flag_witness :
  fst (manualSync unreachable 700
         {| engine := offline_world;
            ui := {| sy_isOnline := true; syncStatus := idle; syncProgress := 0;
                     syncTotal := 0; syncError := None; lastSyncedAt := None |} |})
  = {| engine := offline_world;
       ui := {| sy_isOnline := true; syncStatus := success; syncProgress := 0;
                syncTotal := 0; syncError := None;
                lastSyncedAt := Some 700%Z |} |}.
Proof.
  exact (proj1 (proj2 (proj2 (proj2
           (manualSync_goes_by_the_store_flag unreachable 700
              {| engine := offline_world;
                 ui := {| sy_isOnline := true; syncStatus := idle;
                          syncProgress := 0; syncTotal := 0; syncError := None;
                          lastSyncedAt := None |} |}
              eq_refl)))) eq_refl).
Defined.
End ManualSync.

Section Hooks.
Import Connectivity Mirror.

(** X26.  What the engine's handlers start.  The ["online"] listener
    raises the flag and calls [sync], which runs unless a pass is running;
    the callback of a retry timer calls it when the engine is online and no
    pass is running.  A call that runs notifies [syncing 0/0] and its
    outcome; neither handler sends a request or changes the database.  The
    connectivity probe and the ["offline"] listener notify, send and write
    nothing, whatever the probe finds.  After a probe, of the engine or of
    [useNetworkStatus], the flag it sets is up exactly when the browser says
    online and the probe was answered. *)
Theorem handlers_and_requests env w :
  let started :=
    [Engine.mkState syncing 0 0 None;
     match read_error env with
     | Some msg => Engine.mkState Engine.error 0 0 (Some msg)
     | None => Engine.mkState success 0 0 None
     end] in
  (Engine.isOnline (on_online env w) = true /\
   notifications (log (on_online env w)) =
     notifications (log w) ++ (if isSyncing w then [] else started) /\
   requests (log (on_online env w)) = requests (log w) /\
   db (on_online env w) = db w) /\
  (notifications (log (on_retry_timer env w)) =
     notifications (log w) ++ (if declines w then [] else started) /\
   requests (log (on_retry_timer env w)) = requests (log w) /\
   db (on_retry_timer env w) = db w) /\
  (forall onLine probe,
      let w' := checkRealConnectivity onLine probe w in
      Engine.isOnline w' = onLine && probe /\ db w' = db w /\ log w' = log w /\
      isSyncing w' = isSyncing w /\
      forall st,
        hook_checkRealConnectivity onLine probe st =
        {| ss_isOnline := Engine.isOnline w'; ss_lastSyncedAt := ss_lastSyncedAt st |}) /\
  log (on_offline w) = log w /\ db (on_offline w) = db w.
Proof.
  cbn zeta.
  assert (Hcall : forall w0,
    notifications (log (fst (sync env w0))) =
    notifications (log w0) ++
    (if declines w0 then []
     else [Engine.mkState syncing 0 0 None;
           match read_error env with
           | Some msg => Engine.mkState Engine.error 0 0 (Some msg)
           | None => Engine.mkState success 0 0 None
           end]) /\
    Engine.isOnline (fst (sync env w0)) = Engine.isOnline w0).
  { intros w0. destruct (declines w0) eqn:Hd.
    - unfold sync. unfold declines in Hd. rewrite Hd. cbn [fst].
      now rewrite app_nil_r.
    - destruct (sync_notifies env w0 Hd) as (Hn & _ & Ho). auto. }
  split; [| split; [| split]].
  - unfold on_online. destruct (Hcall (set_isOnline true w)) as [Hn Ho].
    rewrite Hn, Ho, sync_requests, sync_db. auto.
  - unfold on_retry_timer, declines.
    destruct (Engine.isOnline w) eqn:Ho, (isSyncing w) eqn:Hs; cbn [andb negb orb];
      rewrite ?app_nil_r; auto.
    destruct (Hcall w) as [Hn _]. unfold declines in Hn. rewrite Ho, Hs in Hn.
    rewrite Hn, sync_requests, sync_db. auto.
  - intros [] []; cbn; auto 10.
  - split; reflexivity.
Qed.

Lemma List_filter_filter {A} (P Q : A -> bool) (l : list A) :
  List.filter P (List.filter Q l) = List.filter (fun x => Q x && P x) l.
Proof.
  induction l as [| x l IH]; cbn; [reflexivity |].
  destruct (Q x) eqn:EQ; cbn; [| exact IH].
  destruct (P x); now rewrite IH.
Qed.

(** X27.  The status filter of the store agrees with the database's own
    query: after [loadApplications], with a status selected and a blank
    query, [getFilteredApplications] lists what [getApplicationsByStatus]
    returns for that user, in the same order. *)
Theorem status_filter_agrees_with_the_index js userId status d st :
  trim js (searchQuery st) = "" ->
  getFilteredApplications js
    (setFilterStatus (Only status) (loadApplications userId d st)) =
  getApplicationsByStatus userId status d.
Proof.
  intros Hq. unfold getFilteredApplications.
  cbn [filterStatus searchQuery setFilterStatus loadApplications settled_with
       st_applications].
  rewrite Hq. cbn [String.eqb]. unfold getUserApplications, getApplicationsByStatus.
  apply List_filter_filter.
Qed.

Lemma status_filter_agrees_with_the_index_witness :
  getFilteredApplications (mkJsString (fun s => s) (fun _ _ => false) (fun s => s))
    (setFilterStatus (Only APPLIED)
       (loadApplications "u1" (local_holding (server_copy 10 3) 5) initial)) =
  getApplicationsByStatus "u1" APPLIED (local_holding (server_copy 10 3) 5).
Proof.
  exact (status_filter_agrees_with_the_index
           (mkJsString (fun s => s) (fun _ _ => false) (fun s => s))
           "u1" APPLIED (local_holding (server_copy 10 3) 5) initial eq_refl).
Defined.
End Hooks.
